(** * EasyArgs: a shallow embedding of [includes/easyargs.h]

    The header generates, from three lists of macro invocations
    ([REQUIRED_ARGS], [OPTIONAL_ARGS], [BOOLEAN_ARGS]), a struct [args_t],
    its default value, a parser for [argv] and a help printer.  The
    embedding keeps the three lists as data and writes every generated
    function as a function of them. *)

From Stdlib Require Import ZArith Lia String Ascii List Floats.SpecFloat.
From stdpp Require Import base gmap strings list.

Local Open Scope Z_scope.

(** ** C strings and characters *)

(** A C string is the sequence of characters before its terminating NUL;
    a [char*] is [None] for the null pointer and [Some s] otherwise. *)
Definition cstr := option string.

Definition code (c : ascii) : Z := Z.of_N (N_of_ascii c).

Definition nl : string := String (ascii_of_N 10) EmptyString.

(** [isspace] of <ctype.h> in the C locale: space, and HT LF VT FF CR. *)
Definition isspace (c : ascii) : bool :=
  (code c =? 32) || ((9 <=? code c) && (code c <=? 13)).

(** ** Platform limits (<limits.h>, <stdint.h>) *)

(** The header reads the limits of the integer types from the platform.
    They are given by the widths of the types, with the orderings the C
    standard guarantees. *)
Class Abi := {
  int_bits : Z;
  long_bits : Z;
  llong_bits : Z;
  size_bits : Z;
  int_bits_min : 16 <= int_bits;
  int_le_long : int_bits <= long_bits;
  long_le_llong : long_bits <= llong_bits;
  size_bits_min : 16 <= size_bits;
  size_le_llong : size_bits <= llong_bits
}.

Definition UINT_MAX `{Abi} : Z := 2 ^ int_bits - 1.
Definition ULONG_MAX `{Abi} : Z := 2 ^ long_bits - 1.
Definition ULLONG_MAX `{Abi} : Z := 2 ^ llong_bits - 1.
Definition SIZE_MAX `{Abi} : Z := 2 ^ size_bits - 1.
Definition INT_MIN `{Abi} : Z := - 2 ^ (int_bits - 1).
Definition INT_MAX `{Abi} : Z := 2 ^ (int_bits - 1) - 1.
Definition LONG_MIN `{Abi} : Z := - 2 ^ (long_bits - 1).
Definition LONG_MAX `{Abi} : Z := 2 ^ (long_bits - 1) - 1.
Definition LLONG_MIN `{Abi} : Z := - 2 ^ (llong_bits - 1).
Definition LLONG_MAX `{Abi} : Z := 2 ^ (llong_bits - 1) - 1.

(** The two common 64-bit and 32-bit data models. *)
#[refine] Instance LP64 : Abi :=
  {| int_bits := 32; long_bits := 64; llong_bits := 64; size_bits := 64 |}.
Proof. all: lia. Defined.

#[refine] Instance ILP32 : Abi :=
  {| int_bits := 32; long_bits := 32; llong_bits := 64; size_bits := 32 |}.
Proof. all: lia. Defined.

(** ** The integer scans of <stdlib.h> *)

(** [strtoull] and [strtoll] belong to the C library, not to the header.
    They are written here after ISO C 7.22.1.4 for base 0: white space is
    skipped, an optional sign is read, a [0x]/[0X] prefix followed by a
    hexadecimal digit selects base 16, a leading [0] selects base 8,
    anything else base 10; the longest run of digits of that base is the
    subject sequence.  Without a subject sequence no conversion is
    performed and the end pointer is the start of the string.  The value
    is computed exactly and clamped, with [ERANGE], when it does not fit. *)

Definition digit_val (c : ascii) : option Z :=
  let n := code c in
  if (48 <=? n) && (n <=? 57) then Some (n - 48)
  else if (97 <=? n) && (n <=? 122) then Some (n - 87)
  else if (65 <=? n) && (n <=? 90) then Some (n - 55)
  else None.

Definition digit_in (base : Z) (c : ascii) : option Z :=
  match digit_val c with
  | Some d => if d <? base then Some d else None
  | None => None
  end.

Definition is_digit (base : Z) (c : ascii) : bool :=
  match digit_in base c with Some _ => true | None => false end.

(** [scan_digits base s acc] reads the longest prefix of [s] made of digits
    of [base]; it returns the accumulated value and the unread suffix. *)
Fixpoint scan_digits (base : Z) (s : string) (acc : Z) : Z * string :=
  match s with
  | EmptyString => (acc, s)
  | String c s' =>
      match digit_in base c with
      | Some d => scan_digits base s' (acc * base + d)
      | None => (acc, s)
      end
  end.

Fixpoint skip_space (s : string) : string :=
  match s with
  | String c s' => if isspace c then skip_space s' else s
  | EmptyString => s
  end.

Definition read_sign (s : string) : bool * string :=
  match s with
  | String c s' =>
      if (code c =? 45) then (true, s')
      else if (code c =? 43) then (false, s')
      else (false, s)
  | EmptyString => (false, s)
  end.

(** Base detection for base 0; the result is the base and the string at
    which the digits start. *)
Definition detect_base (s : string) : Z * string :=
  match s with
  | String z (String x (String h s')) =>
      if (code z =? 48) && ((code x =? 120) || (code x =? 88))
         && is_digit 16 h
      then (16, String h s')
      else if (code z =? 48) then (8, s) else (10, s)
  | String z _ => if (code z =? 48) then (8, s) else (10, s)
  | EmptyString => (10, s)
  end.

(** The subject sequence: [None] when there is none, else the sign, the
    magnitude and the unread suffix. *)
Definition subject (s : string) : option (bool * Z * string) :=
  let '(neg, s1) := read_sign (skip_space s) in
  let '(base, s2) := detect_base s1 in
  match s2 with
  | String c _ =>
      match digit_in base c with
      | Some _ => let '(m, rest) := scan_digits base s2 0 in Some (neg, m, rest)
      | None => None
      end
  | EmptyString => None
  end.

(** [strtoull text &end 0]: the value, the string at [end], and whether
    [errno] was set to [ERANGE]. *)
Definition strtoull `{Abi} (text : string) : Z * string * bool :=
  match subject text with
  | None => (0, text, false)
  | Some (neg, m, rest) =>
      if ULLONG_MAX <? m then (ULLONG_MAX, rest, true)
      else ((if neg then (- m) mod 2 ^ llong_bits else m), rest, false)
  end.

Definition strtoll `{Abi} (text : string) : Z * string * bool :=
  match subject text with
  | None => (0, text, false)
  | Some (neg, m, rest) =>
      if neg then
        if - m <? LLONG_MIN then (LLONG_MIN, rest, true) else (- m, rest, false)
      else
        if LLONG_MAX <? m then (LLONG_MAX, rest, true) else (m, rest, false)
  end.

(** The floating-point scans are left abstract: a value of the IEEE model
    of the Standard Library, the string at [end], and the [ERANGE] flag. *)
Class LibcFloat := {
  strtof : string -> spec_float * string * bool;
  strtod : string -> spec_float * string * bool
}.

(** ** Helper functions *)

Definition easyargs_skip_leading (s : cstr) : cstr :=
  match s with
  | None => None
  | Some s => Some (skip_space s)
  end.

(** ** Parsers *)

(** Every parser returns the C return value, the final [*ok] and the lines
    it printed on [stderr].  After the null test the parsers call
    [easyargs_skip_leading] on a non-null pointer, which is [skip_space]
    on the string. *)

Definition is_empty (s : string) : bool :=
  match s with EmptyString => true | _ => false end.

Definition easyargs_parse_str (text : cstr) : cstr * bool * list string :=
  match text with
  | None => (None, false, ["Error: null string value." +:+ nl])
  | Some s =>
      if is_empty s
      then (None, false, ["Error: empty string value not allowed." +:+ nl])
      else (Some s, true, [])
  end.

Definition NUL : ascii := ascii_of_N 0.

Definition easyargs_parse_char (text : cstr) : ascii * bool * list string :=
  match text with
  | None => (NUL, false, ["Error: null input for character argument." +:+ nl])
  | Some s =>
      match s with
      | String c EmptyString => (c, true, [])
      | _ => (NUL, false, ["Error: '" +:+ s +:+ "' is not a valid character." +:+ nl])
      end
  end.

(** The casts [(unsigned long long)(maxval)] and [(long long)(minval)] of
    the range tests: a value that does not fit wraps around. *)
Definition to_ullong `{Abi} (z : Z) : Z := z mod 2 ^ llong_bits.

Definition to_llong `{Abi} (z : Z) : Z :=
  (z + 2 ^ (llong_bits - 1)) mod 2 ^ llong_bits - 2 ^ (llong_bits - 1).

Definition first_is (n : Z) (s : string) : bool :=
  match s with String c _ => code c =? n | EmptyString => false end.

Definition DEFINE_UNSIGNED_INTEGER_PARSER `{Abi} (maxval : Z) (typename : string)
    (text : cstr) : Z * bool * list string :=
  match text with
  | None => (0, false, ["Error: null input for " +:+ typename +:+ "." +:+ nl])
  | Some s =>
      let text := skip_space s in
          if is_empty text then
            (0, false, ["Error: empty input for " +:+ typename +:+ "." +:+ nl])
          else if first_is 45 text then
            (0, false, ["Error: '" +:+ text +:+ "' negative value not allowed for "
                          +:+ typename +:+ "." +:+ nl])
          else
            let '(val, end_, erange) := strtoull text in
            if negb (is_empty end_) then
              (0, false, ["Error: '" +:+ text +:+ "' is not a valid "
                            +:+ typename +:+ "." +:+ nl])
            else if erange || (to_ullong maxval <? val) then
              (0, false, ["Error: '" +:+ text +:+ "' is out of range for "
                            +:+ typename +:+ "." +:+ nl])
            else (val, true, [])
  end.

Definition easyargs_parse_uint `{Abi} := DEFINE_UNSIGNED_INTEGER_PARSER UINT_MAX "unsigned int".
Definition easyargs_parse_ulong `{Abi} := DEFINE_UNSIGNED_INTEGER_PARSER ULONG_MAX "unsigned long".
Definition easyargs_parse_ullong `{Abi} := DEFINE_UNSIGNED_INTEGER_PARSER ULLONG_MAX "unsigned long long".
Definition easyargs_parse_size_t `{Abi} := DEFINE_UNSIGNED_INTEGER_PARSER SIZE_MAX "size_t".

Definition DEFINE_SIGNED_INTEGER_PARSER `{Abi} (minval maxval : Z) (typename : string)
    (text : cstr) : Z * bool * list string :=
  match text with
  | None => (0, false, ["Error: null input for " +:+ typename +:+ "." +:+ nl])
  | Some s =>
      let text := skip_space s in
          if is_empty text then
            (0, false, ["Error: empty input for " +:+ typename +:+ "." +:+ nl])
          else
            let '(val, end_, erange) := strtoll text in
            if negb (is_empty end_) then
              (0, false, ["Error: '" +:+ text +:+ "' is not a valid "
                            +:+ typename +:+ "." +:+ nl])
            else if erange || (val <? to_llong minval) || (to_llong maxval <? val) then
              (0, false, ["Error: '" +:+ text +:+ "' is out of range for "
                            +:+ typename +:+ "." +:+ nl])
            else (val, true, [])
  end.

Definition easyargs_parse_int `{Abi} := DEFINE_SIGNED_INTEGER_PARSER INT_MIN INT_MAX "int".
Definition easyargs_parse_long `{Abi} := DEFINE_SIGNED_INTEGER_PARSER LONG_MIN LONG_MAX "long".
Definition easyargs_parse_llong `{Abi} := DEFINE_SIGNED_INTEGER_PARSER LLONG_MIN LLONG_MAX "long long".

Definition fzero : spec_float := S754_zero false.

Definition easyargs_parse_float `{LibcFloat} (text : cstr) : spec_float * bool * list string :=
  match text with
  | None => (fzero, false, ["Error: null input for float." +:+ nl])
  | Some s =>
      let text := skip_space s in
          if is_empty text then
            (fzero, false, ["Error: empty input for float." +:+ nl])
          else
            let '(value, end_, erange) := strtof text in
            if erange then
              (fzero, false, ["Error: '" +:+ text +:+ "' is out of range for type float." +:+ nl])
            else if negb (is_empty end_) then
              (fzero, false, ["Error: '" +:+ text +:+ "' is not a valid float." +:+ nl])
            else (value, true, [])
  end.

Definition easyargs_parse_double `{LibcFloat} (text : cstr) : spec_float * bool * list string :=
  match text with
  | None => (fzero, false, ["Error: null input for double." +:+ nl])
  | Some s =>
      let text := skip_space s in
          if is_empty text then
            (fzero, false, ["Error: empty input for double." +:+ nl])
          else
            let '(value, end_, erange) := strtod text in
            if erange then
              (fzero, false, ["Error: '" +:+ text +:+ "' is out of range for type double." +:+ nl])
            else if negb (is_empty end_) then
              (fzero, false, ["Error: '" +:+ text +:+ "' is not a valid double." +:+ nl])
            else (value, true, [])
  end.

(** ** Declarations *)

(** The C types the typed macros declare fields of. *)
Inductive ctype :=
| TString | TChar | TInt | TUInt | TLong | TULong | TLLong | TULLong
| TSize | TFloat | TDouble.

(** A value held by a field of [args_t]. *)
Inductive value :=
| VStr (p : cstr)
| VChar (c : ascii)
| VInt (n : Z)
| VFloat (f : spec_float)
| VBool (b : bool).

(** [(type) 0] *)
Definition zero_of (t : ctype) : value :=
  match t with
  | TString => VStr None
  | TChar => VChar NUL
  | TFloat | TDouble => VFloat fzero
  | _ => VInt 0
  end.

(** The [parser] argument of a descriptor, as it is used by the generated
    code: [(type) parser(text, &ok)], together with what it prints. *)
Definition converter := cstr -> value * bool * list string.

Record required_arg := REQUIRED_ARG {
  r_type : ctype;
  r_name : string;
  r_label : string;
  r_description : string;
  r_parser : converter
}.

Record optional_arg := OPTIONAL_ARG {
  o_type : ctype;
  o_name : string;
  o_default : value;
  o_flag : string;
  o_label : string;
  o_description : string;
  o_formatter : string;
  o_parser : converter
}.

Record boolean_arg := BOOLEAN_ARG {
  b_name : string;
  b_flag : string;
  b_description : string
}.

(** The three macro lists a program defines before including the header. *)
Record decls := Decls {
  REQUIRED_ARGS : list required_arg;
  OPTIONAL_ARGS : list optional_arg;
  BOOLEAN_ARGS : list boolean_arg
}.

Definition as_value {A : Type} (inj : A -> value)
    (p : cstr -> A * bool * list string) : converter :=
  fun text => let '(v, ok, e) := p text in (inj v, ok, e).

(** The typed macros. *)
Definition REQUIRED_STRING_ARG (name label description : string) :=
  REQUIRED_ARG TString name label description (as_value VStr easyargs_parse_str).
Definition REQUIRED_CHAR_ARG (name label description : string) :=
  REQUIRED_ARG TChar name label description (as_value VChar easyargs_parse_char).
Definition REQUIRED_INT_ARG `{Abi} (name label description : string) :=
  REQUIRED_ARG TInt name label description (as_value VInt easyargs_parse_int).
Definition REQUIRED_UINT_ARG `{Abi} (name label description : string) :=
  REQUIRED_ARG TUInt name label description (as_value VInt easyargs_parse_uint).
Definition REQUIRED_LONG_ARG `{Abi} (name label description : string) :=
  REQUIRED_ARG TLong name label description (as_value VInt easyargs_parse_long).
Definition REQUIRED_ULONG_ARG `{Abi} (name label description : string) :=
  REQUIRED_ARG TULong name label description (as_value VInt easyargs_parse_ulong).
Definition REQUIRED_LONG_LONG_ARG `{Abi} (name label description : string) :=
  REQUIRED_ARG TLLong name label description (as_value VInt easyargs_parse_llong).
Definition REQUIRED_ULONG_LONG_ARG `{Abi} (name label description : string) :=
  REQUIRED_ARG TULLong name label description (as_value VInt easyargs_parse_ullong).
Definition REQUIRED_SIZE_ARG `{Abi} (name label description : string) :=
  REQUIRED_ARG TSize name label description (as_value VInt easyargs_parse_size_t).
Definition REQUIRED_FLOAT_ARG `{LibcFloat} (name label description : string) :=
  REQUIRED_ARG TFloat name label description (as_value VFloat easyargs_parse_float).
Definition REQUIRED_DOUBLE_ARG `{LibcFloat} (name label description : string) :=
  REQUIRED_ARG TDouble name label description (as_value VFloat easyargs_parse_double).

Definition OPTIONAL_STRING_ARG (name : string) (default : cstr)
    (flag label description : string) :=
  OPTIONAL_ARG TString name (VStr default) flag label description "%s"
    (as_value VStr easyargs_parse_str).
Definition OPTIONAL_CHAR_ARG (name : string) (default : ascii)
    (flag label description : string) :=
  OPTIONAL_ARG TChar name (VChar default) flag label description "%c"
    (as_value VChar easyargs_parse_char).
Definition OPTIONAL_INT_ARG `{Abi} (name : string) (default : Z)
    (flag label description : string) :=
  OPTIONAL_ARG TInt name (VInt default) flag label description "%d"
    (as_value VInt easyargs_parse_int).
Definition OPTIONAL_UINT_ARG `{Abi} (name : string) (default : Z)
    (flag label description : string) :=
  OPTIONAL_ARG TUInt name (VInt default) flag label description "%u"
    (as_value VInt easyargs_parse_uint).
Definition OPTIONAL_LONG_ARG `{Abi} (name : string) (default : Z)
    (flag label description : string) :=
  OPTIONAL_ARG TLong name (VInt default) flag label description "%ld"
    (as_value VInt easyargs_parse_long).
Definition OPTIONAL_ULONG_ARG `{Abi} (name : string) (default : Z)
    (flag label description : string) :=
  OPTIONAL_ARG TULong name (VInt default) flag label description "%lu"
    (as_value VInt easyargs_parse_ulong).
Definition OPTIONAL_LONG_LONG_ARG `{Abi} (name : string) (default : Z)
    (flag label description : string) :=
  OPTIONAL_ARG TLLong name (VInt default) flag label description "%lld"
    (as_value VInt easyargs_parse_llong).
Definition OPTIONAL_ULONG_LONG_ARG `{Abi} (name : string) (default : Z)
    (flag label description : string) :=
  OPTIONAL_ARG TULLong name (VInt default) flag label description "%llu"
    (as_value VInt easyargs_parse_ullong).
Definition OPTIONAL_SIZE_ARG `{Abi} (name : string) (default : Z)
    (flag label description : string) :=
  OPTIONAL_ARG TSize name (VInt default) flag label description "%zu"
    (as_value VInt easyargs_parse_size_t).
Definition OPTIONAL_FLOAT_ARG `{LibcFloat} (name : string) (default : spec_float)
    (flag label description precision : string) :=
  OPTIONAL_ARG TFloat name (VFloat default) flag label description
    ("%." +:+ precision +:+ "g") (as_value VFloat easyargs_parse_float).
Definition OPTIONAL_DOUBLE_ARG `{LibcFloat} (name : string) (default : spec_float)
    (flag label description precision : string) :=
  OPTIONAL_ARG TDouble name (VFloat default) flag label description
    ("%." +:+ precision +:+ "g") (as_value VFloat easyargs_parse_double).

(** ** Argument counts *)

Definition REQUIRED_ARG_COUNT (D : decls) : Z := Z.of_nat (length (REQUIRED_ARGS D)).
Definition OPTIONAL_ARG_COUNT (D : decls) : Z := Z.of_nat (length (OPTIONAL_ARGS D)).
Definition BOOLEAN_ARG_COUNT (D : decls) : Z := Z.of_nat (length (BOOLEAN_ARGS D)).

(** ** The struct [args_t] and its default value *)

(** [args_t] has one member per descriptor; a value of the struct is the
    finite map from member names to their values. *)
Abbreviation args_t := (gmap string value).

Definition init_required (args : args_t) (d : required_arg) : args_t :=
  <[r_name d := zero_of (r_type d)]> args.
Definition init_optional (args : args_t) (d : optional_arg) : args_t :=
  <[o_name d := o_default d]> args.
Definition init_boolean (args : args_t) (d : boolean_arg) : args_t :=
  <[b_name d := VBool false]> args.

(** The designated initializers are applied in the order of the lists. *)
Definition make_default_args (D : decls) : args_t :=
  foldl init_boolean
    (foldl init_optional
       (foldl init_required ∅ (REQUIRED_ARGS D))
       (OPTIONAL_ARGS D))
    (BOOLEAN_ARGS D).

(** ** Parsing the arguments *)

(** [strcmp] of <string.h>; only its sign matters. *)
Definition strcmp (a b : string) : Z :=
  match String.compare a b with
  | Eq => 0
  | Lt => -1
  | Gt => 1
  end.

(** What a call of [parse_args] has done so far: the struct behind [args],
    the lines printed on [stderr], and (a ghost record, there is no such
    variable in the code) the calls of the descriptors' parsers in program
    order, each with the member it is assigned to and the token it reads. *)
Record state := State {
  st_args : args_t;
  st_err : list string;
  st_calls : list (string * string)
}.

Definition print_err (s : state) (line : string) : state :=
  State (st_args s) (st_err s ++ [line]) (st_calls s).

(** [args->name = 1;] *)
Definition assign_true (name : string) (s : state) : state :=
  State (<[name := VBool true]> (st_args s)) (st_err s) (st_calls s).

Definition requires_value (flag : string) : string :=
  "Error: option '" +:+ flag +:+ "' requires a value." +:+ nl.

Definition ignoring (token : string) : string :=
  "Warning: Ignoring invalid argument '" +:+ token +:+ "'" +:+ nl.

(** [ok = 0; args->name = (type) parser(token, &ok);] gives the new state
    and the final [ok]. *)
Definition convert (name : string) (parser : converter) (token : string)
    (s : state) : state * bool :=
  let '(v, ok, e) := parser (Some token) in
  (State (<[name := v]> (st_args s)) (st_err s ++ e)
         (st_calls s ++ [(name, token)]), ok).

(** Where control is after a piece of the body of [parse_args]:
    [Continue i s] goes on with the variable [i] and state [s],
    [Return0 s] has executed [return 0], and [Stuck] has read [argv]
    outside the array, which C leaves undefined. *)
Inductive flow :=
| Continue (i : Z) (s : state)
| Return0 (s : state)
| Stuck.

(** The result of a call. *)
Inductive outcome :=
| Return (ret : Z) (s : state)
| Undefined
| OutOfFuel.

Definition argv_at (argv : list string) (i : Z) : option string :=
  if i <? 0 then None else argv !! Z.to_nat i.

(** The expansion of [REQUIRED_ARGS] under the first definition of
    [REQUIRED_ARG] in [parse_args]. *)
Fixpoint get_required (ds : list required_arg) (argv : list string)
    (i : Z) (s : state) : flow :=
  match ds with
  | [] => Continue i s
  | d :: ds' =>
      match argv_at argv i with
      | None => Stuck
      | Some token =>
          let '(s', ok) := convert (r_name d) (r_parser d) token s in
          if ok then get_required ds' argv (i + 1) s' else Return0 s'
      end
  end.

(** The expansion of [OPTIONAL_ARGS] in the loop body; [None] when no
    [if] of the expansion was taken. *)
Fixpoint try_optional (ds : list optional_arg) (argc : Z) (argv : list string)
    (token : string) (i : Z) (s : state) : option flow :=
  match ds with
  | [] => None
  | d :: ds' =>
      if strcmp token (o_flag d) =? 0 then
        Some
          (if argc <=? i + 1 then
             Return0 (print_err s (requires_value (o_flag d)))
           else
             match argv_at argv (i + 1) with
             | None => Stuck
             | Some token' =>
                 let '(s', ok) := convert (o_name d) (o_parser d) token' s in
                 if ok then Continue (i + 1) s' else Return0 s'
             end)
      else try_optional ds' argc argv token i s
  end.

(** The expansion of [BOOLEAN_ARGS] in the loop body. *)
Fixpoint try_boolean (ds : list boolean_arg) (token : string)
    (i : Z) (s : state) : option flow :=
  match ds with
  | [] => None
  | d :: ds' =>
      if strcmp token (b_flag d) =? 0 then
        Some (Continue i (assign_true (b_name d) s))
      else try_boolean ds' token i s
  end.

(** One run of the body of the [for] loop, from the value [i] has at its
    start to the value it has when the body is left. *)
Definition loop_body (D : decls) (argc : Z) (argv : list string)
    (i : Z) (s : state) : flow :=
  match argv_at argv i with
  | None => Stuck
  | Some token =>
      match try_optional (OPTIONAL_ARGS D) argc argv token i s with
      | Some f => f
      | None =>
          match try_boolean (BOOLEAN_ARGS D) token i s with
          | Some f => f
          | None =>
              Continue i (print_err s (ignoring token))
          end
      end
  end.

(** [for (...; i < argc; i++)].  The body never lowers [i], so [argc - i]
    iterations are enough; [fuel] bounds them. *)
Fixpoint for_loop (fuel : nat) (D : decls) (argc : Z) (argv : list string)
    (i : Z) (s : state) : outcome :=
  if i <? argc then
    match fuel with
    | O => OutOfFuel
    | S fuel' =>
        match loop_body D argc argv i s with
        | Continue i' s' => for_loop fuel' D argc argv (i' + 1) s'
        | Return0 s' => Return 0 s'
        | Stuck => Undefined
        end
    end
  else Return 1 s.

Definition parse_args (D : decls) (argc : Z) (argv : option (list string))
    (args : args_t) : outcome :=
  match argv with
  | None => Return 0 (State args ["Internal error: null args or argv." +:+ nl] [])
  | Some av =>
      if argc =? 0 then
        Return 0 (State args ["Internal error: null args or argv." +:+ nl] [])
      else if argc <? 1 + REQUIRED_ARG_COUNT D then
        Return 0 (State args ["Not all required arguments included." +:+ nl] [])
      else
        match get_required (REQUIRED_ARGS D) av 1 (State args [] []) with
        | Continue _ s =>
            for_loop (Z.to_nat argc) D argc av (1 + REQUIRED_ARG_COUNT D) s
        | Return0 s => Return 0 s
        | Stuck => Undefined
        end
  end.

(** The call [parse_args(argc, argv, &args)] of a [main] that received
    [argv] from the system: [argc] is the number of tokens. *)
Definition parse (D : decls) (argv : list string) (args : args_t) : outcome :=
  parse_args D (Z.of_nat (length argv)) (Some argv) args.

(** ** The help text *)

(** [strlen] of <string.h>. *)
Definition strlen (s : string) : Z := Z.of_nat (String.length s).

(** Conversion to [int], as [int len = ...] and [(int)strlen(...)] do it:
    a value that does not fit wraps around. *)
Definition to_int `{Abi} (z : Z) : Z :=
  (z + 2 ^ (int_bits - 1)) mod 2 ^ int_bits - 2 ^ (int_bits - 1).

Fixpoint spaces (n : nat) : string :=
  match n with
  | O => EmptyString
  | S n' => String " " (spaces n')
  end.

(** What [printf] writes for [%*s] with the arguments [width] and [str]:
    [str] padded with spaces to [|width|] characters, on the left for a
    positive width and on the right for a negative one. *)
Definition printf_star_s (width : Z) (str : string) : string :=
  let pad := spaces (Z.to_nat (Z.abs width - strlen str)) in
  if width <? 0 then str +:+ pad else pad +:+ str.

(** The conversion of a default value under the descriptor's formatter
    ([%d], [%s], [%.3g], ...) is left to the C library. *)
Class LibcPrintf := {
  printf_value : string -> value -> string
}.

(** The labels, flags and descriptions are pasted into the format strings
    of [print_help] by the preprocessor.  The embedding covers the
    declarations in which they contain no [%], so that [printf] copies
    them as they are. *)
Fixpoint plain (s : string) : bool :=
  match s with
  | EmptyString => true
  | String c s' => negb (code c =? 37) && plain s'
  end.

Definition plain_decls (D : decls) : bool :=
  forallb (fun d => plain (r_label d) && plain (r_description d)) (REQUIRED_ARGS D)
  && forallb (fun d => plain (o_flag d) && plain (o_label d) && plain (o_description d))
       (OPTIONAL_ARGS D)
  && forallb (fun d => plain (b_flag d) && plain (b_description d)) (BOOLEAN_ARGS D).

Definition concat_map {A : Type} (f : A -> string) (l : list A) : string :=
  fold_right (fun d acc => f d +:+ acc) EmptyString l.

Definition ifdef {A B : Type} (l : list A) (out : list B) : list B :=
  match l with [] => [] | _ => out end.

(** The [USAGE] block; one string per call of [printf]. *)
Definition usage_section (D : decls) (exec_alias : string) : list string :=
  ["USAGE:" +:+ nl; "    " +:+ exec_alias +:+ " "]
  ++ ifdef (REQUIRED_ARGS D)
       [if (0 <? REQUIRED_ARG_COUNT D) && (REQUIRED_ARG_COUNT D <=? 3)
        then concat_map (fun d => "<" +:+ r_label d +:+ "> ") (REQUIRED_ARGS D)
        else "<ARGUMENTS> "]
  ++ (if OPTIONAL_ARG_COUNT D + BOOLEAN_ARG_COUNT D <=? 3
      then ifdef (OPTIONAL_ARGS D)
             [concat_map (fun d => "[" +:+ o_flag d +:+ " <" +:+ o_label d +:+ ">" +:+ "] ")
                (OPTIONAL_ARGS D)]
           ++ ifdef (BOOLEAN_ARGS D)
                [concat_map (fun d => "[" +:+ b_flag d +:+ "] ") (BOOLEAN_ARGS D)]
      else ["[OPTIONS]"])
  ++ [nl +:+ nl].

(** The three expansions that compute [max_width]. *)
Definition width_required `{Abi} (max_width : Z) (d : required_arg) : Z :=
  let len := to_int (strlen (r_label d) + 2) in
  if max_width <? len then len else max_width.

Definition width_optional `{Abi} (max_width : Z) (d : optional_arg) : Z :=
  let len := to_int (strlen (o_flag d) + 1 + strlen (o_label d) + 2) in
  if max_width <? len then len else max_width.

Definition width_boolean `{Abi} (max_width : Z) (d : boolean_arg) : Z :=
  let len := to_int (strlen (b_flag d)) in
  if max_width <? len then len else max_width.

Definition max_width `{Abi} (D : decls) : Z :=
  foldl width_boolean
    (foldl width_optional
       (foldl width_required 0 (REQUIRED_ARGS D))
       (OPTIONAL_ARGS D))
    (BOOLEAN_ARGS D).

(** The lines of the reference sections, each one call of [printf]. *)
Definition required_line `{Abi} (w : Z) (d : required_arg) : string :=
  "    <" +:+ r_label d +:+ ">"
  +:+ printf_star_s (w - to_int (strlen (r_label d)) - 2) ""
  +:+ "    " +:+ r_description d +:+ nl.

Definition optional_line `{Abi} `{LibcPrintf} (w : Z) (d : optional_arg) : string :=
  "    " +:+ o_flag d +:+ " <" +:+ o_label d +:+ ">"
  +:+ printf_star_s (w - to_int (strlen (o_label d)) - to_int (strlen (o_flag d)) - 3) ""
  +:+ "    " +:+ o_description d
  +:+ " (default: " +:+ printf_value (o_formatter d) (o_default d) +:+ ")" +:+ nl.

Definition boolean_line `{Abi} (w : Z) (d : boolean_arg) : string :=
  "    " +:+ b_flag d
  +:+ printf_star_s (w - to_int (strlen (b_flag d))) ""
  +:+ "    " +:+ b_description d +:+ nl.

Definition arguments_section `{Abi} (D : decls) : list string :=
  ifdef (REQUIRED_ARGS D)
    (["ARGUMENTS:" +:+ nl]
     ++ map (required_line (max_width D)) (REQUIRED_ARGS D)
     ++ [nl]).

Definition options_section `{Abi} `{LibcPrintf} (D : decls) : list string :=
  match OPTIONAL_ARGS D, BOOLEAN_ARGS D with
  | [], [] => []
  | _, _ =>
      ["OPTIONS:" +:+ nl]
      ++ map (optional_line (max_width D)) (OPTIONAL_ARGS D)
      ++ map (boolean_line (max_width D)) (BOOLEAN_ARGS D)
  end.

(** [print_help]: what the calls of [printf] write on [stdout], in order;
    [None] for declarations outside the embedding. *)
Definition print_help `{Abi} `{LibcPrintf} (D : decls) (exec_alias : string)
    : option (list string) :=
  if plain_decls D
  then Some (usage_section D exec_alias ++ arguments_section D ++ options_section D)
  else None.

(** ** The declaration of the specification's scenarios *)

Definition scenario_decls `{Abi} : decls :=
  Decls [REQUIRED_INT_ARG "count" "count" "How many"]
        [OPTIONAL_STRING_ARG "name" (Some "anon") "--name" "name" "Who"]
        [BOOLEAN_ARG "verbose" "--verbose" "Talk more"].

(** ** Decimal tokens *)

(** The decimal numeral of an integer, as a user types it: the digits
    without leading zeros, after a [-] for a negative number. *)
Definition digit_char (d : Z) : ascii := ascii_of_N (Z.to_N (48 + d)).

Fixpoint digits_of (fuel : nat) (n : Z) (acc : string) : string :=
  match fuel with
  | O => acc
  | S fuel' =>
      let acc' := String (digit_char (n mod 10)) acc in
      if n <? 10 then acc' else digits_of fuel' (n / 10) acc'
  end.

Definition numeral (n : Z) : string :=
  digits_of (S (Z.to_nat (Z.log2 n))) n EmptyString.

Definition decimal (n : Z) : string :=
  if n <? 0 then String "-" (numeral (- n)) else numeral n.

(** ** The loop of [parse_args] as a recursion on the unread tokens *)

Definition find_optional (D : decls) (token : string) : option optional_arg :=
  find (fun d => String.eqb token (o_flag d)) (OPTIONAL_ARGS D).

Definition find_boolean (D : decls) (token : string) : option boolean_arg :=
  find (fun d => String.eqb token (b_flag d)) (BOOLEAN_ARGS D).

(** [walk D tokens s] is the rest of the loop when [tokens] are the
    tokens from [argv[i]] to the last one; [for_loop_walk] below proves
    that the loop computes it. *)
Fixpoint walk (D : decls) (tokens : list string) (s : state) : outcome :=
  match tokens with
  | [] => Return 1 s
  | token :: rest =>
      match find_optional D token with
      | Some d =>
          match rest with
          | [] => Return 0 (print_err s (requires_value (o_flag d)))
          | token' :: rest' =>
              let '(s', ok) := convert (o_name d) (o_parser d) token' s in
              if ok then walk D rest' s' else Return 0 s'
          end
      | None =>
          match find_boolean D token with
          | Some d => walk D rest (assign_true (b_name d) s)
          | None => walk D rest (print_err s (ignoring token))
          end
      end
  end.

(** ** Command lines as sequences of items *)

(** What a user writes after the required arguments: options with their
    values, switches, and tokens that are no declared flag. *)
Inductive item :=
| Opt (flag value : string)
| Flag (flag : string)
| Unknown (token : string).

#[global] Instance item_eq_dec : EqDecision item.
Proof. solve_decision. Defined.

Definition tokens_of (it : item) : list string :=
  match it with
  | Opt flag value => [flag; value]
  | Flag flag => [flag]
  | Unknown token => [token]
  end.

Definition render (items : list item) : list string := flat_map tokens_of items.

Definition optional_flags (D : decls) : list string := o_flag <$> OPTIONAL_ARGS D.
Definition boolean_flags (D : decls) : list string := b_flag <$> BOOLEAN_ARGS D.

Definition item_ok (D : decls) (it : item) : Prop :=
  match it with
  | Opt flag _ => flag ∈ optional_flags D
  | Flag flag => (flag ∉ optional_flags D) /\ (flag ∈ boolean_flags D)
  | Unknown token => (token ∉ optional_flags D) /\ (token ∉ boolean_flags D)
  end.

#[global] Instance item_ok_dec (D : decls) (it : item) : Decision (item_ok D it).
Proof. destruct it; cbn; apply _. Defined.

(** The invariants of a declaration: the flag tokens are pairwise
    distinct, and so are the member names (C rejects a struct with two
    members of one name). *)
Definition flags_distinct (D : decls) : Prop :=
  NoDup (optional_flags D ++ boolean_flags D).

Definition names_distinct (D : decls) : Prop :=
  NoDup ((r_name <$> REQUIRED_ARGS D) ++ (o_name <$> OPTIONAL_ARGS D)
           ++ (b_name <$> BOOLEAN_ARGS D)).

(** The required stage of [parse_args] on the tokens it reads. *)
Fixpoint run_required (ds : list required_arg) (tokens : list string)
    (s : state) : state * bool :=
  match ds, tokens with
  | d :: ds', token :: tokens' =>
      let '(s', ok) := convert (r_name d) (r_parser d) token s in
      if ok then run_required ds' tokens' s' else (s', false)
  | _, _ => (s, true)
  end.

(** The value and the final [*ok] of a conversion. *)
Definition converted (p : converter) (token : string) : value := (p (Some token)).1.1.
Definition converts (p : converter) (token : string) : bool := (p (Some token)).1.2.

(** The values given for [flag], from left to right. *)
Definition supplied (flag : string) (items : list item) : list string :=
  omap (fun it => match it with
                  | Opt flag' value => if decide (flag' = flag) then Some value else None
                  | _ => None
                  end) items.

(** Every option of [items] has a value its parser accepts. *)
Definition values_convert (D : decls) (items : list item) : Prop :=
  forall d flag value,
    d ∈ OPTIONAL_ARGS D -> Opt flag value ∈ items -> o_flag d = flag ->
    converts (o_parser d) value = true.

(** What one item does to the state, and whether the walk goes on. *)
Definition run_item (D : decls) (it : item) (s : state) : state * bool :=
  match it with
  | Opt flag value =>
      match find_optional D flag with
      | Some d => convert (o_name d) (o_parser d) value s
      | None => (s, true)
      end
  | Flag flag =>
      match find_boolean D flag with
      | Some d => (assign_true (b_name d) s, true)
      | None => (s, true)
      end
  | Unknown token => (print_err s (ignoring token), true)
  end.

Fixpoint run_items (D : decls) (items : list item) (s : state) : state * bool :=
  match items with
  | [] => (s, true)
  | it :: items' =>
      let '(s', ok) := run_item D it s in
      if ok then run_items D items' s' else (s', false)
  end.

(** The items that are declared flags. *)
Definition known (it : item) : bool :=
  match it with Unknown _ => false | _ => true end.

(** The flags of the options of a command line. *)
Definition option_flags (items : list item) : list string :=
  omap (fun it => match it with Opt flag _ => Some flag | _ => None end) items.

(** Whether the walk goes on after an item. *)
Definition item_converts (D : decls) (it : item) : bool :=
  match it with
  | Opt flag value =>
      match find_optional D flag with
      | Some d => converts (o_parser d) value
      | None => true
      end
  | _ => true
  end.

(** ** Vocabulary for the statements about the help text *)

(** The width of the left part of a descriptor's line: [<label>] for a
    required argument, [flag <label>] for an optional one, [flag] for a
    boolean one. *)
Definition required_width (d : required_arg) : Z := strlen (r_label d) + 2.
Definition optional_width (d : optional_arg) : Z :=
  strlen (o_flag d) + 1 + strlen (o_label d) + 2.
Definition boolean_width (d : boolean_arg) : Z := strlen (b_flag d).

Definition widths (D : decls) : list Z :=
  (required_width <$> REQUIRED_ARGS D) ++ (optional_width <$> OPTIONAL_ARGS D)
  ++ (boolean_width <$> BOOLEAN_ARGS D).

(** [left] followed by the spaces that bring it to [w] characters. *)
Definition padded (w : Z) (left : string) : string :=
  left +:+ spaces (Z.to_nat (w - strlen left)).

(** ** Vocabulary for the statements about the parsers *)

Definition accepts {A : Type} (p : cstr -> A * bool * list string)
    (token : string) (v : A) : Prop :=
  p (Some token) = (v, true, []).

Definition rejects {A : Type} (p : cstr -> A * bool * list string)
    (token : string) : Prop :=
  (p (Some token)).1.2 = false.

Fixpoint all_space (s : string) : bool :=
  match s with
  | EmptyString => true
  | String c s' => isspace c && all_space s'
  end.

(** The boundary behaviour of a parser of a signed type with the limits
    [lo] and [hi], and of an unsigned type with the limit [hi]. *)
Definition signed_boundaries (p : cstr -> Z * bool * list string) (lo hi : Z) : Prop :=
  accepts p (decimal lo) lo /\ accepts p (decimal hi) hi /\
  rejects p (decimal (lo - 1)) /\ rejects p (decimal (hi + 1)).

Definition unsigned_boundaries (p : cstr -> Z * bool * list string) (hi : Z) : Prop :=
  accepts p (decimal hi) hi /\ rejects p (decimal (hi + 1)) /\
  forall ws rest : string,
    all_space ws = true -> rejects p (ws +:+ String "-" rest).

(** A parser is null safe when, called with the null pointer, it returns
    the zero of its type with [*ok == 0]; it fails cleanly when every call
    returns, either with [*ok == 1] and nothing printed, or with
    [*ok == 0], the zero value and one diagnostic line. *)
Definition null_safe {A : Type} (zero : A) (p : cstr -> A * bool * list string) : Prop :=
  exists line, p None = (zero, false, [line]).

Definition fails_cleanly {A : Type} (zero : A) (p : cstr -> A * bool * list string) : Prop :=
  forall text : cstr,
    (exists v, p text = (v, true, [])) \/ (exists line, p text = (zero, false, [line])).

(** ** Vocabulary for further statements about the integer parsers *)

(** [p] reads the decimal tokens of the integers from [lo] to [hi] back
    to their value and rejects the decimal token of every other integer. *)
Definition reads_decimals (p : cstr -> Z * bool * list string) (lo hi : Z) : Prop :=
  forall n : Z,
    (lo <= n <= hi -> accepts p (decimal n) n) /\
    (~ lo <= n <= hi -> rejects p (decimal n)).

(** [p] treats a decimal token with an explicit plus sign as the token
    without it. *)
Definition reads_plus (p : cstr -> Z * bool * list string) (hi : Z) : Prop :=
  forall n : Z,
    0 <= n ->
    (n <= hi -> accepts p (String "+" (decimal n)) n) /\
    (hi < n -> rejects p (String "+" (decimal n))).

(** [p] rejects a decimal token followed by anything that starts with a
    character other than a decimal digit. *)
Definition rejects_trailing (p : cstr -> Z * bool * list string) : Prop :=
  forall (n : Z) (c : ascii) (rest : string),
    n <> 0 -> digit_in 10 c = None ->
    rejects p (decimal n +:+ String c rest).

(** ** Vocabulary for further statements about [parse_args] *)

(** A parser is quiet when it prints nothing on a token it accepts, and
    explains when it prints something on a token it rejects. *)
Definition quiet (p : converter) : Prop :=
  forall t, converts p t = true -> (p (Some t)).2 = [].

Definition explains (p : converter) : Prop :=
  forall t, converts p t = false -> (p (Some t)).2 <> [].

Definition all_parsers (P : converter -> Prop) (D : decls) : Prop :=
  (forall d, d ∈ REQUIRED_ARGS D -> P (r_parser d)) /\
  (forall d, d ∈ OPTIONAL_ARGS D -> P (o_parser d)).

(** The tokens of a command line that are no declared flag. *)
Definition unknown_tokens (items : list item) : list string :=
  omap (fun it => match it with Unknown token => Some token | _ => None end) items.

(** The names of the members of [args_t]. *)
Definition member_names (D : decls) : list string :=
  (r_name <$> REQUIRED_ARGS D) ++ (o_name <$> OPTIONAL_ARGS D)
  ++ (b_name <$> BOOLEAN_ARGS D).

(** * Properties *)

(** ** Characters and digits *)

Lemma digit_cases (d : Z) :
  0 <= d <= 9 ->
  d = 0 \/ d = 1 \/ d = 2 \/ d = 3 \/ d = 4 \/ d = 5 \/ d = 6 \/ d = 7 \/ d = 8 \/ d = 9.
Proof. lia. Qed.

Ltac each_digit d H :=
  destruct (digit_cases d H) as [->|[->|[->|[->|[->|[->|[->|[->|[->| ->]]]]]]]]].

Lemma code_digit_char (d : Z) : 0 <= d <= 9 -> code (digit_char d) = 48 + d.
Proof. intros Hd. each_digit d Hd; reflexivity. Qed.

Lemma digit_in_digit_char (d : Z) : 0 <= d <= 9 -> digit_in 10 (digit_char d) = Some d.
Proof. intros Hd. each_digit d Hd; reflexivity. Qed.

Lemma isspace_digit_char (d : Z) : 0 <= d <= 9 -> isspace (digit_char d) = false.
Proof. intros Hd. each_digit d Hd; reflexivity. Qed.

(** ** Decimal numerals are read back by the integer scan *)

Lemma scan_digits_of (fuel : nat) :
  forall (n : Z) (acc : string),
    0 <= n < 2 ^ Z.of_nat fuel ->
    scan_digits 10 (digits_of fuel n acc) 0 = scan_digits 10 acc n.
Proof.
  induction fuel as [|fuel IH]; intros n acc Hn.
  - simpl in *. replace n with 0 by lia. reflexivity.
  - cbn [digits_of].
    assert (Hm : 0 <= n mod 10 <= 9) by (pose proof (Z.mod_pos_bound n 10); lia).
    destruct (n <? 10) eqn:Hlt.
    + apply Z.ltb_lt in Hlt. rewrite Z.mod_small by lia.
      cbn [scan_digits]. rewrite digit_in_digit_char by lia. reflexivity.
    + apply Z.ltb_ge in Hlt.
      rewrite IH.
      * cbn [scan_digits]. rewrite digit_in_digit_char by lia.
        f_equal. pose proof (Z.div_mod n 10). lia.
      * rewrite Nat2Z.inj_succ, Z.pow_succ_r in Hn by lia.
        split; [apply Z.div_pos; lia|].
        apply Z.div_lt_upper_bound; lia.
Qed.

Lemma numeral_fuel (n : Z) : 0 <= n -> n < 2 ^ Z.of_nat (S (Z.to_nat (Z.log2 n))).
Proof.
  intros Hn. rewrite Nat2Z.inj_succ, Z2Nat.id by apply Z.log2_nonneg.
  destruct (Z.eq_dec n 0) as [->|Hne]; [reflexivity|].
  apply Z.log2_spec. lia.
Qed.

Lemma scan_numeral (n : Z) : 0 <= n -> scan_digits 10 (numeral n) 0 = (n, EmptyString).
Proof.
  intros Hn. unfold numeral. rewrite scan_digits_of; [reflexivity|].
  split; [lia | apply numeral_fuel; lia].
Qed.

(** The numeral of a positive number starts with a digit other than 0. *)
Lemma digits_of_head (fuel : nat) :
  forall (n : Z) (acc : string),
    0 < n < 2 ^ Z.of_nat fuel ->
    exists d rest, 1 <= d <= 9 /\ digits_of fuel n acc = String (digit_char d) rest.
Proof.
  induction fuel as [|fuel IH]; intros n acc Hn; [simpl in Hn; lia|].
  cbn [digits_of]. destruct (n <? 10) eqn:Hlt.
  - apply Z.ltb_lt in Hlt. exists n, acc. rewrite Z.mod_small by lia.
    split; [lia|reflexivity].
  - apply Z.ltb_ge in Hlt. apply IH.
    rewrite Nat2Z.inj_succ, Z.pow_succ_r in Hn by lia.
    split; [apply Z.div_str_pos; lia | apply Z.div_lt_upper_bound; lia].
Qed.

Lemma numeral_head (n : Z) :
  0 < n -> exists d rest, 1 <= d <= 9 /\ numeral n = String (digit_char d) rest.
Proof.
  intros Hn. apply digits_of_head. split; [lia | apply numeral_fuel; lia].
Qed.

Lemma subject_pos_numeral (neg : bool) (n : Z) :
  0 < n ->
  (let '(base, s2) := detect_base (numeral n) in
   match s2 with
   | String c _ =>
       match digit_in base c with
       | Some _ => let '(m, rest) := scan_digits base s2 0 in Some (neg, m, rest)
       | None => None
       end
   | EmptyString => None
   end) = Some (neg, n, EmptyString).
Proof.
  intros Hn. destruct (numeral_head n Hn) as (d & rest & Hd & Heq).
  assert (Hb : detect_base (numeral n) = (10, numeral n)).
  { rewrite Heq. unfold detect_base.
    rewrite (code_digit_char d) by lia.
    replace (48 + d =? 48) with false by (symmetry; apply Z.eqb_neq; lia).
    destruct rest as [|x [|h s']]; reflexivity. }
  rewrite Hb. rewrite Heq at 1. rewrite digit_in_digit_char by lia.
  rewrite scan_numeral by lia. reflexivity.
Qed.

Lemma skip_space_numeral (n : Z) : 0 < n -> skip_space (numeral n) = numeral n.
Proof.
  intros Hn. destruct (numeral_head n Hn) as (d & rest & Hd & ->).
  cbn [skip_space]. rewrite isspace_digit_char by lia. reflexivity.
Qed.

Lemma read_sign_numeral (n : Z) : 0 < n -> read_sign (numeral n) = (false, numeral n).
Proof.
  intros Hn. destruct (numeral_head n Hn) as (d & rest & Hd & ->).
  unfold read_sign. rewrite code_digit_char by lia.
  replace (48 + d =? 45) with false by (symmetry; apply Z.eqb_neq; lia).
  replace (48 + d =? 43) with false by (symmetry; apply Z.eqb_neq; lia).
  reflexivity.
Qed.

(** The subject sequence of a decimal token is the whole token. *)
Lemma subject_decimal (n : Z) :
  subject (decimal n) = Some (n <? 0, Z.abs n, EmptyString).
Proof.
  unfold decimal. destruct (n <? 0) eqn:Hneg.
  - apply Z.ltb_lt in Hneg. unfold subject.
    change (skip_space (String "-" (numeral (- n)))) with (String "-" (numeral (- n))).
    change (read_sign (String "-" (numeral (- n)))) with (true, numeral (- n)).
    cbv beta iota. rewrite subject_pos_numeral by lia. f_equal. f_equal. f_equal. lia.
  - apply Z.ltb_ge in Hneg. destruct (Z.eq_dec n 0) as [->|Hne]; [reflexivity|].
    unfold subject. rewrite skip_space_numeral, read_sign_numeral by lia.
    cbv beta iota. rewrite subject_pos_numeral by lia. f_equal. f_equal. f_equal. lia.
Qed.

Lemma skip_space_decimal (n : Z) : skip_space (decimal n) = decimal n.
Proof.
  unfold decimal. destruct (n <? 0) eqn:Hneg; [reflexivity|].
  apply Z.ltb_ge in Hneg. destruct (Z.eq_dec n 0) as [->|Hne]; [reflexivity|].
  apply skip_space_numeral. lia.
Qed.

Lemma is_empty_decimal (n : Z) : is_empty (decimal n) = false.
Proof.
  unfold decimal. destruct (n <? 0) eqn:Hneg; [reflexivity|].
  apply Z.ltb_ge in Hneg. destruct (Z.eq_dec n 0) as [->|Hne]; [reflexivity|].
  destruct (numeral_head n) as (d & rest & _ & ->); [lia|reflexivity].
Qed.

Lemma first_is_minus_decimal (n : Z) : first_is 45 (decimal n) = (n <? 0).
Proof.
  unfold decimal. destruct (n <? 0) eqn:Hneg; [reflexivity|].
  apply Z.ltb_ge in Hneg. destruct (Z.eq_dec n 0) as [->|Hne]; [reflexivity|].
  destruct (numeral_head n) as (d & rest & Hd & ->); [lia|].
  unfold first_is. rewrite code_digit_char by lia. apply Z.eqb_neq. lia.
Qed.

(** ** The integer parsers on decimal tokens *)

Section IntegerParsers.
Context `{Abi}.

Lemma limits_facts :
  0 < 2 ^ (int_bits - 1) /\ 2 ^ (int_bits - 1) <= 2 ^ (long_bits - 1) /\
  2 ^ (long_bits - 1) <= 2 ^ (llong_bits - 1) /\
  2 ^ int_bits = 2 * 2 ^ (int_bits - 1) /\
  2 ^ long_bits = 2 * 2 ^ (long_bits - 1) /\
  2 ^ llong_bits = 2 * 2 ^ (llong_bits - 1) /\
  0 < 2 ^ size_bits /\ 2 ^ size_bits <= 2 ^ llong_bits.
Proof.
  pose proof int_bits_min. pose proof int_le_long. pose proof long_le_llong.
  pose proof size_bits_min. pose proof size_le_llong.
  repeat split.
  - apply Z.pow_pos_nonneg; lia.
  - apply Z.pow_le_mono_r; lia.
  - apply Z.pow_le_mono_r; lia.
  - rewrite <- Z.pow_succ_r by lia. f_equal. lia.
  - rewrite <- Z.pow_succ_r by lia. f_equal. lia.
  - rewrite <- Z.pow_succ_r by lia. f_equal. lia.
  - apply Z.pow_pos_nonneg; lia.
  - apply Z.pow_le_mono_r; lia.
Qed.

Lemma to_llong_small (z : Z) : LLONG_MIN <= z <= LLONG_MAX -> to_llong z = z.
Proof.
  intros Hz. unfold to_llong, LLONG_MIN, LLONG_MAX in *.
  pose proof limits_facts as (? & _ & _ & _ & _ & ? & _).
  rewrite Z.mod_small by lia. lia.
Qed.

Lemma signed_parser_decimal (minval maxval : Z) (typename : string) (n : Z) :
  LLONG_MIN <= minval <= LLONG_MAX -> LLONG_MIN <= maxval <= LLONG_MAX ->
  DEFINE_SIGNED_INTEGER_PARSER minval maxval typename (Some (decimal n)) =
  if (LLONG_MIN <=? n) && (n <=? LLONG_MAX) && (minval <=? n) && (n <=? maxval)
  then (n, true, [])
  else (0, false, ["Error: '" +:+ decimal n +:+ "' is out of range for "
                     +:+ typename +:+ "." +:+ nl]).
Proof.
  intros Hminval Hmaxval. unfold DEFINE_SIGNED_INTEGER_PARSER.
  rewrite !to_llong_small by done. clear Hminval Hmaxval.
  rewrite skip_space_decimal. cbv zeta. rewrite is_empty_decimal.
  unfold strtoll. rewrite subject_decimal.
  pose proof limits_facts as (? & ? & ? & ? & ? & ? & ? & ?).
  unfold LLONG_MIN, LLONG_MAX.
  destruct (n <? 0) eqn:Hneg;
    [apply Z.ltb_lt in Hneg | apply Z.ltb_ge in Hneg].
  - replace (- Z.abs n) with n by lia.
    destruct (n <? - 2 ^ (llong_bits - 1)) eqn:Hlo; cbn [is_empty negb orb].
    + apply Z.ltb_lt in Hlo.
      replace (- 2 ^ (llong_bits - 1) <=? n) with false
        by (symmetry; apply Z.leb_gt; lia).
      reflexivity.
    + apply Z.ltb_ge in Hlo.
      replace (- 2 ^ (llong_bits - 1) <=? n) with true
        by (symmetry; apply Z.leb_le; lia).
      replace (n <=? 2 ^ (llong_bits - 1) - 1) with true
        by (symmetry; apply Z.leb_le; lia).
      cbn [andb].
      destruct (n <? minval) eqn:E1, (maxval <? n) eqn:E2;
        rewrite ?Z.ltb_lt, ?Z.ltb_ge in *;
        destruct (minval <=? n) eqn:E3, (n <=? maxval) eqn:E4;
        rewrite ?Z.leb_le, ?Z.leb_gt in *; try lia; reflexivity.
  - replace (Z.abs n) with n by lia.
    destruct (2 ^ (llong_bits - 1) - 1 <? n) eqn:Hhi; cbn [is_empty negb orb].
    + apply Z.ltb_lt in Hhi.
      replace (n <=? 2 ^ (llong_bits - 1) - 1) with false
        by (symmetry; apply Z.leb_gt; lia).
      rewrite andb_false_r. reflexivity.
    + apply Z.ltb_ge in Hhi.
      replace (- 2 ^ (llong_bits - 1) <=? n) with true
        by (symmetry; apply Z.leb_le; lia).
      replace (n <=? 2 ^ (llong_bits - 1) - 1) with true
        by (symmetry; apply Z.leb_le; lia).
      cbn [andb].
      destruct (n <? minval) eqn:E1, (maxval <? n) eqn:E2;
        rewrite ?Z.ltb_lt, ?Z.ltb_ge in *;
        destruct (minval <=? n) eqn:E3, (n <=? maxval) eqn:E4;
        rewrite ?Z.leb_le, ?Z.leb_gt in *; try lia; reflexivity.
Qed.

Lemma unsigned_parser_decimal (maxval : Z) (typename : string) (n : Z) :
  0 <= n -> 0 <= maxval <= ULLONG_MAX ->
  DEFINE_UNSIGNED_INTEGER_PARSER maxval typename (Some (decimal n)) =
  if n <=? maxval
  then (n, true, [])
  else (0, false, ["Error: '" +:+ decimal n +:+ "' is out of range for "
                     +:+ typename +:+ "." +:+ nl]).
Proof.
  intros Hn Hmax. unfold DEFINE_UNSIGNED_INTEGER_PARSER.
  rewrite skip_space_decimal. cbv zeta.
  rewrite is_empty_decimal, first_is_minus_decimal.
  replace (n <? 0) with false by (symmetry; apply Z.ltb_ge; lia).
  unfold strtoull. rewrite subject_decimal.
  replace (n <? 0) with false by (symmetry; apply Z.ltb_ge; lia).
  replace (Z.abs n) with n by lia.
  unfold to_ullong, ULLONG_MAX in *. rewrite (Z.mod_small maxval) by lia.
  destruct (2 ^ llong_bits - 1 <? n) eqn:Hhi; cbn [is_empty negb orb].
  - apply Z.ltb_lt in Hhi.
    replace (n <=? maxval) with false by (symmetry; apply Z.leb_gt; lia).
    reflexivity.
  - destruct (maxval <? n) eqn:E1; rewrite ?Z.ltb_lt, ?Z.ltb_ge in *;
      destruct (n <=? maxval) eqn:E2; rewrite ?Z.leb_le, ?Z.leb_gt in *;
      try lia; reflexivity.
Qed.

Lemma skip_space_minus (ws rest : string) :
  all_space ws = true -> skip_space (ws +:+ String "-" rest) = String "-" rest.
Proof.
  induction ws as [|c ws IH]; intros Hws; [reflexivity|].
  cbn [all_space] in Hws. apply andb_true_iff in Hws as [Hc Hws].
  change (skip_space (String c (ws +:+ String "-" rest)) = String "-" rest).
  cbn [skip_space]. rewrite Hc. auto.
Qed.

Lemma unsigned_parser_minus (maxval : Z) (typename : string) (ws rest : string) :
  all_space ws = true ->
  rejects (DEFINE_UNSIGNED_INTEGER_PARSER maxval typename) (ws +:+ String "-" rest).
Proof.
  intros Hws. unfold rejects, DEFINE_UNSIGNED_INTEGER_PARSER.
  rewrite skip_space_minus by assumption. reflexivity.
Qed.

Lemma signed_parser_boundaries (minval maxval : Z) (typename : string) :
  LLONG_MIN <= minval -> minval <= maxval -> maxval <= LLONG_MAX ->
  signed_boundaries (DEFINE_SIGNED_INTEGER_PARSER minval maxval typename) minval maxval.
Proof.
  intros Hlo Hmid Hhi. unfold signed_boundaries, accepts, rejects.
  rewrite !signed_parser_decimal by lia.
  repeat split.
  - replace (_ && _ && _ && _) with true; [reflexivity|].
    symmetry. rewrite !andb_true_iff, !Z.leb_le. lia.
  - replace (_ && _ && _ && _) with true; [reflexivity|].
    symmetry. rewrite !andb_true_iff, !Z.leb_le. lia.
  - replace (minval <=? minval - 1) with false by (symmetry; apply Z.leb_gt; lia).
    rewrite andb_false_r. reflexivity.
  - replace (maxval + 1 <=? maxval) with false by (symmetry; apply Z.leb_gt; lia).
    rewrite andb_false_r. reflexivity.
Qed.

Lemma unsigned_parser_boundaries (maxval : Z) (typename : string) :
  0 <= maxval <= ULLONG_MAX ->
  unsigned_boundaries (DEFINE_UNSIGNED_INTEGER_PARSER maxval typename) maxval.
Proof.
  intros Hmax. unfold unsigned_boundaries, accepts, rejects.
  rewrite !unsigned_parser_decimal by lia.
  repeat split.
  - rewrite Z.leb_refl. reflexivity.
  - replace (maxval + 1 <=? maxval) with false by (symmetry; apply Z.leb_gt; lia).
    reflexivity.
  - intros ws rest Hws. apply unsigned_parser_minus. assumption.
Qed.

(** C5.  Each signed parser accepts the decimal tokens of its type's
    minimum and maximum and rejects the tokens one below the minimum
    and one above the maximum; each unsigned parser accepts the token
    of its type's maximum, rejects the token one above it, and rejects
    every token whose first character after white space is [-]. *)
Theorem integer_parsers_boundaries :
  signed_boundaries easyargs_parse_int INT_MIN INT_MAX /\
  signed_boundaries easyargs_parse_long LONG_MIN LONG_MAX /\
  signed_boundaries easyargs_parse_llong LLONG_MIN LLONG_MAX /\
  unsigned_boundaries easyargs_parse_uint UINT_MAX /\
  unsigned_boundaries easyargs_parse_ulong ULONG_MAX /\
  unsigned_boundaries easyargs_parse_ullong ULLONG_MAX /\
  unsigned_boundaries easyargs_parse_size_t SIZE_MAX.
Proof.
  pose proof limits_facts as (? & ? & ? & ? & ? & ? & ? & ?).
  repeat split;
    first [ apply signed_parser_boundaries | apply unsigned_parser_boundaries ];
    unfold INT_MIN, INT_MAX, LONG_MIN, LONG_MAX, LLONG_MIN, LLONG_MAX,
      UINT_MAX, ULONG_MAX, ULLONG_MAX, SIZE_MAX; lia.
Qed.
End IntegerParsers.

Lemma integer_parsers_boundaries_witness :
  signed_boundaries (easyargs_parse_int (H := LP64)) (- 2147483648) 2147483647 /\
  rejects (easyargs_parse_uint (H := LP64)) (" " +:+ String "-" "1").
Proof.
  pose proof (integer_parsers_boundaries (H := LP64)) as (Hi & _ & _ & (_ & _ & Hu) & _).
  split; [exact Hi | apply Hu; reflexivity].
Defined.

(** ** The parsers on arbitrary input *)

Section ParsersTotal.
Context `{Abi} `{LibcFloat}.

Lemma parse_str_clean : null_safe None easyargs_parse_str /\ fails_cleanly None easyargs_parse_str.
Proof.
  split; [eexists; reflexivity|].
  intros [s|]; [|right; eexists; reflexivity].
  unfold easyargs_parse_str. destruct (is_empty s); [right|left]; eexists; reflexivity.
Qed.

Lemma parse_char_clean : null_safe NUL easyargs_parse_char /\ fails_cleanly NUL easyargs_parse_char.
Proof.
  split; [eexists; reflexivity|].
  intros [s|]; [|right; eexists; reflexivity].
  unfold easyargs_parse_char. destruct s as [|c [|c' s']];
    [right|left|right]; eexists; reflexivity.
Qed.

Lemma unsigned_parser_clean (maxval : Z) (typename : string) :
  null_safe 0 (DEFINE_UNSIGNED_INTEGER_PARSER maxval typename) /\
  fails_cleanly 0 (DEFINE_UNSIGNED_INTEGER_PARSER maxval typename).
Proof.
  split; [eexists; reflexivity|].
  intros [s|]; [|right; eexists; reflexivity].
  unfold DEFINE_UNSIGNED_INTEGER_PARSER. cbv zeta.
  destruct (is_empty (skip_space s)); [right; eexists; reflexivity|].
  destruct (first_is 45 (skip_space s)); [right; eexists; reflexivity|].
  destruct (strtoull (skip_space s)) as [[val end_] erange].
  destruct (negb (is_empty end_)); [right; eexists; reflexivity|].
  destruct (erange || _); [right|left]; eexists; reflexivity.
Qed.

Lemma signed_parser_clean (minval maxval : Z) (typename : string) :
  null_safe 0 (DEFINE_SIGNED_INTEGER_PARSER minval maxval typename) /\
  fails_cleanly 0 (DEFINE_SIGNED_INTEGER_PARSER minval maxval typename).
Proof.
  split; [eexists; reflexivity|].
  intros [s|]; [|right; eexists; reflexivity].
  unfold DEFINE_SIGNED_INTEGER_PARSER. cbv zeta.
  destruct (is_empty (skip_space s)); [right; eexists; reflexivity|].
  destruct (strtoll (skip_space s)) as [[val end_] erange].
  destruct (negb (is_empty end_)); [right; eexists; reflexivity|].
  destruct (erange || _ || _); [right|left]; eexists; reflexivity.
Qed.

Lemma parse_float_clean :
  null_safe fzero easyargs_parse_float /\ fails_cleanly fzero easyargs_parse_float.
Proof.
  split; [eexists; reflexivity|].
  intros [s|]; [|right; eexists; reflexivity].
  unfold easyargs_parse_float. cbv zeta.
  destruct (is_empty (skip_space s)); [right; eexists; reflexivity|].
  destruct (strtof (skip_space s)) as [[value end_] erange].
  destruct erange; [right; eexists; reflexivity|].
  destruct (negb (is_empty end_)); [right|left]; eexists; reflexivity.
Qed.

Lemma parse_double_clean :
  null_safe fzero easyargs_parse_double /\ fails_cleanly fzero easyargs_parse_double.
Proof.
  split; [eexists; reflexivity|].
  intros [s|]; [|right; eexists; reflexivity].
  unfold easyargs_parse_double. cbv zeta.
  destruct (is_empty (skip_space s)); [right; eexists; reflexivity|].
  destruct (strtod (skip_space s)) as [[value end_] erange].
  destruct erange; [right; eexists; reflexivity|].
  destruct (negb (is_empty end_)); [right|left]; eexists; reflexivity.
Qed.

(** C8.  Every scalar parser, called with the null pointer, leaves
    [*ok] at 0 and returns the zero of its type ([NULL], ['\0'], [0],
    [0.0]) without reading the text; and on every input every parser
    returns: with [*ok == 1], or with [*ok == 0], the zero value and
    one diagnostic line. *)
Theorem parsers_null_safe_and_total :
  (null_safe None easyargs_parse_str /\ fails_cleanly None easyargs_parse_str) /\
  (null_safe NUL easyargs_parse_char /\ fails_cleanly NUL easyargs_parse_char) /\
  (null_safe 0 easyargs_parse_uint /\ fails_cleanly 0 easyargs_parse_uint) /\
  (null_safe 0 easyargs_parse_ulong /\ fails_cleanly 0 easyargs_parse_ulong) /\
  (null_safe 0 easyargs_parse_ullong /\ fails_cleanly 0 easyargs_parse_ullong) /\
  (null_safe 0 easyargs_parse_size_t /\ fails_cleanly 0 easyargs_parse_size_t) /\
  (null_safe 0 easyargs_parse_int /\ fails_cleanly 0 easyargs_parse_int) /\
  (null_safe 0 easyargs_parse_long /\ fails_cleanly 0 easyargs_parse_long) /\
  (null_safe 0 easyargs_parse_llong /\ fails_cleanly 0 easyargs_parse_llong) /\
  (null_safe fzero easyargs_parse_float /\ fails_cleanly fzero easyargs_parse_float) /\
  (null_safe fzero easyargs_parse_double /\ fails_cleanly fzero easyargs_parse_double).
Proof.
  split; [apply parse_str_clean|].
  split; [apply parse_char_clean|].
  do 4 (split; [apply unsigned_parser_clean|]).
  do 3 (split; [apply signed_parser_clean|]).
  split; [apply parse_float_clean | apply parse_double_clean].
Qed.
End ParsersTotal.

(** ** The loop of [parse_args] *)

Lemma strcmp_eqb (a b : string) : (strcmp a b =? 0) = String.eqb a b.
Proof.
  unfold strcmp. destruct (String.eqb a b) eqn:E.
  - apply String.eqb_eq in E as ->.
    pose proof (String.compare_antisym b b) as Hs.
    destruct (String.compare b b); [reflexivity | discriminate | discriminate].
  - apply String.eqb_neq in E.
    destruct (String.compare a b) eqn:C; try reflexivity.
    apply String.compare_eq_iff in C. contradiction.
Qed.

Lemma try_optional_find (ds : list optional_arg) (argc : Z) (argv : list string)
    (token : string) (i : Z) (s : state) :
  try_optional ds argc argv token i s =
  match find (fun d => String.eqb token (o_flag d)) ds with
  | Some d =>
      Some (if argc <=? i + 1 then Return0 (print_err s (requires_value (o_flag d)))
            else match argv_at argv (i + 1) with
                 | None => Stuck
                 | Some token' =>
                     let '(s', ok) := convert (o_name d) (o_parser d) token' s in
                     if ok then Continue (i + 1) s' else Return0 s'
                 end)
  | None => None
  end.
Proof.
  induction ds as [|d ds IH]; [reflexivity|].
  cbn [try_optional find]. rewrite strcmp_eqb.
  destruct (String.eqb token (o_flag d)); [reflexivity | exact IH].
Qed.

Lemma try_boolean_find (ds : list boolean_arg) (token : string) (i : Z) (s : state) :
  try_boolean ds token i s =
  match find (fun d => String.eqb token (b_flag d)) ds with
  | Some d => Some (Continue i (assign_true (b_name d) s))
  | None => None
  end.
Proof.
  induction ds as [|d ds IH]; [reflexivity|].
  cbn [try_boolean find]. rewrite strcmp_eqb.
  destruct (String.eqb token (b_flag d)); [reflexivity | exact IH].
Qed.

Lemma argv_at_drop (argv : list string) (i : Z) :
  0 <= i < Z.of_nat (length argv) ->
  exists token, argv_at argv i = Some token /\
                drop (Z.to_nat i) argv = token :: drop (Z.to_nat (i + 1)) argv.
Proof.
  intros Hi. unfold argv_at.
  replace (i <? 0) with false by (symmetry; apply Z.ltb_ge; lia).
  destruct (argv !! Z.to_nat i) as [token|] eqn:E.
  - exists token. split; [reflexivity|].
    replace (Z.to_nat (i + 1)) with (S (Z.to_nat i)) by lia.
    apply drop_S. exact E.
  - apply lookup_ge_None in E. lia.
Qed.

(** The loop computes [walk] on the tokens from [argv[i]] on, whenever
    [argc] is the number of tokens and the fuel is at least their count. *)
Lemma for_loop_walk (D : decls) (argv : list string) (fuel : nat) :
  forall (i : Z) (s : state),
    0 <= i ->
    Z.of_nat (length argv) - i <= Z.of_nat fuel ->
    for_loop fuel D (Z.of_nat (length argv)) argv i s
    = walk D (drop (Z.to_nat i) argv) s.
Proof.
  induction fuel as [|fuel IH]; intros i s Hi Hfuel.
  - cbn [for_loop].
    replace (i <? Z.of_nat (length argv)) with false by (symmetry; apply Z.ltb_ge; lia).
    rewrite drop_ge by lia. reflexivity.
  - cbn [for_loop]. destruct (i <? Z.of_nat (length argv)) eqn:Hlt.
    2:{ apply Z.ltb_ge in Hlt. rewrite drop_ge by lia. reflexivity. }
    apply Z.ltb_lt in Hlt.
    destruct (argv_at_drop argv i) as (token & Hat & Hdrop); [lia|].
    rewrite Hdrop. unfold loop_body. rewrite Hat.
    rewrite try_optional_find, try_boolean_find. cbn [walk].
    unfold find_optional, find_boolean.
    destruct (find _ (OPTIONAL_ARGS D)) as [d|].
    + destruct (Z.of_nat (length argv) <=? i + 1) eqn:Hlast.
      * apply Z.leb_le in Hlast. rewrite drop_ge by lia. reflexivity.
      * apply Z.leb_gt in Hlast.
        destruct (argv_at_drop argv (i + 1)) as (token' & Hat' & Hdrop'); [lia|].
        rewrite Hat', Hdrop'.
        destruct (convert (o_name d) (o_parser d) token' s) as [s' ok].
        destruct ok; [|reflexivity]. apply IH; lia.
    + destruct (find _ (BOOLEAN_ARGS D)) as [d|]; apply IH; lia.
Qed.

(** ** Looking a token up among the flags *)

Section Find.
Context {A : Type} (key : A -> string).

Lemma find_key_Some (l : list A) (t : string) (d : A) :
  find (fun x => String.eqb t (key x)) l = Some d -> d ∈ l /\ key d = t.
Proof.
  intros Hf. apply find_some in Hf as [Hin Heq].
  apply String.eqb_eq in Heq. split; [by apply list_elem_of_In | done].
Qed.

Lemma find_key_None (l : list A) (t : string) :
  find (fun x => String.eqb t (key x)) l = None <-> t ∉ key <$> l.
Proof.
  induction l as [|x l IH]; cbn [find fmap list_fmap].
  - split; [intros _; apply not_elem_of_nil | done].
  - rewrite not_elem_of_cons. destruct (String.eqb_spec t (key x)) as [->|Hne].
    + split; [done | intros [Hc _]; done].
    + rewrite IH. tauto.
Qed.

Lemma find_key_NoDup (l : list A) (d : A) :
  NoDup (key <$> l) -> d ∈ l ->
  find (fun x => String.eqb (key d) (key x)) l = Some d.
Proof.
  induction l as [|x l IH]; intros Hnd Hin; [by apply elem_of_nil in Hin|].
  cbn [fmap list_fmap] in Hnd. apply NoDup_cons in Hnd as [Hx Hnd].
  cbn [find]. apply elem_of_cons in Hin as [->|Hin].
  - by rewrite String.eqb_refl.
  - destruct (String.eqb_spec (key d) (key x)) as [Heq|Hne]; [|by apply IH].
    exfalso. apply Hx. rewrite <- Heq. apply list_elem_of_fmap. eauto.
Qed.

Lemma key_inj_NoDup (l : list A) (x y : A) :
  NoDup (key <$> l) -> x ∈ l -> y ∈ l -> key x = key y -> x = y.
Proof.
  intros Hnd Hx Hy Heq.
  pose proof (find_key_NoDup l x Hnd Hx) as Fx.
  pose proof (find_key_NoDup l y Hnd Hy) as Fy.
  rewrite Heq in Fx. congruence.
Qed.
End Find.

Lemma find_optional_Some (D : decls) (t : string) (d : optional_arg) :
  find_optional D t = Some d -> d ∈ OPTIONAL_ARGS D /\ o_flag d = t.
Proof. apply find_key_Some. Qed.

Lemma find_optional_None (D : decls) (t : string) :
  find_optional D t = None <-> t ∉ optional_flags D.
Proof. apply find_key_None. Qed.

Lemma find_boolean_Some (D : decls) (t : string) (d : boolean_arg) :
  find_boolean D t = Some d -> d ∈ BOOLEAN_ARGS D /\ b_flag d = t.
Proof. apply find_key_Some. Qed.

Lemma find_boolean_None (D : decls) (t : string) :
  find_boolean D t = None <-> t ∉ boolean_flags D.
Proof. apply find_key_None. Qed.

Lemma flags_distinct_inv (D : decls) :
  flags_distinct D ->
  NoDup (optional_flags D) /\ NoDup (boolean_flags D) /\
  forall f, f ∈ boolean_flags D -> f ∉ optional_flags D.
Proof.
  intros Hd. apply NoDup_app in Hd as (Ho & Hob & Hb).
  split; [done|]. split; [done|]. intros f Hf Hof. by apply (Hob f).
Qed.

Lemma find_optional_flag (D : decls) (d : optional_arg) :
  flags_distinct D -> d ∈ OPTIONAL_ARGS D -> find_optional D (o_flag d) = Some d.
Proof.
  intros Hd Hin. apply flags_distinct_inv in Hd as (Ho & _ & _).
  by apply (find_key_NoDup o_flag).
Qed.

Lemma find_boolean_flag (D : decls) (d : boolean_arg) :
  flags_distinct D -> d ∈ BOOLEAN_ARGS D -> find_boolean D (b_flag d) = Some d.
Proof.
  intros Hd Hin. apply flags_distinct_inv in Hd as (_ & Hb & _).
  by apply (find_key_NoDup b_flag).
Qed.

(** ** From [parse_args] to the items of the command line *)

Lemma get_required_run (argv : list string) (ds : list required_arg) :
  forall (i : Z) (s : state),
    0 <= i ->
    i + Z.of_nat (length ds) <= Z.of_nat (length argv) ->
    get_required ds argv i s =
    let '(s', ok) := run_required ds (drop (Z.to_nat i) argv) s in
    if ok then Continue (i + Z.of_nat (length ds)) s' else Return0 s'.
Proof.
  induction ds as [|d ds IH]; intros i s Hi Hlen.
  - cbn. by rewrite Z.add_0_r.
  - cbn [length] in Hlen. cbn [get_required].
    destruct (argv_at_drop argv i) as (token & -> & ->); [lia|].
    cbn [run_required].
    destruct (convert (r_name d) (r_parser d) token s) as [s' ok].
    destruct ok; [|done]. rewrite IH by lia.
    destruct (run_required ds _ s') as [s'' ok'].
    destruct ok'; [|done]. f_equal. cbn [length]. lia.
Qed.

Lemma run_required_app (ds : list required_arg) :
  forall (tokens rest : list string) (s : state),
    length tokens = length ds ->
    run_required ds (tokens ++ rest) s = run_required ds tokens s.
Proof.
  induction ds as [|d ds IH]; intros tokens rest s Hlen.
  - by destruct tokens.
  - destruct tokens as [|t tokens]; [done|]. cbn [run_required app].
    destruct (convert _ _ t s) as [s' ok]. destruct ok; [|done].
    apply IH. cbn in Hlen. lia.
Qed.

(** A command line with as many tokens after the program name as there
    are required arguments, followed by [rest]: the required stage runs
    on the first, the loop on [rest]. *)
Lemma parse_shape (D : decls) (prog : string) (reqs rest : list string) (args : args_t) :
  length reqs = length (REQUIRED_ARGS D) ->
  parse D (prog :: reqs ++ rest) args =
  let '(s, ok) := run_required (REQUIRED_ARGS D) reqs (State args [] []) in
  if ok then walk D rest s else Return 0 s.
Proof.
  intros Hlen. unfold parse, parse_args, REQUIRED_ARG_COUNT.
  set (argv := prog :: reqs ++ rest).
  assert (Hargv : Z.of_nat (length argv)
                  = 1 + Z.of_nat (length (REQUIRED_ARGS D)) + Z.of_nat (length rest)).
  { unfold argv. cbn [length]. rewrite length_app. lia. }
  replace (Z.of_nat (length argv) =? 0) with false by (symmetry; apply Z.eqb_neq; lia).
  replace (Z.of_nat (length argv) <? 1 + Z.of_nat (length (REQUIRED_ARGS D)))
    with false by (symmetry; apply Z.ltb_ge; lia).
  rewrite get_required_run by lia.
  change (drop (Z.to_nat 1) argv) with (reqs ++ rest).
  rewrite run_required_app by done.
  destruct (run_required _ reqs _) as [s ok]. destruct ok; [|done].
  rewrite for_loop_walk by lia. f_equal.
  replace (Z.to_nat (1 + Z.of_nat (length (REQUIRED_ARGS D))))
    with (S (length reqs)) by lia.
  unfold argv. cbn [drop]. by rewrite drop_app_length.
Qed.

Lemma walk_render (D : decls) (items : list item) :
  forall (rest : list string) (s : state),
    Forall (item_ok D) items ->
    walk D (render items ++ rest) s =
    let '(s', ok) := run_items D items s in
    if ok then walk D rest s' else Return 0 s'.
Proof.
  induction items as [|it items IH]; intros rest s Hok; [done|].
  apply Forall_cons in Hok as [Hit Hok].
  unfold render in *. cbn [flat_map run_items]. rewrite <- app_assoc.
  destruct it as [flag value|flag|token]; cbn [tokens_of app walk run_item item_ok] in *.
  - destruct (find_optional D flag) as [d|] eqn:Hf.
    2:{ apply find_optional_None in Hf. done. }
    destruct (convert (o_name d) (o_parser d) value s) as [s' ok].
    destruct ok; [by apply IH | done].
  - destruct Hit as [Hno Hb]. apply find_optional_None in Hno as ->.
    destruct (find_boolean D flag) as [d|] eqn:Hf.
    2:{ apply find_boolean_None in Hf. done. }
    by apply IH.
  - destruct Hit as [Hno Hnb].
    apply find_optional_None in Hno as ->. apply find_boolean_None in Hnb as ->.
    by apply IH.
Qed.

(** ** The state after the required stage and after the items *)

Lemma convert_eq (name : string) (p : converter) (token : string) (s : state) :
  convert name p token s =
  (State (<[name := converted p token]> (st_args s))
         (st_err s ++ (p (Some token)).2)
         (st_calls s ++ [(name, token)]),
   converts p token).
Proof.
  unfold convert, converted, converts. by destruct (p (Some token)) as [[v ok] e].
Qed.

Lemma names_distinct_inv (D : decls) :
  names_distinct D ->
  NoDup (r_name <$> REQUIRED_ARGS D) /\
  NoDup (o_name <$> OPTIONAL_ARGS D) /\
  NoDup (b_name <$> BOOLEAN_ARGS D) /\
  (forall n, n ∈ r_name <$> REQUIRED_ARGS D -> n ∉ o_name <$> OPTIONAL_ARGS D) /\
  (forall n, n ∈ r_name <$> REQUIRED_ARGS D -> n ∉ b_name <$> BOOLEAN_ARGS D) /\
  (forall n, n ∈ o_name <$> OPTIONAL_ARGS D -> n ∉ b_name <$> BOOLEAN_ARGS D).
Proof.
  intros Hd. apply NoDup_app in Hd as (Hr & Hrob & Hob).
  apply NoDup_app in Hob as (Ho & Hob & Hb).
  repeat split; try done.
  - intros n Hn Ho'. apply (Hrob n Hn). apply elem_of_app. by left.
  - intros n Hn Hb'. apply (Hrob n Hn). apply elem_of_app. by right.
Qed.

Lemma run_required_ok (ds : list required_arg) :
  forall (reqs : list string) (s : state),
    Forall2 (fun d t => converts (r_parser d) t = true) ds reqs ->
    (run_required ds reqs s).2 = true.
Proof.
  induction ds as [|d ds IH]; intros reqs s Hall; [done|].
  destruct reqs as [|t reqs]; [done|].
  apply Forall2_cons in Hall as [Ht Hall].
  cbn [run_required]. rewrite convert_eq, Ht. by apply IH.
Qed.

Lemma run_required_other (ds : list required_arg) :
  forall (reqs : list string) (s : state) (n : string),
    n ∉ r_name <$> ds ->
    st_args (run_required ds reqs s).1 !! n = st_args s !! n.
Proof.
  induction ds as [|d ds IH]; intros reqs s n Hn; [done|].
  destruct reqs as [|t reqs]; [done|].
  cbn [fmap list_fmap] in Hn. apply not_elem_of_cons in Hn as [Hne Hn].
  cbn [run_required]. rewrite convert_eq.
  destruct (converts (r_parser d) t).
  - rewrite IH by done. cbn. by rewrite lookup_insert_ne.
  - cbn. by rewrite lookup_insert_ne.
Qed.

Lemma run_required_lookup (ds : list required_arg) :
  forall (reqs : list string) (s : state) (k : nat) (d : required_arg) (t : string),
    NoDup (r_name <$> ds) ->
    Forall2 (fun d t => converts (r_parser d) t = true) ds reqs ->
    ds !! k = Some d -> reqs !! k = Some t ->
    st_args (run_required ds reqs s).1 !! r_name d = Some (converted (r_parser d) t).
Proof.
  induction ds as [|d0 ds IH]; intros reqs s k d t Hnd Hall Hd Ht; [done|].
  destruct reqs as [|t0 reqs]; [done|].
  apply Forall2_cons in Hall as [Ht0 Hall].
  cbn [fmap list_fmap] in Hnd. apply NoDup_cons in Hnd as [Hd0 Hnd].
  cbn [run_required]. rewrite convert_eq, Ht0.
  destruct k as [|k]; cbn in Hd, Ht.
  - injection Hd as ->. injection Ht as ->.
    rewrite run_required_other by done. cbn. by rewrite lookup_insert_eq.
  - by apply (IH reqs _ k).
Qed.

Lemma run_required_calls (ds : list required_arg) :
  forall (reqs : list string) (s : state) (n t : string),
    (n, t) ∈ st_calls (run_required ds reqs s).1 ->
    (n, t) ∈ st_calls s \/ n ∈ r_name <$> ds.
Proof.
  induction ds as [|d ds IH]; intros reqs s n t Hin; [by left|].
  destruct reqs as [|t0 reqs]; [by left|].
  cbn [run_required] in Hin. rewrite convert_eq in Hin.
  cbn [fmap list_fmap]. setoid_rewrite elem_of_cons.
  destruct (converts (r_parser d) t0).
  - apply IH in Hin as [Hin|Hin]; [|by right; right].
    cbn in Hin. apply elem_of_app in Hin as [Hin|Hin]; [by left|].
    apply list_elem_of_singleton in Hin. injection Hin as -> ->. right. by left.
  - cbn in Hin. apply elem_of_app in Hin as [Hin|Hin]; [by left|].
    apply list_elem_of_singleton in Hin. injection Hin as -> ->. right. by left.
Qed.

Section RunItems.
Context (D : decls).

Lemma run_items_cons (it : item) (items : list item) (s : state) :
  run_items D (it :: items) s =
  if (run_item D it s).2 then run_items D items (run_item D it s).1
  else ((run_item D it s).1, false).
Proof. cbn [run_items]. by destruct (run_item D it s) as [s' []]. Qed.

Lemma run_items_app (items1 items2 : list item) (s : state) :
  run_items D (items1 ++ items2) s =
  if (run_items D items1 s).2 then run_items D items2 (run_items D items1 s).1
  else ((run_items D items1 s).1, false).
Proof.
  revert s. induction items1 as [|it items1 IH]; intros s; [done|].
  cbn [app]. rewrite !run_items_cons.
  destruct (run_item D it s) as [s' []]; cbn [fst snd]; [apply IH | done].
Qed.

(** What one item does to a member of the struct. *)
Lemma run_item_args (it : item) (s : state) (n : string) :
  st_args (run_item D it s).1 !! n =
  match it with
  | Opt flag value =>
      match find_optional D flag with
      | Some d => if decide (o_name d = n)
                  then Some (converted (o_parser d) value) else st_args s !! n
      | None => st_args s !! n
      end
  | Flag flag =>
      match find_boolean D flag with
      | Some d => if decide (b_name d = n) then Some (VBool true) else st_args s !! n
      | None => st_args s !! n
      end
  | Unknown _ => st_args s !! n
  end.
Proof.
  destruct it as [flag value|flag|token]; cbn [run_item].
  - destruct (find_optional D flag) as [d|]; [|done].
    rewrite convert_eq. cbn. by rewrite lookup_insert.
  - destruct (find_boolean D flag) as [d|]; [|done].
    cbn. by rewrite lookup_insert.
  - done.
Qed.

Lemma run_items_other (items : list item) :
  forall (s : state) (n : string),
    n ∉ o_name <$> OPTIONAL_ARGS D -> n ∉ b_name <$> BOOLEAN_ARGS D ->
    st_args (run_items D items s).1 !! n = st_args s !! n.
Proof.
  induction items as [|it items IH]; intros s n Ho Hb; [done|].
  rewrite run_items_cons.
  assert (Hstep : st_args (run_item D it s).1 !! n = st_args s !! n).
  { rewrite run_item_args. destruct it as [flag value|flag|token]; [| |done].
    - destruct (find_optional D flag) as [d|] eqn:Hf; [|done].
      apply find_optional_Some in Hf as [Hin _].
      case_decide as Hn; [|done]. exfalso. apply Ho. rewrite <- Hn.
      apply list_elem_of_fmap. eauto.
    - destruct (find_boolean D flag) as [d|] eqn:Hf; [|done].
      apply find_boolean_Some in Hf as [Hin _].
      case_decide as Hn; [|done]. exfalso. apply Hb. rewrite <- Hn.
      apply list_elem_of_fmap. eauto. }
  destruct (run_item D it s).2; [by rewrite IH | done].
Qed.

Context (Hflags : flags_distinct D) (Hnames : names_distinct D).

Lemma optional_boolean_names (d : optional_arg) (b : boolean_arg) :
  d ∈ OPTIONAL_ARGS D -> b ∈ BOOLEAN_ARGS D -> o_name d <> b_name b.
Proof.
  intros Hd Hb Heq.
  destruct (names_distinct_inv D Hnames) as (_ & _ & _ & _ & _ & Hob).
  apply (Hob (o_name d)); [apply list_elem_of_fmap; eauto|].
  rewrite Heq. apply list_elem_of_fmap. eauto.
Qed.

Lemma run_items_optional (items : list item) :
  forall (s : state) (d : optional_arg),
    (run_items D items s).2 = true ->
    d ∈ OPTIONAL_ARGS D ->
    st_args (run_items D items s).1 !! o_name d =
    match last (supplied (o_flag d) items) with
    | Some v => Some (converted (o_parser d) v)
    | None => st_args s !! o_name d
    end.
Proof.
  induction items as [|it items IH]; intros s d Hok Hd; [done|].
  rewrite run_items_cons in Hok |- *.
  destruct (run_item D it s).2 eqn:Hit; [|done].
  rewrite IH by done. unfold supplied. cbn [omap list_omap].
  rewrite run_item_args.
  destruct (names_distinct_inv D Hnames) as (_ & Ho & _).
  destruct (flags_distinct_inv D Hflags) as (Hof & _ & _).
  destruct it as [flag value|flag|token].
  - case_decide as Hflag.
    + subst flag. rewrite find_optional_flag by done.
      rewrite decide_True by done. rewrite last_cons.
      fold (supplied (o_flag d) items).
      by destruct (last (supplied (o_flag d) items)).
    + fold (supplied (o_flag d) items).
      destruct (last (supplied (o_flag d) items)); [done|].
      destruct (find_optional D flag) as [d'|] eqn:Hf; [|done].
      apply find_optional_Some in Hf as [Hin' Hfl'].
      case_decide as Hn; [|done]. exfalso. apply Hflag.
      rewrite <- Hfl'. f_equal. by apply (key_inj_NoDup o_name (OPTIONAL_ARGS D)).
  - fold (supplied (o_flag d) items).
    destruct (last (supplied (o_flag d) items)); [done|].
    destruct (find_boolean D flag) as [b|] eqn:Hf; [|done].
    apply find_boolean_Some in Hf as [Hin' _].
    case_decide as Hn; [|done]. exfalso.
    by apply (optional_boolean_names d b).
  - done.
Qed.

Lemma run_items_boolean (items : list item) :
  forall (s : state) (b : boolean_arg),
    (run_items D items s).2 = true ->
    b ∈ BOOLEAN_ARGS D ->
    st_args (run_items D items s).1 !! b_name b =
    if bool_decide (Flag (b_flag b) ∈ items) then Some (VBool true)
    else st_args s !! b_name b.
Proof.
  induction items as [|it items IH]; intros s b Hok Hb; [done|].
  rewrite run_items_cons in Hok |- *.
  destruct (run_item D it s).2 eqn:Hit; [|done].
  rewrite IH by done.
  destruct (names_distinct_inv D Hnames) as (_ & _ & Hbn & _).
  destruct (flags_distinct_inv D Hflags) as (_ & Hbf & _).
  destruct (decide (Flag (b_flag b) ∈ items)) as [Hin|Hnin].
  { rewrite !bool_decide_eq_true_2; [done| |done]. apply elem_of_cons. by right. }
  rewrite (bool_decide_eq_false_2 _ Hnin). rewrite run_item_args.
  destruct it as [flag value|flag|token].
  - rewrite bool_decide_eq_false_2.
    2:{ intros Hc. apply elem_of_cons in Hc as [Hc|Hc]; done. }
    destruct (find_optional D flag) as [d|] eqn:Hf; [|done].
    apply find_optional_Some in Hf as [Hin' _].
    case_decide as Hn; [|done]. exfalso.
    by apply (optional_boolean_names d b).
  - destruct (decide (flag = b_flag b)) as [->|Hne].
    + rewrite bool_decide_eq_true_2 by (apply elem_of_cons; by left).
      rewrite find_boolean_flag by done. by rewrite decide_True.
    + rewrite bool_decide_eq_false_2.
      2:{ intros Hc. apply elem_of_cons in Hc as [Hc|Hc]; [congruence|done]. }
      destruct (find_boolean D flag) as [b'|] eqn:Hf; [|done].
      apply find_boolean_Some in Hf as [Hin' Hfl'].
      case_decide as Hn; [|done]. exfalso. apply Hne.
      rewrite <- Hfl'. f_equal. by apply (key_inj_NoDup b_name (BOOLEAN_ARGS D)).
  - rewrite bool_decide_eq_false_2; [done|].
    intros Hc. apply elem_of_cons in Hc as [Hc|Hc]; done.
Qed.
End RunItems.

Section RunItemsMore.
Context (D : decls).

Lemma run_items_ok (items : list item) :
  forall s : state, values_convert D items -> (run_items D items s).2 = true.
Proof.
  induction items as [|it items IH]; intros s Hv; [done|].
  rewrite run_items_cons.
  assert (Hit : (run_item D it s).2 = true).
  { destruct it as [flag value|flag|token]; cbn [run_item]; [| |done].
    - destruct (find_optional D flag) as [d|] eqn:Hf; [|done].
      apply find_optional_Some in Hf as [Hin Hfl].
      rewrite convert_eq. cbn. apply (Hv d flag value); [done| |done].
      apply elem_of_cons. by left.
    - by destruct (find_boolean D flag). }
  rewrite Hit. apply IH. intros d flag value Hd Hin Hfl.
  apply (Hv d flag value); [done| |done]. apply elem_of_cons. by right.
Qed.

Lemma run_items_fail (items : list item) :
  forall (s : state) (d : optional_arg) (value : string),
    flags_distinct D -> d ∈ OPTIONAL_ARGS D ->
    Opt (o_flag d) value ∈ items ->
    converts (o_parser d) value = false ->
    (run_items D items s).2 = false.
Proof.
  induction items as [|it items IH]; intros s d value Hfl Hd Hin Hc;
    [by apply elem_of_nil in Hin|].
  rewrite run_items_cons.
  destruct (run_item D it s).2 eqn:Hit; [|done].
  apply elem_of_cons in Hin as [<-|Hin]; [|by apply (IH _ d value)].
  cbn [run_item] in Hit. rewrite find_optional_flag in Hit by done.
  rewrite convert_eq in Hit. cbn in Hit. congruence.
Qed.

(** The calls of the parsers made for one item. *)
Lemma run_item_calls (it : item) (s : state) :
  st_calls (run_item D it s).1 =
  st_calls s ++
  match it with
  | Opt flag value =>
      match find_optional D flag with
      | Some d => [(o_name d, value)]
      | None => []
      end
  | _ => []
  end.
Proof.
  destruct it as [flag value|flag|token]; cbn [run_item].
  - destruct (find_optional D flag) as [d|]; [|by rewrite app_nil_r].
    by rewrite convert_eq.
  - destruct (find_boolean D flag); by rewrite app_nil_r.
  - by rewrite app_nil_r.
Qed.

Lemma run_items_calls (items : list item) :
  forall (s : state) (d : optional_arg),
    flags_distinct D -> names_distinct D ->
    (run_items D items s).2 = true ->
    d ∈ OPTIONAL_ARGS D ->
    filter (fun c => c.1 = o_name d) (st_calls (run_items D items s).1) =
    filter (fun c => c.1 = o_name d) (st_calls s)
    ++ ((fun v => (o_name d, v)) <$> supplied (o_flag d) items).
Proof.
  induction items as [|it items IH]; intros s d Hfl Hnm Hok Hd;
    [by rewrite app_nil_r|].
  rewrite run_items_cons in Hok |- *.
  destruct (run_item D it s).2 eqn:Hit; [|done].
  rewrite IH by done. rewrite run_item_calls, filter_app, <- app_assoc. f_equal.
  unfold supplied. cbn [omap list_omap].
  destruct (names_distinct_inv D Hnm) as (_ & Ho & _).
  destruct it as [flag value|flag|token]; [|done|done].
  case_decide as Hflag.
  - subst flag. rewrite find_optional_flag by done.
    rewrite filter_cons_True by done. done.
  - destruct (find_optional D flag) as [d'|] eqn:Hf; [|done].
    apply find_optional_Some in Hf as [Hin' Hfl'].
    rewrite filter_cons_False; [done|]. cbn. intros Hn. apply Hflag.
    rewrite <- Hfl'. f_equal. by apply (key_inj_NoDup o_name (OPTIONAL_ARGS D)).
Qed.

(** The lines printed while the items are processed. *)
Lemma run_item_err (it : item) (s : state) :
  exists lines, st_err (run_item D it s).1 = st_err s ++ lines /\
                forall token, it = Unknown token -> lines = [ignoring token].
Proof.
  destruct it as [flag value|flag|token]; cbn [run_item].
  - destruct (find_optional D flag) as [d|].
    + rewrite convert_eq. eexists. split; [done|]. intros ? [=].
    + exists []. rewrite app_nil_r. split; [done|]. intros ? [=].
  - exists []. rewrite app_nil_r. split; [by destruct (find_boolean D flag)|].
    intros ? [=].
  - eexists. split; [done|]. by intros ? [= ->].
Qed.

Lemma run_items_err_mono (items : list item) :
  forall (s : state) (line : string),
    line ∈ st_err s -> line ∈ st_err (run_items D items s).1.
Proof.
  induction items as [|it items IH]; intros s line Hin; [done|].
  rewrite run_items_cons.
  destruct (run_item_err it s) as (lines & Herr & _).
  assert (line ∈ st_err (run_item D it s).1).
  { rewrite Herr. apply elem_of_app. by left. }
  destruct (run_item D it s).2; [by apply IH | done].
Qed.

Lemma run_items_warned (items : list item) :
  forall (s : state) (token : string),
    (run_items D items s).2 = true ->
    Unknown token ∈ items ->
    ignoring token ∈ st_err (run_items D items s).1.
Proof.
  induction items as [|it items IH]; intros s token Hok Hin;
    [by apply elem_of_nil in Hin|].
  rewrite run_items_cons in Hok |- *.
  destruct (run_item D it s).2 eqn:Hit; [|done].
  apply elem_of_cons in Hin as [<-|Hin]; [|by apply IH].
  apply run_items_err_mono. cbn. apply elem_of_app. right.
  by apply list_elem_of_singleton.
Qed.

(** Tokens that are no flag change neither the struct, nor the calls of
    the parsers, nor the success of the walk. *)
Lemma run_items_known (items : list item) :
  forall s1 s2 : state,
    st_args s1 = st_args s2 -> st_calls s1 = st_calls s2 ->
    (run_items D items s1).2 = (run_items D (filter known items) s2).2 /\
    st_args (run_items D items s1).1 = st_args (run_items D (filter known items) s2).1 /\
    st_calls (run_items D items s1).1 = st_calls (run_items D (filter known items) s2).1.
Proof.
  induction items as [|it items IH]; intros s1 s2 Ha Hc; [done|].
  destruct it as [flag value|flag|token].
  - rewrite filter_cons_True by done. rewrite !run_items_cons. cbn [run_item].
    destruct (find_optional D flag) as [d|]; [|by apply IH].
    rewrite !convert_eq. cbn [fst snd]. rewrite Ha, Hc.
    destruct (converts (o_parser d) value); [apply IH; cbn; congruence | done].
  - rewrite filter_cons_True by done. rewrite !run_items_cons. cbn [run_item].
    destruct (find_boolean D flag) as [d|]; cbn [fst snd]; apply IH; cbn; congruence.
  - rewrite filter_cons_False by (cbn; auto). rewrite run_items_cons.
    cbn [run_item fst snd]. by apply IH.
Qed.
End RunItemsMore.

(** ** The default struct *)

Section FoldInsert.
Context {A : Type} (key : A -> string) (val : A -> value).

Lemma foldl_insert_other (l : list A) :
  forall (m : args_t) (n : string),
    n ∉ key <$> l ->
    foldl (fun m d => <[key d := val d]> m) m l !! n = m !! n.
Proof.
  induction l as [|x l IH]; intros m n Hn; [done|].
  cbn [fmap list_fmap] in Hn. apply not_elem_of_cons in Hn as [Hne Hn].
  cbn [foldl]. rewrite IH by done. by rewrite lookup_insert_ne.
Qed.

Lemma foldl_insert_member (l : list A) :
  forall (m : args_t) (d : A),
    NoDup (key <$> l) -> d ∈ l ->
    foldl (fun m d => <[key d := val d]> m) m l !! key d = Some (val d).
Proof.
  induction l as [|x l IH]; intros m d Hnd Hin; [by apply elem_of_nil in Hin|].
  cbn [fmap list_fmap] in Hnd. apply NoDup_cons in Hnd as [Hx Hnd].
  cbn [foldl]. apply elem_of_cons in Hin as [->|Hin]; [|by apply IH].
  rewrite foldl_insert_other by done. by rewrite lookup_insert_eq.
Qed.
End FoldInsert.

Section Defaults.
Context (D : decls) (Hnames : names_distinct D).

Lemma default_required (d : required_arg) :
  d ∈ REQUIRED_ARGS D -> make_default_args D !! r_name d = Some (zero_of (r_type d)).
Proof.
  intros Hd. destruct (names_distinct_inv D Hnames) as (Hr & _ & _ & Hro & Hrb & _).
  assert (Hn : r_name d ∈ r_name <$> REQUIRED_ARGS D) by (apply list_elem_of_fmap; eauto).
  unfold make_default_args, init_boolean, init_optional, init_required.
  rewrite (foldl_insert_other b_name (fun _ => VBool false)) by auto.
  rewrite (foldl_insert_other o_name o_default) by auto.
  by apply (foldl_insert_member r_name (fun d => zero_of (r_type d))).
Qed.

Lemma default_optional (d : optional_arg) :
  d ∈ OPTIONAL_ARGS D -> make_default_args D !! o_name d = Some (o_default d).
Proof.
  intros Hd. destruct (names_distinct_inv D Hnames) as (_ & Ho & _ & _ & _ & Hob).
  assert (Hn : o_name d ∈ o_name <$> OPTIONAL_ARGS D) by (apply list_elem_of_fmap; eauto).
  unfold make_default_args, init_boolean, init_optional.
  rewrite (foldl_insert_other b_name (fun _ => VBool false)) by auto.
  by apply (foldl_insert_member o_name o_default).
Qed.

Lemma default_boolean (d : boolean_arg) :
  d ∈ BOOLEAN_ARGS D -> make_default_args D !! b_name d = Some (VBool false).
Proof.
  intros Hd. destruct (names_distinct_inv D Hnames) as (_ & _ & Hb & _).
  unfold make_default_args, init_boolean.
  by apply (foldl_insert_member b_name (fun _ => VBool false)).
Qed.
End Defaults.

Lemma default_no_member (D : decls) (n : string) :
  n ∉ r_name <$> REQUIRED_ARGS D -> n ∉ o_name <$> OPTIONAL_ARGS D ->
  n ∉ b_name <$> BOOLEAN_ARGS D ->
  make_default_args D !! n = None.
Proof.
  intros Hr Ho Hb.
  unfold make_default_args, init_boolean, init_optional, init_required.
  rewrite (foldl_insert_other b_name (fun _ => VBool false)) by done.
  rewrite (foldl_insert_other o_name o_default) by done.
  by rewrite (foldl_insert_other r_name (fun d => zero_of (r_type d))).
Qed.

(** C6.  [make_default_args] has no failing path: it returns a struct in
    which every required member holds the zero of its declared type (the
    null pointer for [char*], the NUL character for [char], 0 for the
    integer types, 0.0 for [float] and [double]), every optional member
    its declared default and every boolean member false, and which has
    no other member.  These members determine the struct: a struct with
    them is the one [make_default_args] returns, so two calls return
    structs that agree on every member. *)
Theorem make_default_args_members (D : decls) :
  names_distinct D ->
  (forall d, d ∈ REQUIRED_ARGS D ->
             make_default_args D !! r_name d = Some (zero_of (r_type d))) /\
  (forall d, d ∈ REQUIRED_ARGS D ->
             make_default_args D !! r_name d
             = Some (match r_type d with
                     | TString => VStr None
                     | TChar => VChar (ascii_of_N 0)
                     | TInt | TUInt | TLong | TULong | TLLong | TULLong | TSize => VInt 0
                     | TFloat | TDouble => VFloat (S754_zero false)
                     end)) /\
  (forall d, d ∈ OPTIONAL_ARGS D ->
             make_default_args D !! o_name d = Some (o_default d)) /\
  (forall d, d ∈ BOOLEAN_ARGS D ->
             make_default_args D !! b_name d = Some (VBool false)) /\
  (forall n, n ∉ r_name <$> REQUIRED_ARGS D -> n ∉ o_name <$> OPTIONAL_ARGS D ->
             n ∉ b_name <$> BOOLEAN_ARGS D -> make_default_args D !! n = None) /\
  (forall first second : args_t,
      first = make_default_args D -> second = make_default_args D ->
      forall n, first !! n = second !! n) /\
  (forall m : args_t,
      (forall d, d ∈ REQUIRED_ARGS D -> m !! r_name d = Some (zero_of (r_type d))) ->
      (forall d, d ∈ OPTIONAL_ARGS D -> m !! o_name d = Some (o_default d)) ->
      (forall d, d ∈ BOOLEAN_ARGS D -> m !! b_name d = Some (VBool false)) ->
      (forall n, n ∉ r_name <$> REQUIRED_ARGS D -> n ∉ o_name <$> OPTIONAL_ARGS D ->
                 n ∉ b_name <$> BOOLEAN_ARGS D -> m !! n = None) ->
      m = make_default_args D).
Proof.
  intros Hnames. split; [by apply default_required|].
  split.
  { intros d Hd. rewrite default_required by done. by destruct (r_type d). }
  split; [by apply default_optional|].
  split; [by apply default_boolean|].
  split; [apply default_no_member|].
  split; [by intros first second -> ->|].
  intros m Hr Ho Hb Hnone. apply map_eq. intros n.
  destruct (decide (n ∈ r_name <$> REQUIRED_ARGS D)) as [Hnr|Hnr].
  { apply list_elem_of_fmap in Hnr as (d & -> & Hd).
    by rewrite Hr, default_required. }
  destruct (decide (n ∈ o_name <$> OPTIONAL_ARGS D)) as [Hno|Hno].
  { apply list_elem_of_fmap in Hno as (d & -> & Hd).
    by rewrite Ho, default_optional. }
  destruct (decide (n ∈ b_name <$> BOOLEAN_ARGS D)) as [Hnb|Hnb].
  { apply list_elem_of_fmap in Hnb as (d & -> & Hd).
    by rewrite Hb, default_boolean. }
  by rewrite Hnone, default_no_member.
Qed.

Lemma scenario_names_distinct : names_distinct (scenario_decls (H := LP64)).
Proof. unfold names_distinct. apply (bool_decide_unpack _). by vm_compute. Qed.

Lemma scenario_flags_distinct : flags_distinct (scenario_decls (H := LP64)).
Proof. unfold flags_distinct. apply (bool_decide_unpack _). by vm_compute. Qed.

Lemma make_default_args_members_witness :
  names_distinct
    (Decls [REQUIRED_STRING_ARG "path" "path" "File to read";
            REQUIRED_CHAR_ARG "sep" "sep" "Separator";
            REQUIRED_ULONG_ARG (H := LP64) "rows" "rows" "Rows to read"]
           [OPTIONAL_INT_ARG (H := LP64) "skip" 2 "--skip" "n" "Rows to skip"]
           [BOOLEAN_ARG "quiet" "--quiet" "Print less"]) /\
  (forall args : args_t,
      args = make_default_args
               (Decls [REQUIRED_STRING_ARG "path" "path" "File to read";
                       REQUIRED_CHAR_ARG "sep" "sep" "Separator";
                       REQUIRED_ULONG_ARG (H := LP64) "rows" "rows" "Rows to read"]
                      [OPTIONAL_INT_ARG (H := LP64) "skip" 2 "--skip" "n" "Rows to skip"]
                      [BOOLEAN_ARG "quiet" "--quiet" "Print less"]) ->
      args !! "path" = Some (VStr None) /\
      args !! "sep" = Some (VChar (ascii_of_N 0)) /\
      args !! "rows" = Some (VInt 0) /\
      args !! "skip" = Some (VInt 2) /\
      args !! "quiet" = Some (VBool false) /\
      args !! "other" = None).
Proof.
  set (D := Decls [REQUIRED_STRING_ARG "path" "path" "File to read";
                   REQUIRED_CHAR_ARG "sep" "sep" "Separator";
                   REQUIRED_ULONG_ARG (H := LP64) "rows" "rows" "Rows to read"]
                  [OPTIONAL_INT_ARG (H := LP64) "skip" 2 "--skip" "n" "Rows to skip"]
                  [BOOLEAN_ARG "quiet" "--quiet" "Print less"]).
  assert (Hnames : names_distinct D)
    by (unfold names_distinct; apply (bool_decide_unpack _); vm_compute; reflexivity).
  split; [exact Hnames|]. intros args ->.
  destruct (make_default_args_members D Hnames) as (_ & Hr & Ho & Hb & Hnone & _).
  split; [|split; [|split; [|split; [|split]]]].
  - exact (Hr (REQUIRED_STRING_ARG "path" "path" "File to read")
             ltac:(apply elem_of_cons; by left)).
  - exact (Hr (REQUIRED_CHAR_ARG "sep" "sep" "Separator")
             ltac:(apply elem_of_cons; right; apply elem_of_cons; by left)).
  - exact (Hr (REQUIRED_ULONG_ARG (H := LP64) "rows" "rows" "Rows to read")
             ltac:(do 2 (apply elem_of_cons; right); apply elem_of_cons; by left)).
  - exact (Ho (OPTIONAL_INT_ARG (H := LP64) "skip" 2 "--skip" "n" "Rows to skip")
             ltac:(apply list_elem_of_singleton; reflexivity)).
  - exact (Hb (BOOLEAN_ARG "quiet" "--quiet" "Print less")
             ltac:(apply list_elem_of_singleton; reflexivity)).
  - apply (Hnone "other"); apply (bool_decide_unpack _); vm_compute; reflexivity.
Defined.

(** ** Well-formed command lines *)

Lemma parse_items (D : decls) (prog : string) (reqs : list string)
    (items : list item) (rest : list string) (args : args_t) :
  length reqs = length (REQUIRED_ARGS D) ->
  Forall (item_ok D) items ->
  parse D (prog :: reqs ++ render items ++ rest) args =
  if (run_required (REQUIRED_ARGS D) reqs (State args [] [])).2 then
    if (run_items D items (run_required (REQUIRED_ARGS D) reqs (State args [] [])).1).2
    then walk D rest
           (run_items D items (run_required (REQUIRED_ARGS D) reqs (State args [] [])).1).1
    else Return 0
           (run_items D items (run_required (REQUIRED_ARGS D) reqs (State args [] [])).1).1
  else Return 0 (run_required (REQUIRED_ARGS D) reqs (State args [] [])).1.
Proof.
  intros Hlen Hok. rewrite parse_shape by done.
  destruct (run_required _ reqs _) as [s1 ok1]. cbn [fst snd].
  destruct ok1; [|done]. rewrite walk_render by done.
  by destruct (run_items D items s1) as [s2 []].
Qed.

Lemma parse_items_nil (D : decls) (prog : string) (reqs : list string)
    (items : list item) (args : args_t) :
  length reqs = length (REQUIRED_ARGS D) ->
  Forall (item_ok D) items ->
  parse D (prog :: reqs ++ render items) args =
  if (run_required (REQUIRED_ARGS D) reqs (State args [] [])).2 then
    Return (if (run_items D items
                  (run_required (REQUIRED_ARGS D) reqs (State args [] [])).1).2
            then 1 else 0)
      (run_items D items (run_required (REQUIRED_ARGS D) reqs (State args [] [])).1).1
  else Return 0 (run_required (REQUIRED_ARGS D) reqs (State args [] [])).1.
Proof.
  intros Hlen Hok.
  rewrite <- (app_nil_r (render items)). rewrite parse_items by done.
  destruct (run_required _ reqs _).2; [|done].
  by destruct (run_items D items _).2.
Qed.

(** C1, as amended.  A command line made of the program name, one
    accepted token per required argument in declared order, and then
    options with accepted values, switches and tokens that are no flag,
    is parsed with success.  Afterwards every required member holds the
    value converted from its token; every optional member holds the value
    converted from the value token of the last option carrying its flag,
    or its declared default when no option carries it; and every boolean
    member is true exactly when its flag occurs as a switch, that is in
    flag position: as a required token or as the value of an option the
    same text sets nothing. *)
Theorem parse_args_well_formed (D : decls) (prog : string) (reqs : list string)
    (items : list item) :
  names_distinct D -> flags_distinct D ->
  Forall2 (fun d t => converts (r_parser d) t = true) (REQUIRED_ARGS D) reqs ->
  Forall (item_ok D) items ->
  values_convert D items ->
  exists s,
    parse_args D (Z.of_nat (length (prog :: reqs ++ render items)))
      (Some (prog :: reqs ++ render items)) (make_default_args D) = Return 1 s /\
    (forall k d t,
        REQUIRED_ARGS D !! k = Some d -> reqs !! k = Some t ->
        st_args s !! r_name d = Some (converted (r_parser d) t)) /\
    (forall d,
        d ∈ OPTIONAL_ARGS D ->
        st_args s !! o_name d =
        Some (match last (supplied (o_flag d) items) with
              | Some v => converted (o_parser d) v
              | None => o_default d
              end)) /\
    (forall d,
        d ∈ BOOLEAN_ARGS D ->
        st_args s !! b_name d = Some (VBool (bool_decide (Flag (b_flag d) ∈ items)))).
Proof.
  intros Hnames Hflags Hreqs Hok Hvals.
  assert (Hlen : length reqs = length (REQUIRED_ARGS D))
    by (symmetry; by eapply Forall2_length).
  pose proof (parse_items_nil D prog reqs items (make_default_args D) Hlen Hok) as Hp.
  unfold parse in Hp.
  set (s1 := (run_required (REQUIRED_ARGS D) reqs (State (make_default_args D) [] [])).1) in *.
  rewrite run_required_ok in Hp by done.
  rewrite run_items_ok in Hp by done.
  eexists. split; [exact Hp|].
  destruct (names_distinct_inv D Hnames) as (Hr & Ho & Hb & Hro & Hrb & Hob).
  split; [|split].
  - intros k d t Hd Ht.
    assert (Hn : r_name d ∈ r_name <$> REQUIRED_ARGS D).
    { apply list_elem_of_fmap. exists d. split; [done|]. by eapply list_elem_of_lookup_2. }
    rewrite run_items_other by auto.
    by apply (run_required_lookup _ _ _ k).
  - intros d Hd.
    assert (Hn : o_name d ∈ o_name <$> OPTIONAL_ARGS D) by (apply list_elem_of_fmap; eauto).
    rewrite run_items_optional by (try done; by apply run_items_ok).
    destruct (last (supplied (o_flag d) items)); [done|].
    unfold s1. rewrite run_required_other.
    + cbn. by apply default_optional.
    + intros Hc. by apply (Hro _ Hc).
  - intros d Hd.
    assert (Hn : b_name d ∈ b_name <$> BOOLEAN_ARGS D) by (apply list_elem_of_fmap; eauto).
    rewrite run_items_boolean by (try done; by apply run_items_ok).
    destruct (bool_decide (Flag (b_flag d) ∈ items)); [done|].
    unfold s1. rewrite run_required_other.
    + cbn. by apply default_boolean.
    + intros Hc. by apply (Hrb _ Hc).
Qed.

Lemma values_convert_Forall (D : decls) (items : list item) :
  Forall (fun it => match it with
                    | Opt flag value =>
                        Forall (fun d => o_flag d = flag ->
                                         converts (o_parser d) value = true)
                          (OPTIONAL_ARGS D)
                    | _ => True
                    end) items ->
  values_convert D items.
Proof.
  intros Hall d flag value Hd Hin Hfl.
  rewrite Forall_forall in Hall. specialize (Hall _ Hin). cbn in Hall.
  rewrite Forall_forall in Hall. by apply Hall.
Qed.

Ltac by_computation := apply (bool_decide_unpack _); vm_compute; reflexivity.

Lemma parse_args_well_formed_witness :
  exists s,
    parse_args (scenario_decls (H := LP64)) 5
      (Some ["prog"; "5"; "--name"; "Ada"; "--verbose"])
      (make_default_args scenario_decls) = Return 1 s /\
    st_args s !! "count" = Some (VInt 5) /\
    st_args s !! "name" = Some (VStr (Some "Ada")) /\
    st_args s !! "verbose" = Some (VBool true).
Proof.
  destruct (parse_args_well_formed (scenario_decls (H := LP64)) "prog" ["5"]
              [Opt "--name" "Ada"; Flag "--verbose"])
    as (s & Hp & Hr & Ho & Hb).
  - exact scenario_names_distinct.
  - exact scenario_flags_distinct.
  - repeat constructor.
  - by_computation.
  - apply values_convert_Forall. repeat constructor.
  - exists s. split; [exact Hp|]. split; [|split].
    + exact (Hr 0%nat _ "5" eq_refl eq_refl).
    + apply (Ho (OPTIONAL_STRING_ARG "name" (Some "anon") "--name" "name" "Who")).
      apply list_elem_of_singleton. reflexivity.
    + apply (Hb (BOOLEAN_ARG "verbose" "--verbose" "Talk more")).
      apply list_elem_of_singleton. reflexivity.
Defined.

(** C1 as it is stated fails on a command line of its own domain: the
    value of an option may be the text of a switch.  The token
    [--verbose] then appears among the tokens, and the member [verbose]
    stays false. *)
Lemma parse_args_switch_text_as_value :
  "prog" :: ["5"] ++ render [Opt "--name" "--verbose"]
  = ["prog"; "5"; "--name"; "--verbose"] /\
  converts (as_value VInt (easyargs_parse_int (H := LP64))) "5" = true /\
  converts (as_value VStr easyargs_parse_str) "--verbose" = true /\
  "--verbose" ∈ ["prog"; "5"; "--name"; "--verbose"] /\
  exists s,
    parse_args (scenario_decls (H := LP64)) 4
      (Some ["prog"; "5"; "--name"; "--verbose"])
      (make_default_args scenario_decls) = Return 1 s /\
    st_args s !! "name" = Some (VStr (Some "--verbose")) /\
    st_args s !! "verbose" = Some (VBool false).
Proof.
  split; [reflexivity|]. split; [reflexivity|]. split; [reflexivity|].
  split; [by_computation|].
  eexists. split; [vm_compute; reflexivity|]. split; vm_compute; reflexivity.
Qed.

(** ** Arity failures *)

(** Every sequence of tokens is a sequence of items, possibly followed by
    one optional flag that has no value. *)
Lemma tokens_items (D : decls) (n : nat) :
  forall tokens : list string,
    (length tokens <= n)%nat ->
    (exists items, Forall (item_ok D) items /\ tokens = render items) \/
    (exists items flag, Forall (item_ok D) items /\ flag ∈ optional_flags D /\
                        tokens = render items ++ [flag]).
Proof.
  induction n as [|n IH]; intros tokens Hlen.
  - destruct tokens; [|cbn in Hlen; lia]. left. by exists [].
  - destruct tokens as [|t rest]; [left; by exists []|].
    cbn [length] in Hlen.
    destruct (decide (t ∈ optional_flags D)) as [Hopt|Hnopt].
    + destruct rest as [|v rest].
      { right. exists [], t. by repeat split. }
      cbn [length] in Hlen.
      destruct (IH rest) as [(items & Hok & ->)|(items & flag & Hok & Hfl & ->)]; [lia| |].
      * left. exists (Opt t v :: items). split; [by constructor | done].
      * right. exists (Opt t v :: items), flag. repeat split; [by constructor | done].
    + destruct (IH rest) as [(items & Hok & ->)|(items & flag & Hok & Hfl & ->)]; [lia| |].
      * left. destruct (decide (t ∈ boolean_flags D)) as [Hb|Hnb].
        -- exists (Flag t :: items). split; [by constructor | done].
        -- exists (Unknown t :: items). split; [by constructor | done].
      * right. destruct (decide (t ∈ boolean_flags D)) as [Hb|Hnb].
        -- exists (Flag t :: items), flag. repeat split; [by constructor | done].
        -- exists (Unknown t :: items), flag. repeat split; [by constructor | done].
Qed.

Lemma walk_dangling (D : decls) (flag : string) (s : state) :
  flag ∈ optional_flags D ->
  walk D [flag] s = Return 0 (print_err s (requires_value flag)).
Proof.
  intros Hfl. cbn [walk].
  destruct (find_optional D flag) as [d|] eqn:Hf.
  - apply find_optional_Some in Hf as [_ ->]. done.
  - apply find_optional_None in Hf. done.
Qed.

Lemma parse_args_too_few (D : decls) (argc : Z) (argv : list string) (args : args_t) :
  argc < 1 + REQUIRED_ARG_COUNT D ->
  exists line, parse_args D argc (Some argv) args = Return 0 (State args [line] []).
Proof.
  intros Hlt. unfold parse_args.
  destruct (argc =? 0); [by eexists|].
  replace (argc <? 1 + REQUIRED_ARG_COUNT D) with true
    by (symmetry; by apply Z.ltb_lt).
  by eexists.
Qed.

Lemma run_required_rejects (ds : list required_arg) :
  forall (tokens : list string) (s : state),
    (run_required ds tokens s).2 = false ->
    exists k d t, ds !! k = Some d /\ tokens !! k = Some t /\
                  converts (r_parser d) t = false.
Proof.
  induction ds as [|d ds IH]; intros [|t tokens] s Hfail; try done.
  cbn [run_required] in Hfail. rewrite convert_eq in Hfail.
  destruct (converts (r_parser d) t) eqn:Ht.
  - destruct (IH _ _ Hfail) as (k & d' & t' & Hd & Htok & Hrej).
    by exists (S k), d', t'.
  - by exists 0%nat, d, t.
Qed.

(** A walk that returns 0 has met, after some items, an optional flag
    without a value or an option whose value is rejected. *)
Lemma walk_fails (D : decls) (bound : nat) :
  forall (tokens : list string) (s s' : state),
    (length tokens <= bound)%nat ->
    walk D tokens s = Return 0 s' ->
    (exists items flag,
        tokens = render items ++ [flag] /\ Forall (item_ok D) items /\
        flag ∈ optional_flags D /\ (run_items D items s).2 = true /\
        s' = print_err (run_items D items s).1 (requires_value flag)) \/
    (exists items flag value rest d,
        tokens = render items ++ flag :: value :: rest /\ Forall (item_ok D) items /\
        find_optional D flag = Some d /\ converts (o_parser d) value = false /\
        (run_items D items s).2 = true).
Proof.
  induction bound as [|bound IH]; intros tokens s s' Hlen Hw.
  - destruct tokens; [done | cbn in Hlen; lia].
  - destruct tokens as [|t rest]; [done|]. cbn [length] in Hlen. cbn [walk] in Hw.
    destruct (find_optional D t) as [d|] eqn:Hf.
    + pose proof (find_optional_Some D t d Hf) as [Hd Hfl].
      assert (Hopt : t ∈ optional_flags D).
      { rewrite <- Hfl. apply list_elem_of_fmap. eauto. }
      destruct rest as [|v rest].
      { left. exists [], t. injection Hw as <-. by rewrite Hfl. }
      cbn [length] in Hlen. rewrite convert_eq in Hw.
      destruct (converts (o_parser d) v) eqn:Hv.
      * assert (Hstep : run_item D (Opt t v) s
                        = (State (<[o_name d := converted (o_parser d) v]> (st_args s))
                             (st_err s ++ (o_parser d (Some v)).2)
                             (st_calls s ++ [(o_name d, v)]), true)).
        { cbn [run_item]. by rewrite Hf, convert_eq, Hv. }
        destruct (IH rest _ _ ltac:(lia) Hw)
          as [(items & flag & -> & Hok & Hflag & Hrun & ->)
             |(items & flag & value & rest' & d' & -> & Hok & Hfind & Hrej & Hrun)].
        -- left. exists (Opt t v :: items), flag.
           rewrite run_items_cons, Hstep. cbn [fst snd].
           split; [done|]. split; [by constructor|]. done.
        -- right. exists (Opt t v :: items), flag, value, rest', d'.
           rewrite run_items_cons, Hstep. cbn [fst snd].
           split; [done|]. split; [by constructor|]. done.
      * right. exists [], t, v, rest, d. by repeat split.
    + pose proof (proj1 (find_optional_None D t) Hf) as Hno.
      destruct (find_boolean D t) as [b|] eqn:Hfb.
      * pose proof (find_boolean_Some D t b Hfb) as [Hb Hfl].
        assert (Hbool : t ∈ boolean_flags D).
        { rewrite <- Hfl. apply list_elem_of_fmap. eauto. }
        assert (Hstep : run_item D (Flag t) s = (assign_true (b_name b) s, true)).
        { cbn [run_item]. by rewrite Hfb. }
        destruct (IH rest _ _ ltac:(lia) Hw)
          as [(items & flag & -> & Hok & Hflag & Hrun & ->)
             |(items & flag & value & rest' & d' & -> & Hok & Hfind & Hrej & Hrun)].
        -- left. exists (Flag t :: items), flag.
           rewrite run_items_cons, Hstep. cbn [fst snd].
           split; [done|]. split; [by constructor|]. done.
        -- right. exists (Flag t :: items), flag, value, rest', d'.
           rewrite run_items_cons, Hstep. cbn [fst snd].
           split; [done|]. split; [by constructor|]. done.
      * pose proof (proj1 (find_boolean_None D t) Hfb) as Hnb.
        destruct (IH rest _ _ ltac:(lia) Hw)
          as [(items & flag & -> & Hok & Hflag & Hrun & ->)
             |(items & flag & value & rest' & d' & -> & Hok & Hfind & Hrej & Hrun)].
        -- left. exists (Unknown t :: items), flag.
           rewrite run_items_cons. cbn [run_item fst snd].
           split; [done|]. split; [by constructor|]. done.
        -- right. exists (Unknown t :: items), flag, value, rest', d'.
           rewrite run_items_cons. cbn [run_item fst snd].
           split; [done|]. split; [by constructor|]. done.
Qed.

(** C2, as amended.  [parse_args] returns 0 for want of tokens in two
    situations.  The first: [argv] is null, or [argc] is less than
    [1 + REQUIRED_ARG_COUNT]; the struct is then untouched and no parser
    is called.  The second: the walk stands on the last token and that
    token is the flag of an optional argument.  This is the case of a
    command line whose tokens after the required ones are items followed
    by such a flag: the call returns 0 with the very state of the parse
    of the line without the flag, plus the one diagnostic, so no parser
    is called for the flag.  (A last token with the text of a flag that
    is read as the value of the option before it, or as a required
    argument, is not in this situation.)  And these are the only two:
    every call that returns 0 is in one of them, or a parser has
    rejected the token of a required argument or the value of an
    option. *)
Theorem parse_args_arity_failures (D : decls) :
  (forall argc args,
      parse_args D argc None args
      = Return 0 (State args ["Internal error: null args or argv." +:+ nl] [])) /\
  (forall argc argv args,
      argc < 1 + REQUIRED_ARG_COUNT D ->
      exists line, parse_args D argc (Some argv) args = Return 0 (State args [line] [])) /\
  (forall prog reqs items flag args,
      length reqs = length (REQUIRED_ARGS D) ->
      Forall (item_ok D) items ->
      flag ∈ optional_flags D ->
      (forall s, parse D (prog :: reqs ++ render items) args = Return 1 s ->
                 parse D (prog :: reqs ++ render items ++ [flag]) args
                 = Return 0 (print_err s (requires_value flag))) /\
      (forall s, parse D (prog :: reqs ++ render items) args = Return 0 s ->
                 parse D (prog :: reqs ++ render items ++ [flag]) args = Return 0 s)) /\
  (forall argv args s,
      parse D argv args = Return 0 s ->
      Z.of_nat (length argv) < 1 + REQUIRED_ARG_COUNT D \/
      (exists prog reqs items flag s0,
          argv = prog :: reqs ++ render items ++ [flag] /\
          length reqs = length (REQUIRED_ARGS D) /\
          Forall (item_ok D) items /\ flag ∈ optional_flags D /\
          parse D (prog :: reqs ++ render items) args = Return 1 s0 /\
          s = print_err s0 ("Error: option '" +:+ flag +:+ "' requires a value." +:+ nl) /\
          st_args s = st_args s0 /\ st_calls s = st_calls s0) \/
      (exists k d t,
          REQUIRED_ARGS D !! k = Some d /\ argv !! S k = Some t /\
          converts (r_parser d) t = false) \/
      (exists prog reqs items flag value rest d,
          argv = prog :: reqs ++ render items ++ flag :: value :: rest /\
          length reqs = length (REQUIRED_ARGS D) /\
          Forall (item_ok D) items /\
          d ∈ OPTIONAL_ARGS D /\ o_flag d = flag /\
          converts (o_parser d) value = false)).
Proof.
  split; [done|]. split; [apply parse_args_too_few|]. split.
  - intros prog reqs items flag args Hlen Hok Hfl.
    rewrite parse_items_nil, parse_items by done.
    destruct (run_required _ reqs _) as [s1 ok1]. cbn [fst snd].
    destruct ok1.
    + destruct (run_items D items s1) as [s2 ok2]. cbn [fst snd].
      destruct ok2; split; intros s [= <-]; by rewrite ?walk_dangling.
    + split; intros s [= <-]. done.
  - intros argv args s Hp.
    destruct (Z_lt_ge_dec (Z.of_nat (length argv)) (1 + REQUIRED_ARG_COUNT D))
      as [Hlt|Hge]; [by left|].
    right. unfold REQUIRED_ARG_COUNT in Hge.
    destruct argv as [|prog tokens]; [cbn in Hge; lia|].
    cbn [length] in Hge.
    set (R := length (REQUIRED_ARGS D)) in *.
    assert (Hsplit : tokens = take R tokens ++ drop R tokens)
      by (by rewrite take_drop).
    assert (Hlen : length (take R tokens) = R) by (rewrite length_take; lia).
    rewrite Hsplit in Hp. rewrite parse_shape in Hp by done.
    destruct (run_required (REQUIRED_ARGS D) (take R tokens) (State args [] []))
      as [s1 ok1] eqn:Hreq.
    destruct ok1.
    + destruct (walk_fails D _ _ _ _ (le_n _) Hp)
        as [(items & flag & Hrest & Hok & Hflag & Hrun & ->)
           |(items & flag & value & rest & d & Hrest & Hok & Hfind & Hrej & Hrun)].
      * left. exists prog, (take R tokens), items, flag, (run_items D items s1).1.
        split; [by rewrite <- Hrest, <- Hsplit|].
        split; [done|]. split; [done|]. split; [done|].
        split; [|done].
        rewrite parse_items_nil by done. rewrite Hreq. cbn [fst snd]. by rewrite Hrun.
      * right. right. apply find_optional_Some in Hfind as [Hd Hdf].
        exists prog, (take R tokens), items, flag, value, rest, d.
        split; [by rewrite <- Hrest, <- Hsplit | done].
    + right. left.
      pose proof (run_required_rejects (REQUIRED_ARGS D) (take R tokens)
                    (State args [] [])) as Hrejects.
      rewrite Hreq in Hrejects.
      destruct (Hrejects eq_refl) as (k & d & t & Hd & Ht & Hrej).
      exists k, d, t. split; [done|]. split; [|done].
      apply lookup_take_Some in Ht as [Ht _]. done.
Qed.

Lemma parse_args_arity_failures_witness :
  (exists line,
      parse_args (scenario_decls (H := LP64)) 1 (Some ["prog"])
        (make_default_args scenario_decls)
      = Return 0 (State (make_default_args scenario_decls) [line] [])) /\
  parse (scenario_decls (H := LP64)) ["prog"; "5"; "--name"]
    (make_default_args scenario_decls)
  = Return 0 (State (<["count" := VInt 5]> (make_default_args scenario_decls))
                [requires_value "--name"] [("count", "5")]) /\
  (Z.of_nat (length ["prog"; "5"; "--name"]) < 1 + REQUIRED_ARG_COUNT (scenario_decls (H := LP64)) \/
   (exists prog reqs items flag s0,
       ["prog"; "5"; "--name"] = prog :: reqs ++ render items ++ [flag] /\
       length reqs = length (REQUIRED_ARGS (scenario_decls (H := LP64))) /\
       Forall (item_ok (scenario_decls (H := LP64))) items /\
       flag ∈ optional_flags (scenario_decls (H := LP64)) /\
       parse (scenario_decls (H := LP64)) (prog :: reqs ++ render items)
         (make_default_args scenario_decls) = Return 1 s0 /\
       State (<["count" := VInt 5]> (make_default_args scenario_decls))
         [requires_value "--name"] [("count", "5")]
       = print_err s0 ("Error: option '" +:+ flag +:+ "' requires a value." +:+ nl) /\
       <["count" := VInt 5]> (make_default_args scenario_decls) = st_args s0 /\
       [("count", "5")] = st_calls s0) \/
   (exists k d t,
       REQUIRED_ARGS (scenario_decls (H := LP64)) !! k = Some d /\
       ["prog"; "5"; "--name"] !! S k = Some t /\
       converts (r_parser d) t = false) \/
   (exists prog reqs items flag value rest d,
       ["prog"; "5"; "--name"] = prog :: reqs ++ render items ++ flag :: value :: rest /\
       length reqs = length (REQUIRED_ARGS (scenario_decls (H := LP64))) /\
       Forall (item_ok (scenario_decls (H := LP64))) items /\
       d ∈ OPTIONAL_ARGS (scenario_decls (H := LP64)) /\ o_flag d = flag /\
       converts (o_parser d) value = false)).
Proof.
  destruct (parse_args_arity_failures (scenario_decls (H := LP64)))
    as (_ & Hfew & Hflag & Honly).
  split; [|split].
  - apply Hfew. reflexivity.
  - destruct (Hflag "prog" ["5"] [] "--name" (make_default_args scenario_decls))
      as [Hgo _].
    + reflexivity.
    + constructor.
    + by_computation.
    + assert (Hs : parse (scenario_decls (H := LP64)) ("prog" :: ["5"] ++ render [])
                     (make_default_args scenario_decls)
                   = Return 1 (State (<["count" := VInt 5]>
                                        (make_default_args scenario_decls))
                                 [] [("count", "5")]))
        by (vm_compute; reflexivity).
      exact (Hgo _ Hs).
  - assert (Hp : parse (scenario_decls (H := LP64)) ["prog"; "5"; "--name"]
                   (make_default_args scenario_decls)
                 = Return 0 (State (<["count" := VInt 5]>
                                      (make_default_args scenario_decls))
                               [requires_value "--name"] [("count", "5")]))
      by (vm_compute; reflexivity).
    exact (Honly _ _ _ Hp).
Defined.

(** C2 as it is stated fails: the last token of this command line is
    exactly the flag of the optional argument, and the call succeeds,
    because the walk reads that token as the value of the option before
    it. *)
Lemma parse_args_last_token_flag_text :
  last ["prog"; "5"; "--name"; "--name"] = Some "--name" /\
  "--name" ∈ optional_flags (scenario_decls (H := LP64)) /\
  exists s,
    parse_args (scenario_decls (H := LP64)) 4
      (Some ["prog"; "5"; "--name"; "--name"])
      (make_default_args scenario_decls) = Return 1 s /\
    st_args s !! "name" = Some (VStr (Some "--name")).
Proof.
  split; [reflexivity|]. split; [by_computation|].
  eexists. split; vm_compute; reflexivity.
Qed.

(** ** Tokens that are no flag *)

Lemma loop_body_unknown (D : decls) (argc : Z) (argv : list string) (i : Z)
    (s : state) (token : string) :
  argv_at argv i = Some token ->
  token ∉ optional_flags D -> token ∉ boolean_flags D ->
  loop_body D argc argv i s = Continue i (print_err s (ignoring token)).
Proof.
  intros Hat Hno Hnb. unfold loop_body. rewrite Hat.
  rewrite try_optional_find, try_boolean_find.
  apply find_optional_None in Hno. apply find_boolean_None in Hnb.
  unfold find_optional, find_boolean in *. by rewrite Hno, Hnb.
Qed.

Lemma Forall_item_ok_known (D : decls) (items : list item) :
  Forall (item_ok D) items -> Forall (item_ok D) (filter known items).
Proof.
  intros Hok. apply Forall_forall. intros it Hin.
  apply list_elem_of_filter in Hin as [_ Hin].
  rewrite Forall_forall in Hok. by apply Hok.
Qed.

(** C3.  When the walk stands on a token that is neither the flag of an
    optional argument nor the flag of a boolean argument, it prints the
    line [Warning: Ignoring invalid argument '<token>'] and goes on with
    the next token; when the token is the last one, [parse_args]
    returns 1 after the warning.  Such tokens never make [parse_args]
    return 0: a command line with them returns what the line without
    them returns, with the same struct and the same calls of the
    parsers; and a command line whose required tokens and option values
    are accepted is parsed with success however many such tokens it
    contains, each of them warned about. *)
Theorem unknown_tokens_tolerated (D : decls) :
  (forall fuel argc argv i s token,
      i < argc ->
      argv_at argv i = Some token ->
      token ∉ optional_flags D -> token ∉ boolean_flags D ->
      for_loop (S fuel) D argc argv i s
      = for_loop fuel D argc argv (i + 1)
          (print_err s ("Warning: Ignoring invalid argument '" +:+ token +:+ "'" +:+ nl))) /\
  (forall fuel argc argv i s token,
      i + 1 = argc ->
      argv_at argv i = Some token ->
      token ∉ optional_flags D -> token ∉ boolean_flags D ->
      for_loop (S fuel) D argc argv i s
      = Return 1
          (print_err s ("Warning: Ignoring invalid argument '" +:+ token +:+ "'" +:+ nl))) /\
  (forall prog reqs items args,
      length reqs = length (REQUIRED_ARGS D) ->
      Forall (item_ok D) items ->
      exists r s s',
        parse D (prog :: reqs ++ render (filter known items)) args = Return r s /\
        parse D (prog :: reqs ++ render items) args = Return r s' /\
        st_args s' = st_args s /\ st_calls s' = st_calls s /\
        (r = 1 ->
         forall token,
           Unknown token ∈ items ->
           "Warning: Ignoring invalid argument '" +:+ token +:+ "'" +:+ nl ∈ st_err s')) /\
  (forall prog reqs items args,
      Forall2 (fun d t => converts (r_parser d) t = true) (REQUIRED_ARGS D) reqs ->
      Forall (item_ok D) items ->
      values_convert D items ->
      exists s,
        parse D (prog :: reqs ++ render items) args = Return 1 s /\
        forall token,
          Unknown token ∈ items ->
          "Warning: Ignoring invalid argument '" +:+ token +:+ "'" +:+ nl ∈ st_err s).
Proof.
  split; [|split; [|split]].
  - intros fuel argc argv i s token Hlt Hat Hno Hnb.
    cbn [for_loop]. replace (i <? argc) with true by (symmetry; by apply Z.ltb_lt).
    by rewrite (loop_body_unknown D argc argv i s token).
  - intros fuel argc argv i s token Hlast Hat Hno Hnb.
    cbn [for_loop]. replace (i <? argc) with true by (symmetry; apply Z.ltb_lt; lia).
    rewrite (loop_body_unknown D argc argv i s token) by done.
    destruct fuel; cbn [for_loop];
      by replace (i + 1 <? argc) with false by (symmetry; apply Z.ltb_ge; lia).
  - intros prog reqs items args Hlen Hok.
    rewrite !parse_items_nil by (try done; by apply Forall_item_ok_known).
    destruct (run_required _ reqs _) as [s1 ok1]. cbn [fst snd] in *.
    destruct ok1.
    2:{ eexists _, _, _. split; [done|]. split; [done|]. by repeat split. }
    destruct (run_items_known D items s1 s1 eq_refl eq_refl) as (Hb & Ha & Hc).
    pose proof (run_items_warned D items s1) as Hw.
    destruct (run_items D items s1) as [s2 ok2].
    destruct (run_items D (filter known items) s1) as [s2' ok2'].
    cbn [fst snd] in *. subst ok2'.
    eexists _, _, _. split; [done|]. split; [done|]. split; [done|]. split; [done|].
    intros Hr token Hin. destruct ok2; [by apply Hw | done].
  - intros prog reqs items args Hreqs Hok Hvals.
    assert (Hlen : length reqs = length (REQUIRED_ARGS D))
      by (symmetry; by eapply Forall2_length).
    rewrite parse_items_nil by done.
    rewrite run_required_ok by done.
    pose proof (run_items_warned D items
                  (run_required (REQUIRED_ARGS D) reqs (State args [] [])).1) as Hw.
    rewrite run_items_ok in Hw |- * by done.
    eexists. split; [done|]. intros token Hin. by apply Hw.
Qed.

Lemma unknown_tokens_tolerated_witness :
  exists s,
    parse (scenario_decls (H := LP64)) ["prog"; "5"; "--unknownflag"; "--verbose"]
      (make_default_args scenario_decls) = Return 1 s /\
    "Warning: Ignoring invalid argument '--unknownflag'" +:+ nl ∈ st_err s.
Proof.
  destruct (unknown_tokens_tolerated (scenario_decls (H := LP64)))
    as (_ & _ & _ & Hvalid).
  destruct (Hvalid "prog" ["5"] [Unknown "--unknownflag"; Flag "--verbose"]
              (make_default_args scenario_decls)) as (s & Hp & Hwarn).
  - repeat constructor.
  - by_computation.
  - apply values_convert_Forall. repeat constructor.
  - exists s. split; [exact Hp|].
    apply (Hwarn "--unknownflag"). apply elem_of_cons. by left.
Defined.

(** C10.  The run of the loop body on a token that is no declared flag
    assigns no member: it leaves the loop variable and the struct as
    they were, calls no parser, and only adds the warning to what was
    printed. *)
Theorem unknown_token_frame (D : decls) (argc : Z) (argv : list string) (i : Z)
    (s : state) (token : string) :
  argv_at argv i = Some token ->
  token ∉ optional_flags D -> token ∉ boolean_flags D ->
  exists s',
    loop_body D argc argv i s = Continue i s' /\
    st_args s' = st_args s /\
    (forall n, st_args s' !! n = st_args s !! n) /\
    st_calls s' = st_calls s /\
    st_err s' = st_err s ++ [ignoring token].
Proof.
  intros Hat Hno Hnb. exists (print_err s (ignoring token)).
  split; [by apply loop_body_unknown|]. by repeat split.
Qed.

Lemma unknown_token_frame_witness :
  exists s',
    loop_body (scenario_decls (H := LP64)) 4
      ["prog"; "5"; "--unknownflag"; "--verbose"] 2
      (State (<["count" := VInt 5]> (make_default_args scenario_decls)) [] [("count", "5")])
    = Continue 2 s' /\
    st_args s' = <["count" := VInt 5]> (make_default_args scenario_decls).
Proof.
  destruct (unknown_token_frame (scenario_decls (H := LP64)) 4
              ["prog"; "5"; "--unknownflag"; "--verbose"] 2
              (State (<["count" := VInt 5]> (make_default_args scenario_decls))
                 [] [("count", "5")]) "--unknownflag")
    as (s' & Hbody & Hargs & _).
  - reflexivity.
  - by_computation.
  - by_computation.
  - exists s'. split; [exact Hbody | exact Hargs].
Defined.


(** ** Options given more than once *)

Lemma filter_none {A : Type} (P : A -> Prop) `{forall x, Decision (P x)} (l : list A) :
  (forall x, x ∈ l -> ~ P x) -> filter P l = [].
Proof.
  induction l as [|x l IH]; intros Hall; [done|].
  rewrite filter_cons_False by (apply Hall, elem_of_cons; by left).
  apply IH. intros y Hy. apply Hall, elem_of_cons. by right.
Qed.

Lemma run_required_calls_filter (D : decls) (reqs : list string) (args : args_t)
    (d : optional_arg) :
  names_distinct D -> d ∈ OPTIONAL_ARGS D ->
  filter (fun c => c.1 = o_name d)
    (st_calls (run_required (REQUIRED_ARGS D) reqs (State args [] [])).1) = [].
Proof.
  intros Hnames Hd. apply filter_none. intros [n t] Hin Hn. cbn in Hn. subst n.
  apply run_required_calls in Hin as [Hin|Hin]; [by apply elem_of_nil in Hin|].
  destruct (names_distinct_inv D Hnames) as (_ & _ & _ & Hro & _).
  apply (Hro _ Hin). apply list_elem_of_fmap. eauto.
Qed.

(** C9.  Let the flag of an optional argument head several options of a
    command line (any number of them).  If its parser rejects the value
    of any of these options, [parse_args] returns 0.  If [parse_args]
    returns 1, the parser was called for the member once per option, on
    the values in their order on the command line, and the member holds
    the value converted from the last of them. *)
Theorem repeated_option_last_wins (D : decls) (prog : string) (reqs : list string)
    (items : list item) (d : optional_arg) (args : args_t) :
  names_distinct D -> flags_distinct D ->
  length reqs = length (REQUIRED_ARGS D) ->
  Forall (item_ok D) items ->
  d ∈ OPTIONAL_ARGS D ->
  (forall value,
      Opt (o_flag d) value ∈ items ->
      converts (o_parser d) value = false ->
      exists s, parse D (prog :: reqs ++ render items) args = Return 0 s) /\
  (forall s,
      parse D (prog :: reqs ++ render items) args = Return 1 s ->
      filter (fun c => c.1 = o_name d) (st_calls s)
      = (fun v => (o_name d, v)) <$> supplied (o_flag d) items /\
      forall v, last (supplied (o_flag d) items) = Some v ->
                st_args s !! o_name d = Some (converted (o_parser d) v)).
Proof.
  intros Hnames Hflags Hlen Hok Hd. rewrite parse_items_nil by done.
  pose proof (run_required_calls_filter D reqs args d Hnames Hd) as Hcalls.
  destruct (run_required (REQUIRED_ARGS D) reqs (State args [] [])) as [s1 ok1].
  cbn [fst snd] in *. split.
  - intros value Hin Hrej. destruct ok1; [|by eexists].
    rewrite (run_items_fail D items s1 d value) by done. by eexists.
  - intros s Hp. destruct ok1; [|done].
    destruct (run_items D items s1).2 eqn:Hok2; [|done].
    injection Hp as <-. split.
    + rewrite run_items_calls by done. by rewrite Hcalls.
    + intros v Hlast. rewrite run_items_optional by done. by rewrite Hlast.
Qed.

Lemma repeated_option_last_wins_witness :
  exists s,
    parse (scenario_decls (H := LP64))
      ["prog"; "5"; "--name"; "Ada"; "--verbose"; "--name"; "Grace"]
      (make_default_args scenario_decls) = Return 1 s /\
    filter (fun c => c.1 = "name") (st_calls s) = [("name", "Ada"); ("name", "Grace")] /\
    st_args s !! "name" = Some (VStr (Some "Grace")).
Proof.
  destruct (repeated_option_last_wins (scenario_decls (H := LP64)) "prog" ["5"]
              [Opt "--name" "Ada"; Flag "--verbose"; Opt "--name" "Grace"]
              (OPTIONAL_STRING_ARG "name" (Some "anon") "--name" "name" "Who")
              (make_default_args scenario_decls))
    as [_ Hlast].
  - exact scenario_names_distinct.
  - exact scenario_flags_distinct.
  - reflexivity.
  - by_computation.
  - apply list_elem_of_singleton. reflexivity.
  - eexists. split; [vm_compute; reflexivity|].
    match goal with
    | |- context [st_calls ?s] =>
        assert (Hs : parse (scenario_decls (H := LP64))
                       ("prog" :: ["5"] ++ render [Opt "--name" "Ada"; Flag "--verbose";
                                                   Opt "--name" "Grace"])
                       (make_default_args scenario_decls) = Return 1 s)
          by (vm_compute; reflexivity);
        destruct (Hlast s Hs) as [Hc Ha]
    end.
    split; [exact Hc | exact (Ha "Grace" eq_refl)].
Defined.


(** ** The order of the options and switches *)

Lemma run_items_ok_forallb (D : decls) (items : list item) :
  forall s : state, (run_items D items s).2 = forallb (item_converts D) items.
Proof.
  induction items as [|it items IH]; intros s; [done|].
  rewrite run_items_cons. cbn [forallb].
  assert (Hit : (run_item D it s).2 = item_converts D it).
  { destruct it as [flag value|flag|token]; cbn [run_item item_converts]; [| |done].
    - destruct (find_optional D flag) as [d|]; [|done]. by rewrite convert_eq.
    - by destruct (find_boolean D flag). }
  rewrite Hit. destruct (item_converts D it); [apply IH | done].
Qed.

Lemma forallb_Permutation {A : Type} (f : A -> bool) (l k : list A) :
  l ≡ₚ k -> forallb f l = forallb f k.
Proof.
  intros Hp. destruct (forallb f l) eqn:Hl; symmetry.
  - rewrite forallb_forall in Hl |- *. intros x Hx. apply Hl.
    apply list_elem_of_In. rewrite Hp. by apply list_elem_of_In.
  - apply not_true_is_false. intros Hk. apply not_true_iff_false in Hl. apply Hl.
    rewrite forallb_forall in Hk |- *. intros x Hx. apply Hk.
    apply list_elem_of_In. rewrite <- Hp. by apply list_elem_of_In.
Qed.

Lemma supplied_not_given (flag : string) (items : list item) :
  flag ∉ option_flags items -> supplied flag items = [].
Proof.
  induction items as [|it items IH]; intros Hn; [done|].
  unfold supplied, option_flags in *. cbn [omap list_omap] in *.
  destruct it as [flag' value|flag'|token]; try by apply IH.
  apply not_elem_of_cons in Hn as [Hne Hn].
  rewrite decide_False by done. by apply IH.
Qed.

Lemma supplied_once (flag : string) (items : list item) :
  NoDup (option_flags items) -> (length (supplied flag items) <= 1)%nat.
Proof.
  induction items as [|it items IH]; intros Hnd; [cbn; lia|].
  unfold supplied, option_flags in *. cbn [omap list_omap] in *.
  destruct it as [flag' value|flag'|token]; try by apply IH.
  apply NoDup_cons in Hnd as [Hn Hnd]. case_decide as Hfl.
  - subst flag'. fold (supplied flag items).
    rewrite supplied_not_given by done. cbn. lia.
  - by apply IH.
Qed.

Lemma supplied_Permutation (flag : string) (items items' : list item) :
  items ≡ₚ items' -> NoDup (option_flags items) ->
  supplied flag items = supplied flag items'.
Proof.
  intros Hp Hnd. pose proof (supplied_once flag items Hnd) as Hlen.
  assert (Hs : supplied flag items ≡ₚ supplied flag items')
    by (unfold supplied; by rewrite Hp).
  destruct (supplied flag items) as [|v [|v' l]]; [| |cbn in Hlen; lia].
  - by apply Permutation_nil_l in Hs.
  - by apply Permutation_singleton_l in Hs.
Qed.

(** C4, as amended.  Two command lines with the same required tokens
    whose items are a permutation of each other are parsed with the same
    return value; and when that value is 1 and no flag heads two options
    of the line, the two structs are equal. *)
Theorem items_order_irrelevant (D : decls) (prog : string) (reqs : list string)
    (items items' : list item) (args : args_t) :
  names_distinct D -> flags_distinct D ->
  length reqs = length (REQUIRED_ARGS D) ->
  Forall (item_ok D) items ->
  items ≡ₚ items' ->
  exists r s s',
    parse D (prog :: reqs ++ render items) args = Return r s /\
    parse D (prog :: reqs ++ render items') args = Return r s' /\
    (r = 1 -> NoDup (option_flags items) -> st_args s = st_args s').
Proof.
  intros Hnames Hflags Hlen Hok Hperm.
  assert (Hok' : Forall (item_ok D) items') by (by rewrite <- Hperm).
  rewrite !parse_items_nil by done.
  destruct (run_required (REQUIRED_ARGS D) reqs (State args [] [])) as [s1 ok1].
  cbn [fst snd]. destruct ok1.
  2:{ exists 0, s1, s1. by repeat split. }
  pose proof (run_items_ok_forallb D items s1) as Hb.
  pose proof (run_items_ok_forallb D items' s1) as Hb'.
  rewrite <- (forallb_Permutation _ _ _ Hperm) in Hb'. rewrite <- Hb in Hb'.
  rewrite Hb'. eexists _, _, _. split; [done|]. split; [done|].
  intros Hr Hnd. destruct (run_items D items s1).2 eqn:Hrun; [|done].
  apply map_eq. intros n.
  destruct (decide (n ∈ o_name <$> OPTIONAL_ARGS D)) as [Ho|Hno].
  { apply list_elem_of_fmap in Ho as (d & -> & Hd).
    rewrite !run_items_optional by done.
    by rewrite (supplied_Permutation _ _ _ Hperm Hnd). }
  destruct (decide (n ∈ b_name <$> BOOLEAN_ARGS D)) as [Hbn|Hnb].
  { apply list_elem_of_fmap in Hbn as (d & -> & Hd).
    rewrite !run_items_boolean by done.
    rewrite (bool_decide_ext _ (Flag (b_flag d) ∈ items')); [done|].
    by rewrite Hperm. }
  by rewrite !run_items_other.
Qed.

Lemma items_order_irrelevant_witness :
  exists r s s',
    parse (scenario_decls (H := LP64)) ["prog"; "5"; "--name"; "Ada"; "--verbose"]
      (make_default_args scenario_decls) = Return r s /\
    parse (scenario_decls (H := LP64)) ["prog"; "5"; "--verbose"; "--name"; "Ada"]
      (make_default_args scenario_decls) = Return r s' /\
    (r = 1 -> NoDup (option_flags [Opt "--name" "Ada"; Flag "--verbose"]) ->
     st_args s = st_args s').
Proof.
  apply (items_order_irrelevant (scenario_decls (H := LP64)) "prog" ["5"]
           [Opt "--name" "Ada"; Flag "--verbose"]
           [Flag "--verbose"; Opt "--name" "Ada"]).
  - exact scenario_names_distinct.
  - exact scenario_flags_distinct.
  - reflexivity.
  - by_computation.
  - apply Permutation_swap.
Defined.

(** C4 as it is stated fails in two ways.  When a flag heads two options,
    the later value wins, so the order shows in the struct; and when a
    value is rejected, both orders return 0 but the members assigned
    before the rejection differ. *)
Lemma items_order_shows :
  ([Opt "--name" "Ada"; Opt "--name" "Grace"] ≡ₚ [Opt "--name" "Grace"; Opt "--name" "Ada"] /\
   exists s s',
     parse (scenario_decls (H := LP64)) ["prog"; "5"; "--name"; "Ada"; "--name"; "Grace"]
       (make_default_args scenario_decls) = Return 1 s /\
     parse (scenario_decls (H := LP64)) ["prog"; "5"; "--name"; "Grace"; "--name"; "Ada"]
       (make_default_args scenario_decls) = Return 1 s' /\
     st_args s !! "name" = Some (VStr (Some "Grace")) /\
     st_args s' !! "name" = Some (VStr (Some "Ada"))) /\
  ([Opt "--name" ""; Flag "--verbose"] ≡ₚ [Flag "--verbose"; Opt "--name" ""] /\
   exists s s',
     parse (scenario_decls (H := LP64)) ["prog"; "5"; "--name"; ""; "--verbose"]
       (make_default_args scenario_decls) = Return 0 s /\
     parse (scenario_decls (H := LP64)) ["prog"; "5"; "--verbose"; "--name"; ""]
       (make_default_args scenario_decls) = Return 0 s' /\
     st_args s !! "verbose" = Some (VBool false) /\
     st_args s' !! "verbose" = Some (VBool true)).
Proof.
  split; (split; [apply Permutation_swap|]);
    eexists _, _; repeat split; vm_compute; reflexivity.
Qed.


(** ** The help text *)

Lemma append_cons (x : ascii) (a b : string) : String x a +:+ b = String x (a +:+ b).
Proof. reflexivity. Qed.

Lemma append_assoc (a b c : string) : (a +:+ b) +:+ c = a +:+ (b +:+ c).
Proof. induction a as [|x a IH]; [done|]. by rewrite !append_cons, IH. Qed.

Lemma append_nil_r (a : string) : a +:+ EmptyString = a.
Proof. induction a as [|x a IH]; [done|]. by rewrite append_cons, IH. Qed.

Lemma strlen_append (a b : string) : strlen (a +:+ b) = strlen a + strlen b.
Proof.
  unfold strlen. induction a as [|x a IH]; [done|].
  rewrite append_cons. cbn [String.length]. lia.
Qed.

Lemma strlen_spaces (n : nat) : strlen (spaces n) = Z.of_nat n.
Proof. unfold strlen. induction n as [|n IH]; [done|]. cbn [spaces String.length]. lia. Qed.

Lemma strlen_nonneg (a : string) : 0 <= strlen a.
Proof. unfold strlen. lia. Qed.

Lemma strlen_padded (w : Z) (left : string) :
  strlen left <= w -> strlen (padded w left) = w.
Proof.
  intros Hle. unfold padded. rewrite strlen_append, strlen_spaces. lia.
Qed.

Lemma printf_star_s_empty (w : Z) : 0 <= w -> printf_star_s w EmptyString = spaces (Z.to_nat w).
Proof.
  intros Hw. unfold printf_star_s.
  replace (w <? 0) with false by (symmetry; apply Z.ltb_ge; lia).
  rewrite append_nil_r. f_equal. change (strlen EmptyString) with 0. lia.
Qed.

Lemma foldl_max {A : Type} (g : Z -> A -> Z) (f : A -> Z) (l : list A) :
  (forall m x, x ∈ l -> g m x = Z.max m (f x)) ->
  forall m0,
    m0 <= foldl g m0 l /\
    (forall x, x ∈ l -> f x <= foldl g m0 l) /\
    (foldl g m0 l = m0 \/ foldl g m0 l ∈ f <$> l).
Proof.
  induction l as [|x l IH]; intros Hg m0.
  - cbn. split; [lia|]. split; [|by left]. intros x Hx. by apply elem_of_nil in Hx.
  - cbn [foldl]. rewrite (Hg m0 x) by (apply elem_of_cons; by left).
    destruct (IH (fun m y Hy => Hg m y (proj2 (elem_of_cons l y x) (or_intror Hy)))
                (Z.max m0 (f x))) as (Hlo & Hall & Hin).
    split; [lia|]. split.
    + intros y Hy. apply elem_of_cons in Hy as [->|Hy]; [lia | by apply Hall].
    + cbn [fmap list_fmap]. destruct Hin as [Heq|Hin].
      * rewrite Heq. destruct (Z.max_spec m0 (f x)) as [[_ Hm]|[_ Hm]]; rewrite Hm.
        -- right. apply elem_of_cons. by left.
        -- by left.
      * right. apply elem_of_cons. by right.
Qed.

Section Help.
Context `{Abi} `{LibcPrintf}.

Lemma to_int_small (z : Z) : 0 <= z <= INT_MAX -> to_int z = z.
Proof.
  intros Hz. unfold to_int, INT_MAX in *.
  pose proof limits_facts as (? & _ & _ & ? & _).
  rewrite Z.mod_small by lia. lia.
Qed.

Lemma width_step (m len : Z) : (if m <? to_int len then to_int len else m) = Z.max m (to_int len).
Proof. destruct (m <? to_int len) eqn:E; [apply Z.ltb_lt in E | apply Z.ltb_ge in E]; lia. Qed.

Lemma max_width_spec (D : decls) :
  (forall w, w ∈ widths D -> w <= INT_MAX) ->
  (forall w, w ∈ widths D -> w <= max_width D) /\
  (max_width D ∈ widths D \/ widths D = [] /\ max_width D = 0).
Proof.
  intros Hfit. unfold widths in *.
  assert (Hr : forall m d, d ∈ REQUIRED_ARGS D -> width_required m d = Z.max m (required_width d)).
  { intros m d Hd. unfold width_required. rewrite width_step, to_int_small; [done|].
    split; [pose proof (strlen_nonneg (r_label d)); lia|].
    apply Hfit, elem_of_app. left. apply list_elem_of_fmap. eauto. }
  assert (Ho : forall m d, d ∈ OPTIONAL_ARGS D -> width_optional m d = Z.max m (optional_width d)).
  { intros m d Hd. unfold width_optional. rewrite width_step, to_int_small; [done|].
    split; [pose proof (strlen_nonneg (o_label d)); pose proof (strlen_nonneg (o_flag d)); lia|].
    apply Hfit, elem_of_app. right. apply elem_of_app. left. apply list_elem_of_fmap. eauto. }
  assert (Hb : forall m d, d ∈ BOOLEAN_ARGS D -> width_boolean m d = Z.max m (boolean_width d)).
  { intros m d Hd. unfold width_boolean. rewrite width_step, to_int_small; [done|].
    split; [apply strlen_nonneg|].
    apply Hfit, elem_of_app. right. apply elem_of_app. right. apply list_elem_of_fmap. eauto. }
  unfold max_width.
  destruct (foldl_max width_required required_width _ Hr 0) as (Hr0 & Hr1 & Hr2).
  set (m1 := foldl width_required 0 (REQUIRED_ARGS D)) in *.
  destruct (foldl_max width_optional optional_width _ Ho m1) as (Ho0 & Ho1 & Ho2).
  set (m2 := foldl width_optional m1 (OPTIONAL_ARGS D)) in *.
  destruct (foldl_max width_boolean boolean_width _ Hb m2) as (Hb0 & Hb1 & Hb2).
  set (m3 := foldl width_boolean m2 (BOOLEAN_ARGS D)) in *.
  split.
  - intros w Hw. apply elem_of_app in Hw as [Hw|Hw];
      [|apply elem_of_app in Hw as [Hw|Hw]];
      apply list_elem_of_fmap in Hw as (d & -> & Hd).
    + specialize (Hr1 d Hd). lia.
    + specialize (Ho1 d Hd). lia.
    + by apply Hb1.
  - destruct Hb2 as [Hb2|Hb2]; [|left; rewrite !elem_of_app; auto].
    rewrite Hb2. destruct Ho2 as [Ho2|Ho2]; [|left; rewrite !elem_of_app; auto].
    rewrite Ho2. destruct Hr2 as [Hr2|Hr2]; [|left; rewrite !elem_of_app; auto].
    destruct (REQUIRED_ARGS D) as [|r rs] eqn:ER; [|].
    2:{ left. pose proof (Hr1 r) as Hr1'. rewrite elem_of_cons in Hr1'.
        specialize (Hr1' (or_introl eq_refl)).
        pose proof (strlen_nonneg (r_label r)). unfold required_width in Hr1'. lia. }
    destruct (OPTIONAL_ARGS D) as [|o os] eqn:EO.
    2:{ left. pose proof (Ho1 o) as Ho1'. rewrite elem_of_cons in Ho1'.
        specialize (Ho1' (or_introl eq_refl)).
        pose proof (strlen_nonneg (o_label o)). pose proof (strlen_nonneg (o_flag o)).
        unfold optional_width in Ho1'. lia. }
    destruct (BOOLEAN_ARGS D) as [|b bs] eqn:EB; [by right|].
    left. cbn [fmap list_fmap app].
    pose proof (Hb1 b) as Hb1'. rewrite elem_of_cons in Hb1'.
    specialize (Hb1' (or_introl eq_refl)).
    pose proof (strlen_nonneg (b_flag b)).
    assert (boolean_width b = 0) as Hz by (unfold boolean_width in *; lia).
    rewrite Hr2. rewrite <- Hz. apply elem_of_cons. by left.
Qed.
End Help.


Section HelpLines.
Context `{Abi} `{LibcPrintf}.

Lemma required_line_padded (w : Z) (d : required_arg) :
  required_width d <= INT_MAX -> required_width d <= w ->
  required_line w d
  = "    " +:+ padded w ("<" +:+ r_label d +:+ ">") +:+ "    " +:+ r_description d +:+ nl.
Proof.
  unfold required_width. intros Hfit Hle. pose proof (strlen_nonneg (r_label d)).
  unfold required_line, padded. rewrite to_int_small by lia.
  rewrite printf_star_s_empty by lia.
  replace (strlen ("<" +:+ r_label d +:+ ">")) with (strlen (r_label d) + 2).
  2:{ rewrite !strlen_append. change (strlen "<") with 1. change (strlen ">") with 1. lia. }
  replace (w - strlen (r_label d) - 2) with (w - (strlen (r_label d) + 2)) by lia.
  rewrite !append_assoc. reflexivity.
Qed.

Lemma optional_line_padded (w : Z) (d : optional_arg) :
  optional_width d <= INT_MAX -> optional_width d <= w ->
  optional_line w d
  = "    " +:+ padded w (o_flag d +:+ " <" +:+ o_label d +:+ ">") +:+ "    "
    +:+ o_description d +:+ " (default: " +:+ printf_value (o_formatter d) (o_default d)
    +:+ ")" +:+ nl.
Proof.
  unfold optional_width. intros Hfit Hle.
  pose proof (strlen_nonneg (o_label d)). pose proof (strlen_nonneg (o_flag d)).
  unfold optional_line, padded. rewrite !to_int_small by lia.
  rewrite printf_star_s_empty by lia.
  replace (strlen (o_flag d +:+ " <" +:+ o_label d +:+ ">"))
    with (strlen (o_flag d) + strlen (o_label d) + 3).
  2:{ rewrite !strlen_append. change (strlen " <") with 2. change (strlen ">") with 1. lia. }
  replace (w - strlen (o_label d) - strlen (o_flag d) - 3)
    with (w - (strlen (o_flag d) + strlen (o_label d) + 3)) by lia.
  rewrite !append_assoc. reflexivity.
Qed.

Lemma boolean_line_padded (w : Z) (d : boolean_arg) :
  boolean_width d <= INT_MAX -> boolean_width d <= w ->
  boolean_line w d
  = "    " +:+ padded w (b_flag d) +:+ "    " +:+ b_description d +:+ nl.
Proof.
  unfold boolean_width. intros Hfit Hle. pose proof (strlen_nonneg (b_flag d)).
  unfold boolean_line, padded. rewrite to_int_small by lia.
  rewrite printf_star_s_empty by lia.
  rewrite !append_assoc. reflexivity.
Qed.

(** C7.  When the widths of the left parts fit in an [int],
    [max_width] is their maximum over the descriptors of the three lists
    (0 when there is none): [strlen(label) + 2] for a required argument,
    [strlen(flag) + 1 + strlen(label) + 2] for an optional one and
    [strlen(flag)] for a boolean one.  Every descriptor line of the
    ARGUMENTS and OPTIONS sections is four spaces, the left part padded
    with spaces to [max_width] characters, four spaces and the
    description; and these lines are what [print_help] prints. *)
Theorem help_column_width (D : decls) :
  (forall w, w ∈ widths D -> w <= INT_MAX) ->
  ((forall w, w ∈ widths D -> w <= max_width D) /\
   (max_width D ∈ widths D \/ widths D = [] /\ max_width D = 0)) /\
  (forall d, d ∈ REQUIRED_ARGS D ->
     required_line (max_width D) d
     = "    " +:+ padded (max_width D) ("<" +:+ r_label d +:+ ">") +:+ "    "
       +:+ r_description d +:+ nl /\
     strlen (padded (max_width D) ("<" +:+ r_label d +:+ ">")) = max_width D) /\
  (forall d, d ∈ OPTIONAL_ARGS D ->
     optional_line (max_width D) d
     = "    " +:+ padded (max_width D) (o_flag d +:+ " <" +:+ o_label d +:+ ">") +:+ "    "
       +:+ o_description d +:+ " (default: "
       +:+ printf_value (o_formatter d) (o_default d) +:+ ")" +:+ nl /\
     strlen (padded (max_width D) (o_flag d +:+ " <" +:+ o_label d +:+ ">")) = max_width D) /\
  (forall d, d ∈ BOOLEAN_ARGS D ->
     boolean_line (max_width D) d
     = "    " +:+ padded (max_width D) (b_flag d) +:+ "    " +:+ b_description d +:+ nl /\
     strlen (padded (max_width D) (b_flag d)) = max_width D) /\
  (forall exec_alias,
     plain_decls D = true ->
     exists out,
       print_help D exec_alias = Some out /\
       (forall d, d ∈ REQUIRED_ARGS D -> required_line (max_width D) d ∈ out) /\
       (forall d, d ∈ OPTIONAL_ARGS D -> optional_line (max_width D) d ∈ out) /\
       (forall d, d ∈ BOOLEAN_ARGS D -> boolean_line (max_width D) d ∈ out)).
Proof.
  intros Hfit. destruct (max_width_spec D Hfit) as [Hmax Hin].
  split; [done|].
  assert (Hr : forall d, d ∈ REQUIRED_ARGS D -> required_width d ∈ widths D).
  { intros d Hd. apply elem_of_app. left. apply list_elem_of_fmap. eauto. }
  assert (Ho : forall d, d ∈ OPTIONAL_ARGS D -> optional_width d ∈ widths D).
  { intros d Hd. apply elem_of_app. right. apply elem_of_app. left.
    apply list_elem_of_fmap. eauto. }
  assert (Hb : forall d, d ∈ BOOLEAN_ARGS D -> boolean_width d ∈ widths D).
  { intros d Hd. apply elem_of_app. right. apply elem_of_app. right.
    apply list_elem_of_fmap. eauto. }
  split; [|split; [|split]].
  - intros d Hd. split; [apply required_line_padded; auto|].
    apply strlen_padded. rewrite !strlen_append.
    change (strlen "<") with 1. change (strlen ">") with 1.
    specialize (Hmax _ (Hr d Hd)). unfold required_width in Hmax. lia.
  - intros d Hd. split; [apply optional_line_padded; auto|].
    apply strlen_padded. rewrite !strlen_append.
    change (strlen " <") with 2. change (strlen ">") with 1.
    specialize (Hmax _ (Ho d Hd)). unfold optional_width in Hmax. lia.
  - intros d Hd. split; [apply boolean_line_padded; auto|].
    apply strlen_padded. exact (Hmax _ (Hb d Hd)).
  - intros exec_alias Hplain. unfold print_help. rewrite Hplain.
    eexists. split; [done|]. split; [|split].
    + intros d Hd. apply elem_of_app. right. apply elem_of_app. left.
      unfold arguments_section. destruct (REQUIRED_ARGS D) as [|r rs] eqn:ER;
        [by apply elem_of_nil in Hd|].
      cbn [ifdef]. apply elem_of_app. right. apply elem_of_app. left.
      apply list_elem_of_In, in_map, list_elem_of_In. done.
    + intros d Hd. apply elem_of_app. right. apply elem_of_app. right.
      unfold options_section.
      assert (Hgoal : optional_line (max_width D) d ∈
                ["OPTIONS:" +:+ nl]
                ++ map (optional_line (max_width D)) (OPTIONAL_ARGS D)
                ++ map (boolean_line (max_width D)) (BOOLEAN_ARGS D)).
      { apply elem_of_app. right. apply elem_of_app. left.
        by apply list_elem_of_In, in_map, list_elem_of_In. }
      destruct (OPTIONAL_ARGS D) as [|o os]; [by apply elem_of_nil in Hd | done].
    + intros d Hd. apply elem_of_app. right. apply elem_of_app. right.
      unfold options_section.
      assert (Hgoal : boolean_line (max_width D) d ∈
                ["OPTIONS:" +:+ nl]
                ++ map (optional_line (max_width D)) (OPTIONAL_ARGS D)
                ++ map (boolean_line (max_width D)) (BOOLEAN_ARGS D)).
      { apply elem_of_app. right. apply elem_of_app. right.
        by apply list_elem_of_In, in_map, list_elem_of_In. }
      destruct (OPTIONAL_ARGS D) as [|o os]; [|done].
      destruct (BOOLEAN_ARGS D) as [|b bs]; [by apply elem_of_nil in Hd | done].
Qed.
End HelpLines.

Lemma help_column_width_witness :
  max_width (H := LP64) scenario_decls = 13 /\
  required_line (H := LP64) 13 (REQUIRED_INT_ARG "count" "count" "How many")
  = "    " +:+ padded 13 "<count>" +:+ "    " +:+ "How many" +:+ nl.
Proof.
  pose (pv := {| printf_value := fun _ _ => "?" |}).
  assert (Hfit : forall w, w ∈ widths (scenario_decls (H := LP64)) -> w <= INT_MAX).
  { intros w Hw. vm_compute in Hw.
    repeat (apply elem_of_cons in Hw as [->|Hw]; [by vm_compute|]).
    by apply elem_of_nil in Hw. }
  destruct (help_column_width (H := LP64) (H0 := pv) scenario_decls Hfit)
    as ([Hmax [Hin|[Hnil _]]] & Hreq & _).
  - split.
    + vm_compute. reflexivity.
    + exact (proj1 (Hreq (REQUIRED_INT_ARG "count" "count" "How many")
                      ltac:(apply list_elem_of_singleton; reflexivity))).
  - discriminate Hnil.
Defined.


(** ** [parse_args] always returns *)

Lemma loop_body_index (D : decls) (argc : Z) (argv : list string) (i i' : Z)
    (s s' : state) :
  loop_body D argc argv i s = Continue i' s' -> i <= i'.
Proof.
  unfold loop_body. destruct (argv_at argv i) as [token|]; [|done].
  rewrite try_optional_find, try_boolean_find.
  destruct (find _ (OPTIONAL_ARGS D)) as [d|].
  - destruct (argc <=? i + 1); [done|].
    destruct (argv_at argv (i + 1)) as [token'|]; [|done].
    destruct (convert _ _ token' s) as [s'' []]; [|done]. intros [= <- _]. lia.
  - destruct (find _ (BOOLEAN_ARGS D)) as [d|]; intros [= <- _]; lia.
Qed.

Lemma for_loop_fuel (D : decls) (argc : Z) (argv : list string) (fuel : nat) :
  forall (i : Z) (s : state),
    argc - i <= Z.of_nat fuel ->
    for_loop fuel D argc argv i s <> OutOfFuel.
Proof.
  induction fuel as [|fuel IH]; intros i s Hfuel; cbn [for_loop].
  - replace (i <? argc) with false by (symmetry; apply Z.ltb_ge; lia). done.
  - destruct (i <? argc); [|done].
    destruct (loop_body D argc argv i s) as [i' s'| |] eqn:Hbody; [|done|done].
    apply loop_body_index in Hbody. apply IH. lia.
Qed.

(** The fuel [parse_args] gives to the loop is never used up. *)
Lemma parse_args_fuel (D : decls) (argc : Z) (argv : option (list string)) (args : args_t) :
  parse_args D argc argv args <> OutOfFuel.
Proof.
  unfold parse_args. destruct argv as [av|]; [|done].
  destruct (argc =? 0); [done|].
  destruct (argc <? 1 + REQUIRED_ARG_COUNT D); [done|].
  destruct (get_required _ av 1 _); [|done|done].
  apply for_loop_fuel. unfold REQUIRED_ARG_COUNT. lia.
Qed.

Lemma walk_returns (D : decls) (n : nat) :
  forall (tokens : list string) (s : state),
    (length tokens <= n)%nat ->
    exists r s', walk D tokens s = Return r s'.
Proof.
  induction n as [|n IH]; intros tokens s Hlen.
  - destruct tokens; [by eexists _, _ | cbn in Hlen; lia].
  - destruct tokens as [|t rest]; [by eexists _, _|]. cbn [length] in Hlen.
    cbn [walk]. destruct (find_optional D t) as [d|].
    + destruct rest as [|v rest]; [by eexists _, _|]. cbn [length] in Hlen.
      destruct (convert _ _ v s) as [s' []]; [apply IH; lia | by eexists _, _].
    + destruct (find_boolean D t); apply IH; lia.
Qed.

(** Called with the tokens of the command line and their number,
    [parse_args] returns 0 or 1 and never reads outside [argv]. *)
Lemma parse_returns (D : decls) (argv : list string) (args : args_t) :
  exists r s, parse D argv args = Return r s /\ (r = 0 \/ r = 1).
Proof.
  destruct (Z_lt_ge_dec (Z.of_nat (length argv)) (1 + REQUIRED_ARG_COUNT D)) as [Hlt|Hge].
  - destruct (parse_args_too_few D _ argv args Hlt) as [line Hp].
    eexists _, _. split; [exact Hp | by left].
  - unfold REQUIRED_ARG_COUNT in Hge.
    destruct argv as [|prog tokens]; [cbn in Hge; lia|]. cbn [length] in Hge.
    rewrite <- (take_drop (length (REQUIRED_ARGS D)) tokens).
    rewrite parse_shape by (rewrite length_take; lia).
    destruct (run_required _ _ _) as [s1 []]; [|eexists _, _; split; [done | by left]].
    set (rest := drop _ tokens).
    destruct (tokens_items D (length rest) rest)
      as [(items & Hok & ->)|(items & flag & Hok & Hfl & ->)]; [done| |].
    + rewrite <- (app_nil_r (render items)), walk_render by done.
      destruct (run_items D items s1) as [s2 []]; eexists _, _; split; eauto.
    + rewrite walk_render by done.
      destruct (run_items D items s1) as [s2 []]; [|eexists _, _; split; eauto].
      rewrite walk_dangling by done. eexists _, _; split; eauto.
Qed.

(** ** The scenarios of the specification *)

Example scenario_1 :
  exists s, parse (scenario_decls (H := LP64)) ["prog"; "5"] (make_default_args scenario_decls)
            = Return 1 s /\
            st_args s !! "count" = Some (VInt 5) /\
            st_args s !! "name" = Some (VStr (Some "anon")).
Proof. eexists. repeat split; vm_compute; reflexivity. Qed.

Example scenario_2 :
  exists s, parse (scenario_decls (H := LP64)) ["prog"; "5"; "--name"; "Ada"]
              (make_default_args scenario_decls) = Return 1 s /\
            st_args s !! "count" = Some (VInt 5) /\
            st_args s !! "name" = Some (VStr (Some "Ada")).
Proof. eexists. repeat split; vm_compute; reflexivity. Qed.

Example scenario_3 :
  exists s, parse (scenario_decls (H := LP64)) ["prog"] (make_default_args scenario_decls)
            = Return 0 s /\
            st_err s = ["Not all required arguments included." +:+ nl].
Proof. eexists. repeat split; vm_compute; reflexivity. Qed.

Example scenario_4 :
  exists s, parse (scenario_decls (H := LP64)) ["prog"; "abc"]
              (make_default_args scenario_decls) = Return 0 s /\
            st_err s = ["Error: 'abc' is not a valid int." +:+ nl].
Proof. eexists. repeat split; vm_compute; reflexivity. Qed.

Example scenario_5 :
  exists s, parse (scenario_decls (H := LP64)) ["prog"; "5"; "--unknownflag"; "--verbose"]
              (make_default_args scenario_decls) = Return 1 s /\
            st_args s !! "verbose" = Some (VBool true) /\
            st_err s = [ignoring "--unknownflag"].
Proof. eexists. repeat split; vm_compute; reflexivity. Qed.


(** * Further properties of the header *)

(** ** Leading white space *)

Lemma skip_space_app (ws s : string) :
  all_space ws = true -> skip_space (ws +:+ s) = skip_space s.
Proof.
  induction ws as [|c ws IH]; intros Hws; [reflexivity|].
  cbn [all_space] in Hws. apply andb_true_iff in Hws as [Hc Hws].
  rewrite append_cons. cbn [skip_space]. rewrite Hc. auto.
Qed.

Lemma skip_space_split (s : string) :
  exists ws, all_space ws = true /\ s = ws +:+ skip_space s.
Proof.
  induction s as [|c s (ws & Hws & Hs)]; [by exists EmptyString|].
  cbn [skip_space]. destruct (isspace c) eqn:Hc.
  - exists (String c ws). split; [cbn [all_space]; by rewrite Hc, Hws|].
    rewrite append_cons. by f_equal.
  - by exists EmptyString.
Qed.

Lemma skip_space_head (s : string) :
  match skip_space s with
  | EmptyString => True
  | String c _ => isspace c = false
  end.
Proof.
  induction s as [|c s IH]; [done|]. cbn [skip_space].
  by destruct (isspace c) eqn:Hc.
Qed.

(** X1.  [easyargs_skip_leading] maps the null pointer to itself; on a
    string it removes a prefix made of white space only, what is left
    does not start with white space, and skipping again changes
    nothing. *)
Theorem easyargs_skip_leading_spec (s : string) :
  easyargs_skip_leading None = None /\
  exists ws rest,
    easyargs_skip_leading (Some s) = Some rest /\
    all_space ws = true /\ s = ws +:+ rest /\
    match rest with EmptyString => True | String c _ => isspace c = false end /\
    easyargs_skip_leading (Some rest) = Some rest.
Proof.
  split; [done|]. destruct (skip_space_split s) as (ws & Hws & Hs).
  exists ws, (skip_space s). split; [done|]. split; [done|]. split; [done|].
  pose proof (skip_space_head s) as Hhead. split; [done|].
  cbn [easyargs_skip_leading]. f_equal.
  destruct (skip_space s) as [|c rest]; [done|]. cbn [skip_space]. by rewrite Hhead.
Qed.

Section LeadingSpace.
Context `{Abi} `{LibcFloat}.

Lemma unsigned_parser_skips (maxval : Z) (typename ws s : string) :
  all_space ws = true ->
  DEFINE_UNSIGNED_INTEGER_PARSER maxval typename (Some (ws +:+ s))
  = DEFINE_UNSIGNED_INTEGER_PARSER maxval typename (Some s).
Proof. intros Hws. unfold DEFINE_UNSIGNED_INTEGER_PARSER. by rewrite skip_space_app. Qed.

Lemma signed_parser_skips (minval maxval : Z) (typename ws s : string) :
  all_space ws = true ->
  DEFINE_SIGNED_INTEGER_PARSER minval maxval typename (Some (ws +:+ s))
  = DEFINE_SIGNED_INTEGER_PARSER minval maxval typename (Some s).
Proof. intros Hws. unfold DEFINE_SIGNED_INTEGER_PARSER. by rewrite skip_space_app. Qed.

(** X2.  The nine numeric parsers ignore leading white space: a token
    and the same token after any run of white-space characters give the
    same value, the same [*ok] and the same diagnostic (which quotes the
    text after the white space). *)
Theorem numeric_parsers_skip_leading_space (ws s : string) :
  all_space ws = true ->
  easyargs_parse_int (Some (ws +:+ s)) = easyargs_parse_int (Some s) /\
  easyargs_parse_long (Some (ws +:+ s)) = easyargs_parse_long (Some s) /\
  easyargs_parse_llong (Some (ws +:+ s)) = easyargs_parse_llong (Some s) /\
  easyargs_parse_uint (Some (ws +:+ s)) = easyargs_parse_uint (Some s) /\
  easyargs_parse_ulong (Some (ws +:+ s)) = easyargs_parse_ulong (Some s) /\
  easyargs_parse_ullong (Some (ws +:+ s)) = easyargs_parse_ullong (Some s) /\
  easyargs_parse_size_t (Some (ws +:+ s)) = easyargs_parse_size_t (Some s) /\
  easyargs_parse_float (Some (ws +:+ s)) = easyargs_parse_float (Some s) /\
  easyargs_parse_double (Some (ws +:+ s)) = easyargs_parse_double (Some s).
Proof.
  intros Hws.
  do 3 (split; [by apply signed_parser_skips|]).
  do 4 (split; [by apply unsigned_parser_skips|]).
  unfold easyargs_parse_float, easyargs_parse_double.
  by rewrite skip_space_app.
Qed.
End LeadingSpace.

Lemma numeric_parsers_skip_leading_space_witness :
  easyargs_parse_int (H := LP64) (Some ("  " +:+ "42")) = (42, true, []).
Proof.
  pose (libc := {| strtof := fun s => (fzero, s, false);
                   strtod := fun s => (fzero, s, false) |}).
  destruct (numeric_parsers_skip_leading_space (H := LP64) (H0 := libc) "  " "42")
    as [Hint _]; [reflexivity|].
  rewrite Hint. reflexivity.
Defined.

(** ** The range of what the integer parsers return *)

Lemma digit_in_bounds (base : Z) (c : ascii) (d : Z) :
  digit_in base c = Some d -> 0 <= d < base.
Proof.
  unfold digit_in, digit_val.
  destruct ((48 <=? code c) && (code c <=? 57)) eqn:E1.
  { apply andb_true_iff in E1 as [E1 _]. apply Z.leb_le in E1.
    destruct (code c - 48 <? base) eqn:E; [|done]. apply Z.ltb_lt in E.
    intros [= <-]. lia. }
  destruct ((97 <=? code c) && (code c <=? 122)) eqn:E2.
  { apply andb_true_iff in E2 as [E2 _]. apply Z.leb_le in E2.
    destruct (code c - 87 <? base) eqn:E; [|done]. apply Z.ltb_lt in E.
    intros [= <-]. lia. }
  destruct ((65 <=? code c) && (code c <=? 90)) eqn:E3; [|done].
  apply andb_true_iff in E3 as [E3 _]. apply Z.leb_le in E3.
  destruct (code c - 55 <? base) eqn:E; [|done]. apply Z.ltb_lt in E.
  intros [= <-]. lia.
Qed.

Lemma scan_digits_nonneg (base : Z) (s : string) :
  forall acc, 0 <= base -> 0 <= acc -> 0 <= (scan_digits base s acc).1.
Proof.
  induction s as [|c s IH]; intros acc Hb Hacc; [done|].
  cbn [scan_digits]. destruct (digit_in base c) as [d|] eqn:Hd; [|done].
  apply digit_in_bounds in Hd. apply IH; [done|]. nia.
Qed.

Lemma detect_base_nonneg (s : string) : 0 <= (detect_base s).1.
Proof.
  unfold detect_base. destruct s as [|z [|x [|h s']]]; cbn [fst]; try lia.
  - destruct (code z =? 48); cbn; lia.
  - destruct (code z =? 48); cbn; lia.
  - destruct ((code z =? 48) && _ && _); [cbn; lia|].
    destruct (code z =? 48); cbn; lia.
Qed.

Lemma subject_nonneg (s : string) (neg : bool) (m : Z) (rest : string) :
  subject s = Some (neg, m, rest) -> 0 <= m.
Proof.
  unfold subject. destruct (read_sign (skip_space s)) as [neg' s1].
  pose proof (detect_base_nonneg s1) as Hb.
  destruct (detect_base s1) as [base s2]. cbn [fst] in Hb.
  destruct s2 as [|c s2]; [done|].
  destruct (digit_in base c); [|done].
  pose proof (scan_digits_nonneg base (String c s2) 0 Hb (Z.le_refl 0)) as Hm.
  destruct (scan_digits base (String c s2) 0) as [m' rest']. intros [= _ <- _]. done.
Qed.

Section Ranges.
Context `{Abi}.

Lemma unsigned_parser_range (maxval : Z) (typename : string) (text : cstr)
    (v : Z) (e : list string) :
  DEFINE_UNSIGNED_INTEGER_PARSER maxval typename text = (v, true, e) ->
  0 <= v <= to_ullong maxval.
Proof.
  unfold DEFINE_UNSIGNED_INTEGER_PARSER. destruct text as [s|]; [|done]. cbv zeta.
  destruct (is_empty (skip_space s)); [done|].
  destruct (first_is 45 (skip_space s)); [done|].
  unfold strtoull. pose proof limits_facts as (_ & _ & _ & _ & _ & Hll & _).
  assert (0 < 2 ^ llong_bits).
  { apply Z.pow_pos_nonneg; [lia|]. pose proof int_bits_min. pose proof int_le_long.
    pose proof long_le_llong. lia. }
  destruct (subject (skip_space s)) as [[[neg m] rest]|] eqn:Hsub.
  - apply subject_nonneg in Hsub. unfold ULLONG_MAX.
    destruct (2 ^ llong_bits - 1 <? m); cbn [negb orb].
    + destruct (is_empty rest); done.
    + destruct (is_empty rest); cbn [negb]; [|done].
      destruct (to_ullong maxval <? _) eqn:E; [done|]. apply Z.ltb_ge in E.
      intros [= <- _]. split; [|done].
      destruct neg; [apply Z.mod_pos_bound; lia | done].
  - destruct (is_empty (skip_space s)); cbn [negb]; [|done].
    destruct (to_ullong maxval <? 0) eqn:E; [done|]. apply Z.ltb_ge in E.
    intros [= <- _]. lia.
Qed.

Lemma signed_parser_range (minval maxval : Z) (typename : string) (text : cstr)
    (v : Z) (e : list string) :
  DEFINE_SIGNED_INTEGER_PARSER minval maxval typename text = (v, true, e) ->
  to_llong minval <= v <= to_llong maxval.
Proof.
  unfold DEFINE_SIGNED_INTEGER_PARSER. destruct text as [s|]; [|done]. cbv zeta.
  destruct (is_empty (skip_space s)); [done|].
  destruct (strtoll (skip_space s)) as [[val end_] erange].
  destruct (negb (is_empty end_)); [done|].
  destruct erange; [done|]. cbn [orb].
  destruct (val <? to_llong minval) eqn:E1; [done|].
  destruct (to_llong maxval <? val) eqn:E2; [done|].
  apply Z.ltb_ge in E1, E2. intros [= <- _]. lia.
Qed.

Lemma to_ullong_small (z : Z) : 0 <= z <= ULLONG_MAX -> to_ullong z = z.
Proof. intros Hz. unfold to_ullong, ULLONG_MAX in *. apply Z.mod_small. lia. Qed.

(** X3.  Whatever the text, a value an integer parser returns with
    [*ok == 1] lies within the limits of the parser's type, so the cast
    to the return type loses nothing: no token is accepted with a
    wrapped or clamped value. *)
Theorem integer_parsers_in_range (text : cstr) (v : Z) (e : list string) :
  (easyargs_parse_int text = (v, true, e) -> INT_MIN <= v <= INT_MAX) /\
  (easyargs_parse_long text = (v, true, e) -> LONG_MIN <= v <= LONG_MAX) /\
  (easyargs_parse_llong text = (v, true, e) -> LLONG_MIN <= v <= LLONG_MAX) /\
  (easyargs_parse_uint text = (v, true, e) -> 0 <= v <= UINT_MAX) /\
  (easyargs_parse_ulong text = (v, true, e) -> 0 <= v <= ULONG_MAX) /\
  (easyargs_parse_ullong text = (v, true, e) -> 0 <= v <= ULLONG_MAX) /\
  (easyargs_parse_size_t text = (v, true, e) -> 0 <= v <= SIZE_MAX).
Proof.
  pose proof limits_facts as (? & ? & ? & ? & ? & ? & ? & ?).
  repeat match goal with |- _ /\ _ => split end; intros Hp;
    first [ apply signed_parser_range in Hp; rewrite !to_llong_small in Hp
          | apply unsigned_parser_range in Hp; rewrite to_ullong_small in Hp ];
    unfold INT_MIN, INT_MAX, LONG_MIN, LONG_MAX, LLONG_MIN, LLONG_MAX,
      UINT_MAX, ULONG_MAX, ULLONG_MAX, SIZE_MAX in *; lia.
Qed.
End Ranges.

Lemma integer_parsers_in_range_witness :
  0 <= 255 <= UINT_MAX (H := LP64).
Proof.
  destruct (integer_parsers_in_range (H := LP64) (Some "0xff") 255 [])
    as (_ & _ & _ & Hu & _).
  apply Hu. reflexivity.
Defined.


(** ** Decimal tokens, plus signs and trailing characters *)

Lemma digits_of_acc (fuel : nat) :
  forall (n : Z) (acc : string),
    digits_of fuel n acc = digits_of fuel n EmptyString +:+ acc.
Proof.
  induction fuel as [|fuel IH]; intros n acc; [done|].
  cbn [digits_of]. destruct (n <? 10); [done|].
  rewrite (IH _ (String _ acc)), (IH _ (String _ EmptyString)).
  by rewrite append_assoc.
Qed.

(** A suffix at which the scan of a decimal numeral stops. *)
Lemma scan_numeral_suffix (n : Z) (suffix : string) :
  0 <= n ->
  match suffix with EmptyString => True | String c _ => digit_in 10 c = None end ->
  scan_digits 10 (numeral n +:+ suffix) 0 = (n, suffix).
Proof.
  intros Hn Hstop. unfold numeral. rewrite <- digits_of_acc.
  rewrite scan_digits_of by (split; [lia | apply numeral_fuel; lia]).
  destruct suffix as [|c rest]; [done|]. cbn [scan_digits]. by rewrite Hstop.
Qed.

Lemma subject_numeral_suffix (neg : bool) (n : Z) (suffix : string) :
  0 < n ->
  match suffix with EmptyString => True | String c _ => digit_in 10 c = None end ->
  (let '(base, s2) := detect_base (numeral n +:+ suffix) in
   match s2 with
   | String c _ =>
       match digit_in base c with
       | Some _ => let '(m, rest) := scan_digits base s2 0 in Some (neg, m, rest)
       | None => None
       end
   | EmptyString => None
   end) = Some (neg, n, suffix).
Proof.
  intros Hn Hstop. destruct (numeral_head n Hn) as (d & rest & Hd & Heq).
  assert (Hb : detect_base (numeral n +:+ suffix) = (10, numeral n +:+ suffix)).
  { rewrite Heq, append_cons. unfold detect_base.
    rewrite (code_digit_char d) by lia.
    replace (48 + d =? 48) with false by (symmetry; apply Z.eqb_neq; lia).
    destruct (rest +:+ suffix) as [|x [|h s']]; reflexivity. }
  rewrite Hb. rewrite Heq at 1. rewrite append_cons, digit_in_digit_char by lia.
  rewrite scan_numeral_suffix by (done || lia). reflexivity.
Qed.

Lemma subject_decimal_suffix (n : Z) (suffix : string) :
  n <> 0 ->
  match suffix with EmptyString => True | String c _ => digit_in 10 c = None end ->
  subject (decimal n +:+ suffix) = Some (n <? 0, Z.abs n, suffix).
Proof.
  intros Hn Hstop. unfold decimal, subject. destruct (n <? 0) eqn:Hneg.
  - apply Z.ltb_lt in Hneg. rewrite append_cons.
    change (skip_space (String "-" ?s)) with (String "-" s).
    change (read_sign (String "-" ?s)) with (true, s).
    cbv beta iota. rewrite subject_numeral_suffix by (done || lia).
    do 3 f_equal. lia.
  - apply Z.ltb_ge in Hneg.
    destruct (numeral_head n) as (d & rest & Hd & Heq); [lia|].
    assert (Hskip : skip_space (numeral n +:+ suffix) = numeral n +:+ suffix).
    { rewrite Heq, append_cons. cbn [skip_space]. by rewrite isspace_digit_char by lia. }
    assert (Hsign : read_sign (numeral n +:+ suffix) = (false, numeral n +:+ suffix)).
    { rewrite Heq, append_cons. unfold read_sign. rewrite code_digit_char by lia.
      replace (48 + d =? 45) with false by (symmetry; apply Z.eqb_neq; lia).
      replace (48 + d =? 43) with false by (symmetry; apply Z.eqb_neq; lia). done. }
    rewrite Hskip, Hsign. cbv beta iota.
    rewrite subject_numeral_suffix by (done || lia). do 3 f_equal. lia.
Qed.

Lemma decimal_suffix_head (n : Z) (suffix : string) :
  n <> 0 ->
  skip_space (decimal n +:+ suffix) = decimal n +:+ suffix /\
  is_empty (decimal n +:+ suffix) = false /\
  first_is 45 (decimal n +:+ suffix) = (n <? 0).
Proof.
  intros Hn. unfold decimal. destruct (n <? 0) eqn:Hneg.
  - by rewrite append_cons.
  - apply Z.ltb_ge in Hneg.
    destruct (numeral_head n) as (d & rest & Hd & ->); [lia|]. rewrite append_cons.
    cbn [skip_space is_empty first_is].
    rewrite isspace_digit_char, code_digit_char by lia.
    repeat split. apply Z.eqb_neq. lia.
Qed.

Lemma subject_plus_decimal (n : Z) :
  0 <= n -> subject (String "+" (decimal n)) = Some (false, n, EmptyString).
Proof.
  intros Hn. unfold subject.
  change (skip_space (String "+" ?s)) with (String "+" s).
  change (read_sign (String "+" ?s)) with (false, s).
  cbv beta iota. unfold decimal.
  replace (n <? 0) with false by (symmetry; apply Z.ltb_ge; lia).
  destruct (Z.eq_dec n 0) as [->|Hne]; [reflexivity|].
  by rewrite subject_pos_numeral by lia.
Qed.

Section Decimals.
Context `{Abi}.

Lemma signed_parser_reads (minval maxval : Z) (typename : string) :
  LLONG_MIN <= minval -> maxval <= LLONG_MAX -> minval <= maxval ->
  reads_decimals (DEFINE_SIGNED_INTEGER_PARSER minval maxval typename) minval maxval.
Proof.
  intros Hlo Hhi Hmid n. unfold accepts, rejects.
  rewrite signed_parser_decimal by lia. split; intros Hn.
  - replace (_ && _ && _ && _) with true; [done|].
    symmetry. rewrite !andb_true_iff, !Z.leb_le. lia.
  - replace (_ && _ && _ && _) with false; [done|].
    symmetry. apply not_true_is_false. rewrite !andb_true_iff, !Z.leb_le. lia.
Qed.

Lemma unsigned_parser_reads (maxval : Z) (typename : string) :
  0 <= maxval <= ULLONG_MAX ->
  reads_decimals (DEFINE_UNSIGNED_INTEGER_PARSER maxval typename) 0 maxval.
Proof.
  intros Hmax n. unfold accepts, rejects. split; intros Hn.
  - rewrite unsigned_parser_decimal by lia.
    by replace (n <=? maxval) with true by (symmetry; apply Z.leb_le; lia).
  - destruct (Z_lt_ge_dec n 0) as [Hneg|Hpos].
    + unfold DEFINE_UNSIGNED_INTEGER_PARSER.
      rewrite skip_space_decimal. cbv zeta.
      rewrite is_empty_decimal, first_is_minus_decimal.
      by replace (n <? 0) with true by (symmetry; apply Z.ltb_lt; lia).
    + rewrite unsigned_parser_decimal by lia.
      by replace (n <=? maxval) with false by (symmetry; apply Z.leb_gt; lia).
Qed.

Lemma signed_parser_plus (minval maxval : Z) (typename : string) :
  LLONG_MIN <= minval -> maxval <= LLONG_MAX -> minval <= 0 <= maxval ->
  reads_plus (DEFINE_SIGNED_INTEGER_PARSER minval maxval typename) maxval.
Proof.
  intros Hlo Hhi Hmid n Hn. unfold accepts, rejects, DEFINE_SIGNED_INTEGER_PARSER.
  rewrite !to_llong_small by lia.
  change (skip_space (String "+" ?s)) with (String "+" s). cbv zeta.
  cbn [is_empty]. unfold strtoll. rewrite subject_plus_decimal by done.
  pose proof limits_facts as (? & ? & ? & ? & ? & ? & ? & ?).
  unfold LLONG_MIN, LLONG_MAX in *. split; intros Hr.
  - replace (2 ^ (llong_bits - 1) - 1 <? n) with false by (symmetry; apply Z.ltb_ge; lia).
    cbn [is_empty negb orb].
    replace (n <? minval) with false by (symmetry; apply Z.ltb_ge; lia).
    by replace (maxval <? n) with false by (symmetry; apply Z.ltb_ge; lia).
  - destruct (2 ^ (llong_bits - 1) - 1 <? n); cbn [is_empty negb orb fst snd]; [done|].
    replace (maxval <? n) with true by (symmetry; apply Z.ltb_lt; lia).
    by rewrite orb_true_r.
Qed.

Lemma unsigned_parser_plus (maxval : Z) (typename : string) :
  0 <= maxval <= ULLONG_MAX ->
  reads_plus (DEFINE_UNSIGNED_INTEGER_PARSER maxval typename) maxval.
Proof.
  intros Hmax n Hn. unfold accepts, rejects, DEFINE_UNSIGNED_INTEGER_PARSER.
  rewrite to_ullong_small by done.
  change (skip_space (String "+" ?s)) with (String "+" s). cbv zeta.
  cbn [is_empty first_is]. change (code "+" =? 45) with false. cbv iota.
  unfold strtoull. rewrite subject_plus_decimal by done.
  unfold ULLONG_MAX in *. split; intros Hr.
  - replace (2 ^ llong_bits - 1 <? n) with false by (symmetry; apply Z.ltb_ge; lia).
    cbn [is_empty negb orb].
    by replace (maxval <? n) with false by (symmetry; apply Z.ltb_ge; lia).
  - destruct (2 ^ llong_bits - 1 <? n); cbn [is_empty negb orb fst snd]; [done|].
    by replace (maxval <? n) with true by (symmetry; apply Z.ltb_lt; lia).
Qed.

Lemma signed_parser_trailing (minval maxval : Z) (typename : string) :
  rejects_trailing (DEFINE_SIGNED_INTEGER_PARSER minval maxval typename).
Proof.
  intros n c rest Hn Hc. unfold rejects, DEFINE_SIGNED_INTEGER_PARSER.
  destruct (decimal_suffix_head n (String c rest) Hn) as (-> & He & _).
  cbv zeta. rewrite He. unfold strtoll. rewrite subject_decimal_suffix by done.
  destruct (n <? 0).
  - by destruct (- Z.abs n <? LLONG_MIN).
  - by destruct (LLONG_MAX <? Z.abs n).
Qed.

Lemma unsigned_parser_trailing (maxval : Z) (typename : string) :
  rejects_trailing (DEFINE_UNSIGNED_INTEGER_PARSER maxval typename).
Proof.
  intros n c rest Hn Hc. unfold rejects, DEFINE_UNSIGNED_INTEGER_PARSER.
  destruct (decimal_suffix_head n (String c rest) Hn) as (-> & He & Hm).
  cbv zeta. rewrite He, Hm. destruct (n <? 0); [done|].
  unfold strtoull. rewrite subject_decimal_suffix by done.
  by destruct (ULLONG_MAX <? Z.abs n).
Qed.

Ltac limits :=
  pose proof limits_facts as (? & ? & ? & ? & ? & ? & ? & ?);
  unfold INT_MIN, INT_MAX, LONG_MIN, LONG_MAX, LLONG_MIN, LLONG_MAX,
    UINT_MAX, ULONG_MAX, ULLONG_MAX, SIZE_MAX in *; lia.

(** X4.  Every integer parser reads decimal tokens back: the token of
    an integer within the limits of the parser's type is accepted with
    that integer as value, and the token of any other integer (for the
    unsigned types, also of every negative one) is rejected. *)
Theorem integer_parsers_read_decimals :
  reads_decimals easyargs_parse_int INT_MIN INT_MAX /\
  reads_decimals easyargs_parse_long LONG_MIN LONG_MAX /\
  reads_decimals easyargs_parse_llong LLONG_MIN LLONG_MAX /\
  reads_decimals easyargs_parse_uint 0 UINT_MAX /\
  reads_decimals easyargs_parse_ulong 0 ULONG_MAX /\
  reads_decimals easyargs_parse_ullong 0 ULLONG_MAX /\
  reads_decimals easyargs_parse_size_t 0 SIZE_MAX.
Proof.
  repeat match goal with |- _ /\ _ => split end;
    first [ apply signed_parser_reads | apply unsigned_parser_reads ]; limits.
Qed.

(** X5.  An explicit plus sign changes nothing: [+] followed by the
    decimal token of a non-negative integer is accepted with that value
    when the integer is at most the maximum of the parser's type, and
    rejected when it is larger. *)
Theorem integer_parsers_read_plus :
  reads_plus easyargs_parse_int INT_MAX /\
  reads_plus easyargs_parse_long LONG_MAX /\
  reads_plus easyargs_parse_llong LLONG_MAX /\
  reads_plus easyargs_parse_uint UINT_MAX /\
  reads_plus easyargs_parse_ulong ULONG_MAX /\
  reads_plus easyargs_parse_ullong ULLONG_MAX /\
  reads_plus easyargs_parse_size_t SIZE_MAX.
Proof.
  repeat match goal with |- _ /\ _ => split end;
    first [ apply signed_parser_plus | apply unsigned_parser_plus ]; limits.
Qed.

(** X6.  No integer parser accepts trailing characters after a number:
    the decimal token of a non-zero integer followed by a character that
    is no decimal digit (a space, a letter, a dot, ...) and anything
    else is rejected. *)
Theorem integer_parsers_reject_trailing :
  rejects_trailing easyargs_parse_int /\
  rejects_trailing easyargs_parse_long /\
  rejects_trailing easyargs_parse_llong /\
  rejects_trailing easyargs_parse_uint /\
  rejects_trailing easyargs_parse_ulong /\
  rejects_trailing easyargs_parse_ullong /\
  rejects_trailing easyargs_parse_size_t.
Proof.
  repeat match goal with |- _ /\ _ => split end;
    first [ apply signed_parser_trailing | apply unsigned_parser_trailing ].
Qed.
End Decimals.

Lemma integer_parsers_read_decimals_witness :
  accepts (easyargs_parse_int (H := LP64)) (decimal (- 17)) (- 17) /\
  rejects (easyargs_parse_uint (H := LP64)) (decimal 4294967296).
Proof.
  destruct (integer_parsers_read_decimals (H := LP64)) as (Hi & _ & _ & Hu & _).
  split.
  - apply (Hi (- 17)). vm_compute. split; discriminate.
  - apply (Hu 4294967296). vm_compute. intros [_ Hle]. by apply Hle.
Defined.

Lemma integer_parsers_read_plus_witness :
  accepts (easyargs_parse_long (H := LP64)) (String "+" (decimal 12)) 12.
Proof.
  destruct (integer_parsers_read_plus (H := LP64)) as (_ & Hl & _).
  apply (Hl 12); vm_compute; discriminate.
Defined.

Lemma integer_parsers_reject_trailing_witness :
  rejects (easyargs_parse_int (H := LP64)) (decimal 5 +:+ String " " EmptyString) /\
  rejects (easyargs_parse_size_t (H := LP64)) (decimal 12 +:+ String "k" "b").
Proof.
  destruct (integer_parsers_reject_trailing (H := LP64)) as (Hi & _ & _ & _ & _ & _ & Hs).
  split; [apply Hi | apply Hs]; (lia || reflexivity).
Defined.

(** ** Blank tokens *)

Lemma skip_space_blank (s : string) : all_space s = true -> skip_space s = EmptyString.
Proof.
  induction s as [|c s IH]; intros Hs; [done|].
  cbn [all_space] in Hs. apply andb_true_iff in Hs as [Hc Hs].
  cbn [skip_space]. rewrite Hc. auto.
Qed.

Section Blank.
Context `{Abi} `{LibcFloat}.

(** X7.  Every numeric parser rejects the empty token and every token
    made of white space only, with the diagnostic for empty input of its
    type; the scan of the C library is not reached, so this holds for
    the floating-point parsers whatever [strtof] and [strtod] do. *)
Theorem numeric_parsers_reject_blank (s : string) :
  all_space s = true ->
  easyargs_parse_int (Some s) = (0, false, ["Error: empty input for int." +:+ nl]) /\
  easyargs_parse_long (Some s) = (0, false, ["Error: empty input for long." +:+ nl]) /\
  easyargs_parse_llong (Some s)
  = (0, false, ["Error: empty input for long long." +:+ nl]) /\
  easyargs_parse_uint (Some s)
  = (0, false, ["Error: empty input for unsigned int." +:+ nl]) /\
  easyargs_parse_ulong (Some s)
  = (0, false, ["Error: empty input for unsigned long." +:+ nl]) /\
  easyargs_parse_ullong (Some s)
  = (0, false, ["Error: empty input for unsigned long long." +:+ nl]) /\
  easyargs_parse_size_t (Some s)
  = (0, false, ["Error: empty input for size_t." +:+ nl]) /\
  easyargs_parse_float (Some s)
  = (fzero, false, ["Error: empty input for float." +:+ nl]) /\
  easyargs_parse_double (Some s)
  = (fzero, false, ["Error: empty input for double." +:+ nl]).
Proof.
  intros Hs.
  unfold easyargs_parse_int, easyargs_parse_long, easyargs_parse_llong,
    easyargs_parse_uint, easyargs_parse_ulong, easyargs_parse_ullong,
    easyargs_parse_size_t, easyargs_parse_float, easyargs_parse_double,
    DEFINE_SIGNED_INTEGER_PARSER, DEFINE_UNSIGNED_INTEGER_PARSER.
  rewrite skip_space_blank by done. by repeat split.
Qed.
End Blank.

Lemma numeric_parsers_reject_blank_witness :
  easyargs_parse_uint (H := LP64) (Some "  ")
  = (0, false, ["Error: empty input for unsigned int." +:+ nl]).
Proof.
  pose (libc := {| strtof := fun s => (fzero, s, false);
                   strtod := fun s => (fzero, s, false) |}).
  destruct (numeric_parsers_reject_blank (H := LP64) (H0 := libc) "  ")
    as (_ & _ & _ & Hu & _); [reflexivity|]. exact Hu.
Defined.


(** ** A rejected token ends the parse *)

Lemma parse_required (D : decls) (prog : string) (tokens : list string) (args : args_t) :
  (length (REQUIRED_ARGS D) <= length tokens)%nat ->
  parse D (prog :: tokens) args =
  if (run_required (REQUIRED_ARGS D) tokens (State args [] [])).2
  then walk D (drop (length (REQUIRED_ARGS D)) tokens)
         (run_required (REQUIRED_ARGS D) tokens (State args [] [])).1
  else Return 0 (run_required (REQUIRED_ARGS D) tokens (State args [] [])).1.
Proof.
  intros Hlen. set (R := length (REQUIRED_ARGS D)).
  assert (Htake : length (take R tokens) = R) by (rewrite length_take; lia).
  pose proof (run_required_app (REQUIRED_ARGS D) (take R tokens) (drop R tokens)
                (State args [] []) Htake) as Hrr.
  rewrite take_drop in Hrr.
  transitivity (parse D (prog :: take R tokens ++ drop R tokens) args);
    [by rewrite take_drop|].
  rewrite parse_shape by done. rewrite <- Hrr.
  by destruct (run_required _ tokens _) as [s1 []].
Qed.

Lemma run_required_fail (k : nat) :
  forall (ds : list required_arg) (tokens : list string) (s : state)
         (d : required_arg) (t : string),
    ds !! k = Some d -> tokens !! k = Some t ->
    Forall2 (fun d t => converts (r_parser d) t = true) (take k ds) (take k tokens) ->
    converts (r_parser d) t = false ->
    (run_required ds tokens s).2 = false /\
    st_calls (run_required ds tokens s).1
    = st_calls s ++ zip (r_name <$> take (S k) ds) (take (S k) tokens) /\
    st_args (run_required ds tokens s).1 !! r_name d = Some (converted (r_parser d) t) /\
    forall n, n ∉ r_name <$> take (S k) ds ->
              st_args (run_required ds tokens s).1 !! n = st_args s !! n.
Proof.
  induction k as [|k IH]; intros [|d0 ds] [|t0 tokens] s d t Hd Ht Hall Hrej; try done.
  - cbn in Hd, Ht. injection Hd as ->. injection Ht as ->.
    cbn [run_required]. rewrite convert_eq, Hrej. cbn.
    split; [done|]. split; [done|]. split; [by rewrite lookup_insert_eq|].
    intros n Hn. apply not_elem_of_cons in Hn as [Hn _]. by rewrite lookup_insert_ne.
  - cbn in Hd, Ht. cbn [take] in Hall. apply Forall2_cons in Hall as [Ht0 Hall].
    cbn [run_required]. rewrite convert_eq, Ht0.
    destruct (IH ds tokens
                (State (<[r_name d0 := converted (r_parser d0) t0]> (st_args s))
                   (st_err s ++ (r_parser d0 (Some t0)).2)
                   (st_calls s ++ [(r_name d0, t0)])) d t Hd Ht Hall Hrej)
      as (Hok & Hcalls & Hval & Hframe).
    split; [done|]. split; [|split; [done|]].
    + rewrite Hcalls. cbn. by rewrite <- app_assoc.
    + intros n Hn. cbn [take fmap list_fmap] in Hn.
      apply not_elem_of_cons in Hn as [Hne Hn].
      rewrite Hframe by done. cbn. by rewrite lookup_insert_ne.
Qed.

(** X8.  When the parsers accept the first [k] tokens after the program
    name and the parser of the next required argument rejects its
    token, [parse_args] returns 0 at once: the parsers were called for
    these [k + 1] tokens and for nothing else, the rejected member holds
    what its parser returned, and no member of a later argument was
    assigned. *)
Theorem required_rejection_aborts (D : decls) (prog : string) (tokens : list string)
    (args : args_t) (k : nat) (d : required_arg) (t : string) :
  REQUIRED_ARGS D !! k = Some d -> tokens !! k = Some t ->
  (length (REQUIRED_ARGS D) <= length tokens)%nat ->
  Forall2 (fun d t => converts (r_parser d) t = true)
    (take k (REQUIRED_ARGS D)) (take k tokens) ->
  converts (r_parser d) t = false ->
  exists s,
    parse D (prog :: tokens) args = Return 0 s /\
    st_calls s = zip (r_name <$> take (S k) (REQUIRED_ARGS D)) (take (S k) tokens) /\
    st_args s !! r_name d = Some (converted (r_parser d) t) /\
    forall n, n ∉ r_name <$> take (S k) (REQUIRED_ARGS D) -> st_args s !! n = args !! n.
Proof.
  intros Hd Ht Hlen Hall Hrej. rewrite parse_required by done.
  destruct (run_required_fail k (REQUIRED_ARGS D) tokens (State args [] []) d t
              Hd Ht Hall Hrej) as (-> & Hcalls & Hval & Hframe).
  eexists. split; [done|]. split; [exact Hcalls|]. split; [exact Hval | exact Hframe].
Qed.

Lemma required_rejection_aborts_witness :
  exists s,
    parse (scenario_decls (H := LP64)) ["prog"; "many"; "--verbose"]
      (make_default_args scenario_decls) = Return 0 s /\
    st_calls s = [("count", "many")] /\
    st_args s !! "verbose" = Some (VBool false).
Proof.
  destruct (required_rejection_aborts (scenario_decls (H := LP64)) "prog"
              ["many"; "--verbose"] (make_default_args scenario_decls) 0
              (REQUIRED_INT_ARG "count" "count" "How many") "many")
    as (s & Hp & Hcalls & _ & Hframe).
  - reflexivity.
  - reflexivity.
  - cbn. lia.
  - constructor.
  - reflexivity.
  - exists s. split; [exact Hp|]. split; [exact Hcalls|].
    rewrite Hframe; [vm_compute; reflexivity | by_computation].
Defined.

(** X9.  When the walk reaches the flag of an optional argument whose
    value token is rejected by the argument's parser, [parse_args]
    returns 0 at once: compared with the parse of the command line up to
    that option, the member holds what the parser returned on the
    rejected token (not its earlier value), one call of the parser and
    its diagnostic are added, and the tokens after the value are never
    looked at. *)
Theorem option_rejection_aborts (D : decls) (prog : string) (reqs : list string)
    (items : list item) (d : optional_arg) (value : string) (rest : list string)
    (args : args_t) (s0 : state) :
  flags_distinct D ->
  length reqs = length (REQUIRED_ARGS D) ->
  Forall (item_ok D) items ->
  d ∈ OPTIONAL_ARGS D ->
  converts (o_parser d) value = false ->
  parse D (prog :: reqs ++ render items) args = Return 1 s0 ->
  parse D (prog :: reqs ++ render items ++ o_flag d :: value :: rest) args
  = Return 0 (State (<[o_name d := converted (o_parser d) value]> (st_args s0))
                (st_err s0 ++ (o_parser d (Some value)).2)
                (st_calls s0 ++ [(o_name d, value)])).
Proof.
  intros Hflags Hlen Hok Hd Hrej. rewrite parse_items_nil, parse_items by done.
  destruct (run_required _ reqs _) as [s1 ok1]. cbn [fst snd].
  destruct ok1; [|done].
  destruct (run_items D items s1) as [s2 ok2]. cbn [fst snd].
  destruct ok2; [|done]. intros [= <-].
  cbn [walk]. rewrite find_optional_flag by done.
  by rewrite convert_eq, Hrej.
Qed.

Lemma option_rejection_aborts_witness :
  parse (scenario_decls (H := LP64)) ["prog"; "5"; "--name"; ""; "--verbose"]
    (make_default_args scenario_decls)
  = Return 0 (State (<["name" := VStr None]>
                       (<["count" := VInt 5]> (make_default_args scenario_decls)))
                ["Error: empty string value not allowed." +:+ nl]
                [("count", "5"); ("name", "")]).
Proof.
  assert (Hs : parse (scenario_decls (H := LP64)) ("prog" :: ["5"] ++ render [])
                 (make_default_args scenario_decls)
               = Return 1 (State (<["count" := VInt 5]> (make_default_args scenario_decls))
                             [] [("count", "5")]))
    by (vm_compute; reflexivity).
  exact (option_rejection_aborts (scenario_decls (H := LP64)) "prog" ["5"] []
           (OPTIONAL_STRING_ARG "name" (Some "anon") "--name" "name" "Who") ""
           ["--verbose"] (make_default_args scenario_decls) _
           scenario_flags_distinct eq_refl ltac:(constructor)
           ltac:(apply list_elem_of_singleton; reflexivity) eq_refl Hs).
Defined.

(** ** What [parse_args] leaves alone *)

Lemma walk_frame (D : decls) (bound : nat) :
  forall (tokens : list string) (s : state) (r : Z) (s' : state) (n : string),
    (length tokens <= bound)%nat ->
    walk D tokens s = Return r s' ->
    n ∉ o_name <$> OPTIONAL_ARGS D -> n ∉ b_name <$> BOOLEAN_ARGS D ->
    st_args s' !! n = st_args s !! n.
Proof.
  induction bound as [|bound IH]; intros tokens s r s' n Hlen Hw Ho Hb.
  - destruct tokens; [|cbn in Hlen; lia]. by injection Hw as _ <-.
  - destruct tokens as [|t rest]; [by injection Hw as _ <-|].
    cbn [length] in Hlen. cbn [walk] in Hw.
    destruct (find_optional D t) as [d|] eqn:Hf.
    + apply find_optional_Some in Hf as [Hd _].
      assert (Hne : o_name d <> n).
      { intros <-. apply Ho. apply list_elem_of_fmap. eauto. }
      destruct rest as [|v rest]; [by injection Hw as _ <-|].
      cbn [length] in Hlen. rewrite convert_eq in Hw.
      destruct (converts (o_parser d) v).
      * etrans; [eapply (IH rest); [|exact Hw|done|done]; lia|].
        cbn. by rewrite lookup_insert_ne.
      * injection Hw as _ <-. cbn. by rewrite lookup_insert_ne.
    + destruct (find_boolean D t) as [d|] eqn:Hfb.
      * apply find_boolean_Some in Hfb as [Hd _].
        assert (Hne : b_name d <> n).
        { intros <-. apply Hb. apply list_elem_of_fmap. eauto. }
        etrans; [eapply (IH rest); [|exact Hw|done|done]; lia|].
        cbn. by rewrite lookup_insert_ne.
      * etrans; [eapply (IH rest); [|exact Hw|done|done]; lia|]. done.
Qed.

(** X10.  Whatever the command line and whatever it returns,
    [parse_args] assigns declared members only: a name that is no member
    of the declaration maps to the same thing before and after the
    call. *)
Theorem parse_args_assigns_members_only (D : decls) (argv : list string)
    (args : args_t) (r : Z) (s : state) (n : string) :
  parse D argv args = Return r s ->
  n ∉ member_names D ->
  st_args s !! n = args !! n.
Proof.
  intros Hp Hn. unfold member_names in Hn.
  rewrite !elem_of_app in Hn.
  destruct (Z_lt_ge_dec (Z.of_nat (length argv)) (1 + REQUIRED_ARG_COUNT D)) as [Hlt|Hge].
  - destruct (parse_args_too_few D _ argv args Hlt) as [line Hq].
    unfold parse in Hp. rewrite Hq in Hp. by injection Hp as _ <-.
  - unfold REQUIRED_ARG_COUNT in Hge.
    destruct argv as [|prog tokens]; [cbn in Hge; lia|]. cbn [length] in Hge.
    rewrite parse_required in Hp by lia.
    pose proof (run_required_other (REQUIRED_ARGS D) tokens (State args [] []) n) as Hr.
    destruct (run_required _ tokens _) as [s1 ok1]. cbn [fst snd] in *.
    destruct ok1.
    + rewrite (walk_frame D _ _ _ _ _ n (le_n _) Hp) by tauto. apply Hr. tauto.
    + injection Hp as _ <-. apply Hr. tauto.
Qed.

Lemma parse_args_assigns_members_only_witness :
  exists s,
    parse (scenario_decls (H := LP64)) ["prog"; "5"; "--verbose"]
      (<["other" := VInt 7]> (make_default_args scenario_decls)) = Return 1 s /\
    st_args s !! "other" = Some (VInt 7).
Proof.
  eexists. split; [vm_compute; reflexivity|].
  match goal with
  | |- st_args ?s !! _ = _ =>
      rewrite (parse_args_assigns_members_only (scenario_decls (H := LP64))
                 ["prog"; "5"; "--verbose"]
                 (<["other" := VInt 7]> (make_default_args scenario_decls)) 1 s "other")
  end.
  - vm_compute. reflexivity.
  - vm_compute. reflexivity.
  - by_computation.
Defined.

(** X11.  Once the parsers have accepted the tokens of all required
    arguments, the required members keep the converted values whatever
    follows on the command line and whether [parse_args] then returns 1
    or 0: the loop over the options never assigns a required member. *)
Theorem required_members_survive (D : decls) (prog : string) (reqs rest : list string)
    (args : args_t) (r : Z) (s : state) :
  names_distinct D ->
  Forall2 (fun d t => converts (r_parser d) t = true) (REQUIRED_ARGS D) reqs ->
  parse D (prog :: reqs ++ rest) args = Return r s ->
  forall k d t,
    REQUIRED_ARGS D !! k = Some d -> reqs !! k = Some t ->
    st_args s !! r_name d = Some (converted (r_parser d) t).
Proof.
  intros Hnames Hall Hp k d t Hd Ht.
  assert (Hlen : length reqs = length (REQUIRED_ARGS D))
    by (symmetry; by eapply Forall2_length).
  rewrite parse_shape in Hp by done.
  pose proof (run_required_ok _ reqs (State args [] []) Hall) as Hok.
  pose proof (run_required_lookup (REQUIRED_ARGS D) reqs (State args [] []) k d t) as Hval.
  destruct (run_required _ reqs _) as [s1 ok1]. cbn [fst snd] in *. subst ok1.
  destruct (names_distinct_inv D Hnames) as (Hr & _ & _ & Hro & Hrb & _).
  assert (Hn : r_name d ∈ r_name <$> REQUIRED_ARGS D).
  { apply list_elem_of_fmap. exists d. split; [done|]. by eapply list_elem_of_lookup_2. }
  rewrite (walk_frame D _ _ _ _ _ (r_name d) (le_n _) Hp) by auto.
  by apply Hval.
Qed.

Lemma required_members_survive_witness :
  exists s,
    parse (scenario_decls (H := LP64)) ["prog"; "5"; "--name"]
      (make_default_args scenario_decls) = Return 0 s /\
    st_args s !! "count" = Some (VInt 5).
Proof.
  eexists. split; [vm_compute; reflexivity|].
  match goal with
  | |- st_args ?s !! _ = _ =>
      apply (required_members_survive (scenario_decls (H := LP64)) "prog" ["5"]
               ["--name"] (make_default_args scenario_decls) 0 s
               scenario_names_distinct
               ltac:(repeat constructor) ltac:(vm_compute; reflexivity)
               0%nat (REQUIRED_INT_ARG "count" "count" "How many") "5"
               eq_refl eq_refl)
  end.
Defined.

(** ** What [parse_args] prints *)

Lemma as_value_clean {A : Type} (inj : A -> value) (zero : A)
    (p : cstr -> A * bool * list string) :
  fails_cleanly zero p -> quiet (as_value inj p) /\ explains (as_value inj p).
Proof.
  intros Hp. split; intros t; unfold converts, as_value;
    destruct (Hp (Some t)) as [[v ->]|[line ->]]; cbn; done.
Qed.

Lemma run_required_quiet (ds : list required_arg) :
  (forall d, d ∈ ds -> quiet (r_parser d)) ->
  forall (tokens : list string) (s : state),
    (run_required ds tokens s).2 = true ->
    st_err (run_required ds tokens s).1 = st_err s.
Proof.
  induction ds as [|d ds IH]; intros Hq [|t tokens] s Hok; try done.
  cbn [run_required] in *. rewrite convert_eq in *.
  destruct (converts (r_parser d) t) eqn:Ht; [|done].
  rewrite IH; [|by intros d' Hd'; apply Hq, elem_of_cons; right | done].
  cbn. rewrite (Hq d) by (done || apply elem_of_cons; by left). by rewrite app_nil_r.
Qed.

Lemma run_items_quiet (D : decls) (items : list item) :
  (forall d, d ∈ OPTIONAL_ARGS D -> quiet (o_parser d)) ->
  forall s : state,
    (run_items D items s).2 = true ->
    st_err (run_items D items s).1 = st_err s ++ (ignoring <$> unknown_tokens items).
Proof.
  intros Hq. induction items as [|it items IH]; intros s Hok; [by rewrite app_nil_r|].
  rewrite run_items_cons in Hok |- *.
  destruct (run_item D it s).2 eqn:Hit; [|done].
  rewrite IH by done. unfold unknown_tokens. cbn [omap list_omap].
  destruct it as [flag value|flag|token]; cbn [run_item] in *.
  - destruct (find_optional D flag) as [d|] eqn:Hf; [|done].
    apply find_optional_Some in Hf as [Hd _].
    rewrite convert_eq in *. cbn in *. rewrite (Hq d) by done. by rewrite app_nil_r.
  - by destruct (find_boolean D flag).
  - cbn. by rewrite <- app_assoc.
Qed.

(** X12.  When the parsers of the declaration print nothing on a token
    they accept (as those of the header do), a successful [parse_args]
    has written on [stderr] exactly one warning for each token that is
    no flag, in the order of the command line, and nothing else. *)
Theorem success_prints_the_warnings (D : decls) (prog : string) (reqs : list string)
    (items : list item) (args : args_t) (s : state) :
  all_parsers quiet D ->
  length reqs = length (REQUIRED_ARGS D) ->
  Forall (item_ok D) items ->
  parse D (prog :: reqs ++ render items) args = Return 1 s ->
  st_err s = ignoring <$> unknown_tokens items.
Proof.
  intros [Hqr Hqo] Hlen Hok. rewrite parse_items_nil by done.
  pose proof (run_required_quiet (REQUIRED_ARGS D) Hqr reqs (State args [] [])) as Hr.
  destruct (run_required _ reqs _) as [s1 ok1]. cbn [fst snd] in *.
  destruct ok1; [|done].
  pose proof (run_items_quiet D items Hqo s1) as Hi.
  destruct (run_items D items s1) as [s2 ok2]. cbn [fst snd] in *.
  destruct ok2; [|done]. intros [= <-]. rewrite Hi, Hr; done.
Qed.

Lemma scenario_parsers_clean :
  all_parsers quiet (scenario_decls (H := LP64)) /\
  all_parsers explains (scenario_decls (H := LP64)).
Proof.
  pose proof (as_value_clean VInt 0 (easyargs_parse_int (H := LP64))
                (proj2 (signed_parser_clean _ _ _))) as [Hqi Hei].
  pose proof (as_value_clean VStr None easyargs_parse_str (proj2 parse_str_clean))
    as [Hqs Hes].
  split; split; intros d Hd; apply list_elem_of_singleton in Hd as ->; done.
Qed.

Lemma success_prints_the_warnings_witness :
  exists s,
    parse (scenario_decls (H := LP64)) ["prog"; "5"; "-x"; "--verbose"; "y"]
      (make_default_args scenario_decls) = Return 1 s /\
    st_err s = [ignoring "-x"; ignoring "y"].
Proof.
  eexists. split; [vm_compute; reflexivity|].
  match goal with
  | |- st_err ?s = _ =>
      exact (success_prints_the_warnings (scenario_decls (H := LP64)) "prog" ["5"]
               [Unknown "-x"; Flag "--verbose"; Unknown "y"]
               (make_default_args scenario_decls) s
               (proj1 scenario_parsers_clean) eq_refl
               ltac:(by_computation) ltac:(vm_compute; reflexivity))
  end.
Defined.

Lemma run_required_explains (ds : list required_arg) :
  (forall d, d ∈ ds -> explains (r_parser d)) ->
  forall (tokens : list string) (s : state),
    (run_required ds tokens s).2 = false ->
    st_err (run_required ds tokens s).1 <> [].
Proof.
  induction ds as [|d ds IH]; intros He [|t tokens] s Hfail; try done.
  cbn [run_required] in *. rewrite convert_eq in *.
  destruct (converts (r_parser d) t) eqn:Ht.
  - apply IH; [by intros d' Hd'; apply He, elem_of_cons; right | done].
  - cbn. intros Hnil. apply app_eq_nil in Hnil as [_ Hnil].
    by apply (He d (proj2 (elem_of_cons ds d d) (or_introl eq_refl)) t).
Qed.

Lemma walk_explains (D : decls) (bound : nat) :
  (forall d, d ∈ OPTIONAL_ARGS D -> explains (o_parser d)) ->
  forall (tokens : list string) (s s' : state),
    (length tokens <= bound)%nat ->
    walk D tokens s = Return 0 s' -> st_err s' <> [].
Proof.
  intros He. induction bound as [|bound IH]; intros tokens s s' Hlen Hw.
  - destruct tokens; [done | cbn in Hlen; lia].
  - destruct tokens as [|t rest]; [done|]. cbn [length] in Hlen. cbn [walk] in Hw.
    destruct (find_optional D t) as [d|] eqn:Hf.
    + apply find_optional_Some in Hf as [Hd _].
      destruct rest as [|v rest].
      { injection Hw as <-. cbn. intros Hnil. by apply app_eq_nil in Hnil as [_ ?]. }
      cbn [length] in Hlen. rewrite convert_eq in Hw.
      destruct (converts (o_parser d) v) eqn:Hv.
      * eapply (IH rest); [|exact Hw]. lia.
      * injection Hw as <-. cbn. intros Hnil. apply app_eq_nil in Hnil as [_ Hnil].
        by apply (He d Hd v).
    + destruct (find_boolean D t); (eapply (IH rest); [|exact Hw]; lia).
Qed.

(** X13.  When the parsers of the declaration print a diagnostic on
    every token they reject (as those of the header do), [parse_args]
    never returns 0 in silence: whatever the command line, a call that
    returns 0 has written at least one line on [stderr]. *)
Theorem failure_is_explained (D : decls) (argv : list string) (args : args_t)
    (s : state) :
  all_parsers explains D ->
  parse D argv args = Return 0 s ->
  st_err s <> [].
Proof.
  intros [Her Heo] Hp.
  destruct (Z_lt_ge_dec (Z.of_nat (length argv)) (1 + REQUIRED_ARG_COUNT D)) as [Hlt|Hge].
  - destruct (parse_args_too_few D _ argv args Hlt) as [line Hq].
    unfold parse in Hp. rewrite Hq in Hp. by injection Hp as <-.
  - unfold REQUIRED_ARG_COUNT in Hge.
    destruct argv as [|prog tokens]; [cbn in Hge; lia|]. cbn [length] in Hge.
    rewrite parse_required in Hp by lia.
    pose proof (run_required_explains (REQUIRED_ARGS D) Her tokens (State args [] []))
      as Hr.
    destruct (run_required _ tokens _) as [s1 ok1]. cbn [fst snd] in *.
    destruct ok1.
    + by eapply (walk_explains D _ Heo), Hp.
    + injection Hp as <-. by apply Hr.
Qed.

Lemma failure_is_explained_witness :
  exists s,
    parse (scenario_decls (H := LP64)) ["prog"; "5"; "--name"]
      (make_default_args scenario_decls) = Return 0 s /\
    st_err s <> [].
Proof.
  eexists. split; [vm_compute; reflexivity|].
  match goal with
  | |- st_err ?s <> _ =>
      exact (failure_is_explained (scenario_decls (H := LP64)) ["prog"; "5"; "--name"]
               (make_default_args scenario_decls) s
               (proj2 scenario_parsers_clean) ltac:(vm_compute; reflexivity))
  end.
Defined.

(** ** What [parse_args] reads of [argv] *)

(** X14.  [parse_args] never reads [argv[0]]: two command lines that
    differ in the program name only give the same result. *)
Theorem program_name_ignored (D : decls) (prog prog' : string) (tokens : list string)
    (args : args_t) :
  parse D (prog :: tokens) args = parse D (prog' :: tokens) args.
Proof.
  destruct (le_lt_dec (length (REQUIRED_ARGS D)) (length tokens)) as [Hle|Hlt].
  - by rewrite !parse_required.
  - unfold parse, parse_args, REQUIRED_ARG_COUNT. cbn [length].
    replace (Z.of_nat (S (length tokens)) =? 0) with false
      by (symmetry; apply Z.eqb_neq; lia).
    by replace (Z.of_nat (S (length tokens)) <? 1 + Z.of_nat (length (REQUIRED_ARGS D)))
      with true by (symmetry; apply Z.ltb_lt; lia).
Qed.

Lemma argv_at_take (argv : list string) (n : nat) (i : Z) :
  i < Z.of_nat n -> argv_at (take n argv) i = argv_at argv i.
Proof.
  intros Hi. unfold argv_at. destruct (i <? 0) eqn:E; [done|].
  apply Z.ltb_ge in E. apply lookup_take_lt. lia.
Qed.

Lemma get_required_take (argv : list string) (n : nat) (ds : list required_arg) :
  forall (i : Z) (s : state),
    i + Z.of_nat (length ds) <= Z.of_nat n ->
    get_required ds (take n argv) i s = get_required ds argv i s.
Proof.
  induction ds as [|d ds IH]; intros i s Hi; [done|].
  cbn [length] in Hi. cbn [get_required]. rewrite argv_at_take by lia.
  destruct (argv_at argv i) as [token|]; [|done].
  destruct (convert _ _ token s) as [s' []]; [|done]. apply IH. lia.
Qed.

Lemma loop_body_take (D : decls) (argv : list string) (n : nat) (i : Z) (s : state) :
  i < Z.of_nat n ->
  loop_body D (Z.of_nat n) (take n argv) i s = loop_body D (Z.of_nat n) argv i s.
Proof.
  intros Hi. unfold loop_body. rewrite argv_at_take by done.
  destruct (argv_at argv i) as [token|]; [|done].
  rewrite !try_optional_find.
  destruct (find _ (OPTIONAL_ARGS D)) as [d|]; [|done].
  destruct (Z.of_nat n <=? i + 1) eqn:E; [done|]. apply Z.leb_gt in E.
  by rewrite argv_at_take.
Qed.

Lemma for_loop_take (D : decls) (argv : list string) (n : nat) (fuel : nat) :
  forall (i : Z) (s : state),
    for_loop fuel D (Z.of_nat n) (take n argv) i s
    = for_loop fuel D (Z.of_nat n) argv i s.
Proof.
  induction fuel as [|fuel IH]; intros i s; [done|].
  cbn [for_loop]. destruct (i <? Z.of_nat n) eqn:E; [|done]. apply Z.ltb_lt in E.
  rewrite loop_body_take by done.
  by destruct (loop_body D (Z.of_nat n) argv i s).
Qed.

(** X15.  [parse_args] reads [argv] below index [argc] only: called with
    an [argc] between 0 and the number of tokens, it returns what it
    returns on the first [argc] tokens alone, so the tokens from index
    [argc] on are never read, and the call returns 0 or 1. *)
Theorem tokens_beyond_argc_unread (D : decls) (argc : Z) (argv : list string)
    (args : args_t) :
  0 <= argc <= Z.of_nat (length argv) ->
  parse_args D argc (Some argv) args = parse D (take (Z.to_nat argc) argv) args /\
  exists r s, parse_args D argc (Some argv) args = Return r s /\ (r = 0 \/ r = 1).
Proof.
  intros Hargc.
  assert (Heq : parse_args D argc (Some argv) args
                = parse D (take (Z.to_nat argc) argv) args).
  { destruct (Z_of_nat_complete argc) as [n ->]; [lia|]. rewrite Nat2Z.id.
    unfold parse. rewrite length_take_le by lia.
    unfold parse_args. destruct (Z.of_nat n =? 0); [done|].
    destruct (Z.of_nat n <? 1 + REQUIRED_ARG_COUNT D) eqn:E; [done|].
    apply Z.ltb_ge in E. unfold REQUIRED_ARG_COUNT in *.
    rewrite get_required_take by lia.
    destruct (get_required _ argv 1 _); [|done|done].
    symmetry. apply for_loop_take. }
  split; [done|]. rewrite Heq. apply parse_returns.
Qed.

Lemma tokens_beyond_argc_unread_witness :
  parse_args (scenario_decls (H := LP64)) 2 (Some ["prog"; "5"; "--name"])
    (make_default_args scenario_decls)
  = parse (scenario_decls (H := LP64)) ["prog"; "5"] (make_default_args scenario_decls).
Proof.
  apply (tokens_beyond_argc_unread (scenario_decls (H := LP64)) 2
           ["prog"; "5"; "--name"]).
  cbn. lia.
Defined.

(** ** Parsing twice *)

Lemma run_required_ok_inv (ds : list required_arg) :
  forall (reqs : list string) (s : state),
    length reqs = length ds ->
    (run_required ds reqs s).2 = true ->
    Forall2 (fun d t => converts (r_parser d) t = true) ds reqs.
Proof.
  induction ds as [|d ds IH]; intros [|t reqs] s Hlen Hrun; try done.
  cbn [run_required] in Hrun. rewrite convert_eq in Hrun.
  destruct (converts (r_parser d) t) eqn:Ht; [|done].
  constructor; [done|]. eapply IH; [|exact Hrun]. cbn in Hlen. lia.
Qed.

(** X16.  Parsing is idempotent: when a command line is parsed with
    success, parsing the same command line again into the struct just
    filled succeeds too and leaves every member as it is. *)
Theorem parse_again_changes_nothing (D : decls) (prog : string) (reqs : list string)
    (items : list item) (args : args_t) (s : state) :
  names_distinct D -> flags_distinct D ->
  length reqs = length (REQUIRED_ARGS D) ->
  Forall (item_ok D) items ->
  parse D (prog :: reqs ++ render items) args = Return 1 s ->
  exists s',
    parse D (prog :: reqs ++ render items) (st_args s) = Return 1 s' /\
    st_args s' = st_args s.
Proof.
  intros Hnames Hflags Hlen Hok. rewrite !parse_items_nil by done.
  destruct (names_distinct_inv D Hnames) as (Hr & Ho & Hb & Hro & Hrb & Hob).
  set (s1 := run_required (REQUIRED_ARGS D) reqs (State args [] [])).
  set (t1 := run_required (REQUIRED_ARGS D) reqs (State (st_args s) [] [])).
  destruct s1.2 eqn:Hok1; [|done].
  destruct (run_items D items s1.1).2 eqn:Hok2; [|done]. intros [= Hs].
  assert (Hreqs : Forall2 (fun d t => converts (r_parser d) t = true)
                    (REQUIRED_ARGS D) reqs).
  { by apply (run_required_ok_inv _ _ (State args [] [])). }
  assert (Hok1' : t1.2 = true) by (by apply run_required_ok).
  assert (Hok2' : (run_items D items t1.1).2 = true)
    by (by rewrite run_items_ok_forallb, <- (run_items_ok_forallb D items s1.1)).
  rewrite Hok1', Hok2'. eexists. split; [done|].
  apply map_eq. intros n. rewrite <- Hs.
  destruct (decide (n ∈ r_name <$> REQUIRED_ARGS D)) as [Hnr|Hnr].
  { apply list_elem_of_fmap in Hnr as (d & -> & Hd).
    apply list_elem_of_lookup_1 in Hd as [k Hk].
    destruct (Forall2_lookup_l _ _ _ _ _ Hreqs Hk) as (t & Ht & _).
    assert (Hn : r_name d ∈ r_name <$> REQUIRED_ARGS D).
    { apply list_elem_of_fmap. exists d. split; [done|]. by eapply list_elem_of_lookup_2. }
    rewrite !run_items_other by auto.
    unfold s1, t1. by rewrite !(run_required_lookup _ _ _ k d t). }
  destruct (decide (n ∈ o_name <$> OPTIONAL_ARGS D)) as [Hno|Hno].
  { apply list_elem_of_fmap in Hno as (d & -> & Hd).
    rewrite (run_items_optional D Hflags Hnames items t1.1) by done.
    destruct (last (supplied (o_flag d) items)) as [v|] eqn:Hlast.
    - rewrite (run_items_optional D Hflags Hnames items s1.1) by done. by rewrite Hlast.
    - unfold t1. rewrite run_required_other by done. cbn. by rewrite <- Hs. }
  destruct (decide (n ∈ b_name <$> BOOLEAN_ARGS D)) as [Hnb|Hnb].
  { apply list_elem_of_fmap in Hnb as (d & -> & Hd).
    rewrite (run_items_boolean D Hflags Hnames items t1.1) by done.
    destruct (bool_decide (Flag (b_flag d) ∈ items)) eqn:Hflag.
    - rewrite (run_items_boolean D Hflags Hnames items s1.1) by done. by rewrite Hflag.
    - unfold t1. rewrite run_required_other by done. cbn. by rewrite <- Hs. }
  rewrite (run_items_other D items t1.1) by done.
  unfold t1. rewrite run_required_other by done. cbn. by rewrite <- Hs.
Qed.

Lemma parse_again_changes_nothing_witness :
  exists s s',
    parse (scenario_decls (H := LP64)) ["prog"; "5"; "--name"; "Ada"]
      (make_default_args scenario_decls) = Return 1 s /\
    parse (scenario_decls (H := LP64)) ["prog"; "5"; "--name"; "Ada"] (st_args s)
    = Return 1 s' /\
    st_args s' = st_args s.
Proof.
  eexists.
  match goal with
  | |- exists s', parse _ _ _ = Return 1 ?s /\ _ =>
      assert (Hs : parse (scenario_decls (H := LP64))
                     ("prog" :: ["5"] ++ render [Opt "--name" "Ada"])
                     (make_default_args scenario_decls) = Return 1 s)
        by (vm_compute; reflexivity);
      destruct (parse_again_changes_nothing (scenario_decls (H := LP64)) "prog" ["5"]
                  [Opt "--name" "Ada"] (make_default_args scenario_decls) s
                  scenario_names_distinct scenario_flags_distinct eq_refl
                  ltac:(by_computation) Hs) as (s' & Hp' & Ha)
  end.
  exists s'. split; [exact Hs|]. split; [exact Hp' | exact Ha].
Defined.
